(** * gemini-app: the sandboxed code-preview renderer and the chat submit guard

    A shallow embedding of the component [CodePreview] (the renderer:
    normalisation of the model-authored source by four [String.replace]
    calls, template composition, [document.open/write/close] on the preview
    iframe, the copy button) and of [handleSubmit] of the component [Chat].

    JavaScript strings are sequences of UTF-16 code units; they are modelled
    as [list N].  The regular expressions of the source are values of a small
    regex syntax, run by a backtracking matcher that follows the matcher of
    ECMA-262 (continuations, greedy and lazy quantifiers, capture groups).

    Inside the iframe: the script element the browser reads out of the
    composed document, what its final render logic puts in the mount point,
    and what the [sandbox] attribute lets a script of the frame reach.

    Around them: the life of a preview component under the events of its
    user, the markdown code renderer, the debug callback, the image
    selection and [speak] of the chat, the chat route and the image route
    as the chat reaches them, and the speech route with the WAV header it
    writes in front of raw PCM audio. *)

From Stdlib Require Import String Ascii DecimalString NArith ZArith Bool Arith Lia List.
From Stdlib Require QArith Qround DecimalN DecimalPos.
Import ListNotations.

(* ================================================================== *)
(** * JavaScript strings *)
(* ================================================================== *)

Module JsString.

(** A UTF-16 code unit. *)
Definition char16 := N.

Definition jsstring := list char16.

(** A string literal of the source (all literals used here are ASCII). *)
Definition lit (s : string) : jsstring :=
  List.map N_of_ascii (list_ascii_of_string s).

(** The double quote, which cannot be written inside a literal. *)
Definition dq : string := String (ascii_of_nat 34) EmptyString.

(** Line feed. *)
Definition nl : string := String (ascii_of_nat 10) EmptyString.

Definition in_range (lo hi c : char16) : bool :=
  ((lo <=? c) && (c <=? hi))%N.

(** ECMA-262 LineTerminator: LF, CR, LS, PS. *)
Definition is_line_terminator (c : char16) : bool :=
  ((c =? 10) || (c =? 13) || (c =? 8232) || (c =? 8233))%N.

(** ECMA-262 WhiteSpace and LineTerminator: the class [\s] of a regular
    expression, and what [String.prototype.trim] strips. *)
Definition is_space (c : char16) : bool :=
  ((c =? 9) || (c =? 11) || (c =? 12) || (c =? 32) || (c =? 160)
   || (c =? 5760) || in_range 8192 8202 c || (c =? 8239) || (c =? 8287)
   || (c =? 12288) || (c =? 65279))%N
  || is_line_terminator c.

(** The class [\w] (no [i] or [u] flag): [A-Za-z0-9_]. *)
Definition is_word (c : char16) : bool :=
  (in_range 48 57 c || in_range 65 90 c || in_range 97 122 c || (c =? 95))%N.

(** The class [.] (no [s] flag): anything but a line terminator. *)
Definition is_dot (c : char16) : bool := negb (is_line_terminator c).

(** [[\s\S]]: any code unit. *)
Definition is_any (c : char16) : bool := is_space c || negb (is_space c).

(** [a === b] on strings. *)
Fixpoint jseq (a b : jsstring) : bool :=
  match a, b with
  | [], [] => true
  | x :: a', y :: b' => (x =? y)%N && jseq a' b'
  | _, _ => false
  end.

(** [s.startsWith(p)], returning what follows the prefix. *)
Fixpoint strip_prefix (p s : jsstring) : option jsstring :=
  match p with
  | [] => Some s
  | x :: p' =>
      match s with
      | [] => None
      | y :: s' => if (x =? y)%N then strip_prefix p' s' else None
      end
  end.

Definition starts_with (p s : jsstring) : bool :=
  match strip_prefix p s with Some _ => true | None => false end.

(** [s.includes(p)]. *)
Fixpoint occurs (p s : jsstring) : bool :=
  starts_with p s ||
  match s with
  | [] => false
  | _ :: s' => occurs p s'
  end.

Fixpoint drop_while (f : char16 -> bool) (s : jsstring) : jsstring :=
  match s with
  | [] => []
  | c :: s' => if f c then drop_while f s' else s
  end.

(** [String.prototype.trim]. *)
Definition trim (s : jsstring) : jsstring :=
  rev (drop_while is_space (rev (drop_while is_space s))).

(** [Array.prototype.includes] on an array of strings. *)
Definition includes (l : list jsstring) (x : jsstring) : bool :=
  existsb (jseq x) l.

End JsString.

Import JsString.

(* ================================================================== *)
(** * Regular expressions and [String.prototype.replace] *)
(* ================================================================== *)

Module RegExp.

(** The fragment of the pattern syntax the source uses. *)
Inductive regex : Type :=
| Eps                                  (* the empty pattern *)
| Chr (c : char16)                     (* a literal character *)
| Cls (p : char16 -> bool)             (* a class: \s \w . [...] *)
| Seq (r1 r2 : regex)                  (* r1 r2 *)
| Alt (r1 r2 : regex)                  (* r1 | r2 *)
| Star (greedy : bool) (r : regex)     (* r*  and  r*? *)
| Group (i : nat) (r : regex).         (* the i-th capturing ( r ) *)

(** [r+] and [r+?]. *)
Definition Plus (greedy : bool) (r : regex) : regex := Seq r (Star greedy r).

(** [r?]. *)
Definition Opt (r : regex) : regex := Alt r Eps.

(** A run of literal characters followed by [k]. *)
Fixpoint chars (s : jsstring) (k : regex) : regex :=
  match s with
  | [] => k
  | c :: s' => Seq (Chr c) (chars s' k)
  end.

(** Captures: the most recent binding of a group comes first. *)
Definition captures := list (nat * jsstring).

Fixpoint capture (i : nat) (cs : captures) : option jsstring :=
  match cs with
  | [] => None
  | (j, s) :: cs' => if Nat.eqb i j then Some s else capture i cs'
  end.

(** A match state: what is left of the input, and the captures. *)
Definition mstate := (jsstring * captures)%type.

Definition cont := jsstring -> captures -> option mstate.

Definition orelse (a b : option mstate) : option mstate :=
  match a with Some _ => a | None => b end.

(** The quantifier loop (RepeatMatcher with min 0 and max infinity).  An
    iteration that consumes nothing is rejected, so [n], at least the length
    of the input, bounds the iterations. *)
Fixpoint star_loop (body : jsstring -> captures -> cont -> option mstate)
    (greedy : bool) (n : nat) (s : jsstring) (cs : captures) (k : cont)
    : option mstate :=
  match n with
  | O => k s cs
  | S n' =>
      let again :=
        body s cs (fun s' cs' =>
          if Nat.ltb (length s') (length s)
          then star_loop body greedy n' s' cs' k
          else None) in
      if greedy then orelse again (k s cs) else orelse (k s cs) again
  end.

(** The backtracking matcher: [m r s cs k] matches [r] at the head of [s]
    and passes what is left to [k]; the first alternative whose continuation
    succeeds wins. *)
Fixpoint m (r : regex) (s : jsstring) (cs : captures) (k : cont)
    : option mstate :=
  match r with
  | Eps => k s cs
  | Chr c =>
      match s with
      | x :: s' => if (x =? c)%N then k s' cs else None
      | [] => None
      end
  | Cls p =>
      match s with
      | x :: s' => if p x then k s' cs else None
      | [] => None
      end
  | Seq r1 r2 => m r1 s cs (fun s' cs' => m r2 s' cs' k)
  | Alt r1 r2 => orelse (m r1 s cs k) (m r2 s cs k)
  | Star g r' => star_loop (m r') g (length s) s cs k
  | Group i r' =>
      m r' s cs (fun s' cs' =>
        k s' ((i, firstn (length s - length s') s) :: cs'))
  end.

(** A matcher is well behaved: it uses its continuation only through the
    results it returns, and succeeds only through it. *)
Definition respects (body : jsstring -> captures -> cont -> option mstate)
    : Prop :=
  (forall s cs k1 k2, (forall s' cs', k1 s' cs' = k2 s' cs') ->
     body s cs k1 = body s cs k2)
  /\ (forall s cs, body s cs (fun _ _ => None) = None).

(** A match anchored at the head of [s]. *)
Definition match_here (r : regex) (s : jsstring) : option mstate :=
  m r s [] (fun s' cs' => Some (s', cs')).

(** The number of capture groups of a pattern. *)
Fixpoint ngroups (r : regex) : nat :=
  match r with
  | Eps | Chr _ | Cls _ => 0
  | Seq r1 r2 | Alt r1 r2 => ngroups r1 + ngroups r2
  | Star _ r' => ngroups r'
  | Group _ r' => S (ngroups r')
  end.

Definition digit_value (c : char16) : option nat :=
  if in_range 49%N 57%N c then Some (N.to_nat c - 48) else None.

(** GetSubstitution: [$$], [$&] and [$1]..[$9] in a replacement string
    ([ng] is the number of groups of the pattern; a reference to a group the
    pattern does not have stays as it is written).  The other forms do not
    occur in the replacement strings of the source. *)
Fixpoint substitute (ng : nat) (tpl matched : jsstring) (cs : captures)
    : jsstring :=
  match tpl with
  | [] => []
  | c :: tpl' =>
      if (c =? 36)%N then
        match tpl' with
        | d :: tpl'' =>
            if (d =? 36)%N then 36%N :: substitute ng tpl'' matched cs
            else if (d =? 38)%N then matched ++ substitute ng tpl'' matched cs
            else
              match digit_value d with
              | Some i =>
                  if Nat.leb i ng then
                    match capture i cs with
                    | Some t => t
                    | None => []
                    end ++ substitute ng tpl'' matched cs
                  else c :: substitute ng tpl' matched cs
              | None => c :: substitute ng tpl' matched cs
              end
        | [] => [c]
        end
      else c :: substitute ng tpl' matched cs
  end.

(** [s.replace(r, tpl)] for a pattern without the [g] flag: the leftmost
    match is replaced. *)
Fixpoint replace_first (r : regex) (tpl : jsstring) (s : jsstring)
    : jsstring :=
  match match_here r s with
  | Some (rest, cs) =>
      substitute (ngroups r) tpl (firstn (length s - length rest) s) cs ++ rest
  | None =>
      match s with
      | [] => []
      | c :: s' => c :: replace_first r tpl s'
      end
  end.

(** [s.replace(r, tpl)] for a pattern with the [g] flag: every match, left
    to right, the search resuming where the previous match ended (one
    character further after an empty match).  [skip] counts the characters
    of the current match still to step over. *)
Fixpoint replace_all_from (r : regex) (tpl : jsstring) (skip : nat)
    (s : jsstring) : jsstring :=
  match skip with
  | S k =>
      match s with
      | [] => []
      | _ :: s' => replace_all_from r tpl k s'
      end
  | O =>
      match match_here r s with
      | Some (rest, cs) =>
          let n := length s - length rest in
          let out := substitute (ngroups r) tpl (firstn n s) cs in
          match s with
          | [] => out
          | c :: s' =>
              match n with
              | O => out ++ c :: replace_all_from r tpl 0 s'
              | S k => out ++ replace_all_from r tpl k s'
              end
          end
      | None =>
          match s with
          | [] => []
          | c :: s' => c :: replace_all_from r tpl 0 s'
          end
      end
  end.

Definition replace_all (r : regex) (tpl s : jsstring) : jsstring :=
  replace_all_from r tpl 0 s.

End RegExp.

Import RegExp.

(* ================================================================== *)
(** * The preview component ([CodePreview]) *)
(* ================================================================== *)

Module CodePreview.

(** ** Normalisation of the source *)

Definition ws : regex := Cls is_space.

Definition is_quote (c : char16) : bool := ((c =? 39) || (c =? 34))%N.

(** [/import\s+[\s\S]*?from\s+['"].*?['"];?/g] *)
Definition import_re : regex :=
  chars (lit "import")
    (Seq (Plus true ws)
      (Seq (Star false (Cls is_any))
        (chars (lit "from")
          (Seq (Plus true ws)
            (Seq (Cls is_quote)
              (Seq (Star false (Cls is_dot))
                (Seq (Cls is_quote) (Opt (Chr 59%N))))))))).

(** [/export\s+default\s+function\s+(\w+)/] *)
Definition export_default_function_re : regex :=
  chars (lit "export")
    (Seq (Plus true ws)
      (chars (lit "default")
        (Seq (Plus true ws)
          (chars (lit "function")
            (Seq (Plus true ws)
              (Group 1 (Plus true (Cls is_word)))))))).

(** [/export\s+default\s+/] *)
Definition export_default_re : regex :=
  chars (lit "export")
    (Seq (Plus true ws) (chars (lit "default") (Plus true ws))).

(** [/export\s+/g] *)
Definition export_re : regex :=
  chars (lit "export") (Plus true ws).

(** The four [replace] calls that compute [cleanedCode]. *)
Definition cleanedCode (code : jsstring) : jsstring :=
  replace_all export_re (lit "")
    (replace_first export_default_re (lit "const App = ")
      (replace_first export_default_function_re (lit "function $1")
        (replace_all import_re (lit "") code))).

(** ** The runner template *)

(** The runner template up to the place of [${cleanedCode}]. *)
Definition template_head_lines : list string :=
  [ "";
    "        <!DOCTYPE html>";
    "        <html>";
    "          <head>";
    "            <meta charset=" ++ dq ++ "UTF-8" ++ dq ++ " />";
    "            <script src=" ++ dq ++ "https://unpkg.com/@babel/standalone/babel.min.js" ++ dq ++ "></script>";
    "            <script src=" ++ dq ++ "https://unpkg.com/react@18/umd/react.development.js" ++ dq ++ "></script>";
    "            <script src=" ++ dq ++ "https://unpkg.com/react-dom@18/umd/react-dom.development.js" ++ dq ++ "></script>";
    "            <script src=" ++ dq ++ "https://unpkg.com/lucide@latest" ++ dq ++ "></script>";
    "            <script src=" ++ dq ++ "https://cdn.tailwindcss.com" ++ dq ++ "></script>";
    "            <style>";
    "              body { ";
    "                margin: 0; ";
    "                font-family: -apple-system, BlinkMacSystemFont, " ++ dq ++ "Segoe UI" ++ dq ++ ", Roboto, Helvetica, Arial, sans-serif; ";
    "                background-color: white;";
    "                color: #18181b;";
    "              }";
    "              #root { padding: 0; min-height: 100vh; }";
    "              ::-webkit-scrollbar { width: 8px; }";
    "              ::-webkit-scrollbar-track { background: #f1f1f1; }";
    "              ::-webkit-scrollbar-thumb { background: #888; border-radius: 4px; }";
    "              ::-webkit-scrollbar-thumb:hover { background: #555; }";
    "            </style>";
    "          </head>";
    "          <body>";
    "            <div id=" ++ dq ++ "root" ++ dq ++ "></div>";
    "            <script type=" ++ dq ++ "text/babel" ++ dq ++ " data-presets=" ++ dq ++ "react,typescript" ++ dq ++ ">";
    "              // Setup globals for the AI code";
    "              const { ";
    "                useState, useEffect, useMemo, useCallback, useRef, ";
    "                useReducer, useContext, createContext, useLayoutEffect,";
    "                useImperativeHandle, useDebugValue, useDeferredValue,";
    "                useTransition, useId";
    "              } = React;";
    "              ";
    "              // Lucide icon helper";
    "              window.LucideReact = window.lucide;";
    "";
    "              try {";
    "                " ]%string.

(** The runner template after [${cleanedCode}]. *)
Definition template_tail_lines : list string :=
  [ "";
    "                ";
    "                // Final render logic";
    "                const container = document.getElementById('root');";
    "                const root = ReactDOM.createRoot(container);";
    "                ";
    "                if (typeof App !== 'undefined') {";
    "                  root.render(";
    "                    <React.StrictMode>";
    "                      <App />";
    "                    </React.StrictMode>";
    "                  );";
    "                } else if (typeof main !== 'undefined') {";
    "                  main();";
    "                } else {";
    "                  console.error(" ++ dq ++ "No 'App' component found." ++ dq ++ ");";
    "                  container.innerHTML = '<div style=" ++ dq ++ "padding: 20px; color: #ef4444;" ++ dq ++ ">Error: No <b>App</b> component found. Please define <code>export default function App()</code>.</div>';";
    "                }";
    "                ";
    "                // Initialize lucide icons if any";
    "                setTimeout(() => {";
    "                  if (window.lucide) {";
    "                    window.lucide.createIcons();";
    "                  }";
    "                }, 100);";
    "              } catch (err) {";
    "                console.error(" ++ dq ++ "Preview Error:" ++ dq ++ ", err);";
    "                document.getElementById('root').innerHTML = `";
    "                  <div style=" ++ dq ++ "color: #ef4444; background: #fee2e2; padding: 1.5rem; border: 1px solid #fecaca; border-radius: 0.5rem; font-family: ui-monospace, SFMono-Regular, Menlo, Monaco, Consolas, monospace; margin: 1rem;" ++ dq ++ ">";
    "                    <h3 style=" ++ dq ++ "margin-top: 0; color: #991b1b; font-size: 1.125rem;" ++ dq ++ ">Runtime Error</h3>";
    "                    <pre style=" ++ dq ++ "white-space: pre-wrap; margin: 0; font-size: 0.875rem; line-height: 1.5;" ++ dq ++ ">${err.stack || err.toString()}</pre>";
    "                  </div>";
    "                `;";
    "              }";
    "            </script>";
    "          </body>";
    "        </html>";
    "      " ]%string.

Definition template_head : jsstring :=
  lit (String.concat nl template_head_lines).

Definition template_tail : jsstring :=
  lit (String.concat nl template_tail_lines).

(** The value of [content] when [doc.write] is reached: the source itself
    for html, the runner template around [cleanedCode] for the four script
    languages, and the initial empty string for any other tag. *)
Definition content (code language : jsstring) : jsstring :=
  if jseq language (lit "html") then code
  else if jseq language (lit "jsx") || jseq language (lit "tsx")
          || jseq language (lit "javascript")
          || jseq language (lit "typescript")
  then template_head ++ cleanedCode code ++ template_tail
  else [].

(** ** The preview iframe *)

(** The document of the iframe: the markup it holds, and whether it is open
    for writing. *)
Record document : Type := {
  markup : jsstring;
  writable : bool
}.

(** [doc.open()] discards what the document holds. *)
Definition doc_open (d : document) : document :=
  {| markup := []; writable := true |}.

(** [doc.write(s)] appends to an open document; on a closed one it opens
    the document first. *)
Definition doc_write (s : jsstring) (d : document) : document :=
  if writable d
  then {| markup := markup d ++ s; writable := true |}
  else {| markup := s; writable := true |}.

(** [doc.close()] *)
Definition doc_close (d : document) : document :=
  {| markup := markup d; writable := false |}.

Record window : Type := { doc : document }.

Record iframe : Type := {
  sandbox : list jsstring;
  contentWindow : option window
}.

(** The [sandbox] attribute the component gives its iframe. *)
Definition sandbox_attribute : list jsstring :=
  [ lit "allow-scripts"; lit "allow-modals"; lit "allow-forms";
    lit "allow-popups"; lit "allow-same-origin" ].

(** ** Props and state *)

Record props : Type := {
  code : jsstring;
  language : jsstring;
  title : jsstring
}.

Inductive tab : Type := preview | code_tab.

Record state : Type := {
  activeTab : tab;
  isFullscreen : bool;
  copied : bool;
  iframeRef : option iframe
}.

(** The initial value given to [useState] for [activeTab]. *)
Definition initial_activeTab (language : jsstring) : tab :=
  if jseq language (lit "html") || jseq language (lit "jsx")
     || jseq language (lit "tsx")
  then preview else code_tab.

Definition initial_state (p : props) : state :=
  {| activeTab := initial_activeTab (language p);
     isFullscreen := false;
     copied := false;
     iframeRef := None |}.

Definition set_iframeRef (r : option iframe) (st : state) : state :=
  {| activeTab := activeTab st; isFullscreen := isFullscreen st;
     copied := copied st; iframeRef := r |}.

Definition set_copied (b : bool) (st : state) : state :=
  {| activeTab := activeTab st; isFullscreen := isFullscreen st;
     copied := b; iframeRef := iframeRef st |}.

(** [updateIframe]: nothing without a mounted iframe, nothing without a
    document, else [open], [write(content)], [close]. *)
Definition updateIframe (p : props) (st : state) : state :=
  match iframeRef st with
  | None => st
  | Some fr =>
      match contentWindow fr with
      | None => st
      | Some w =>
          let d := doc_close
                     (doc_write (content (code p) (language p))
                        (doc_open (doc w))) in
          set_iframeRef
            (Some {| sandbox := sandbox fr;
                     contentWindow := Some {| doc := d |} |}) st
      end
  end.

(** The markup the preview iframe holds, when there is one. *)
Definition loaded (st : state) : option jsstring :=
  match iframeRef st with
  | Some fr =>
      match contentWindow fr with
      | Some w => Some (markup (doc w))
      | None => None
      end
  | None => None
  end.

(** ** Rendering *)

(** The iframe element React creates: the [sandbox] attribute of the
    component, and an empty document. *)
Definition new_iframe : iframe :=
  {| sandbox := sandbox_attribute;
     contentWindow := Some {| doc := {| markup := []; writable := false |} |} |}.

(** The element tree is committed: the iframe exists, and [iframeRef]
    points to it, exactly while the preview tab is active. *)
Definition commit (st : state) : state :=
  match activeTab st with
  | preview =>
      match iframeRef st with
      | Some _ => st
      | None => set_iframeRef (Some new_iframe) st
      end
  | code_tab => set_iframeRef None st
  end.

(** The effect: [if (activeTab === "preview") updateIframe()]. *)
Definition effect (p : props) (st : state) : state :=
  match activeTab st with
  | preview => updateIframe p st
  | code_tab => st
  end.

(** The component is mounted with props [p]. *)
Definition mount (p : props) : state :=
  effect p (commit (initial_state p)).

(** [setActiveTab(t)], the render and the effect that follow. *)
Definition setActiveTab (p : props) (t : tab) (st : state) : state :=
  effect p
    (commit {| activeTab := t; isFullscreen := isFullscreen st;
               copied := copied st; iframeRef := iframeRef st |}).

(** ** The copy button *)

(** The one callback the component hands to [setTimeout]:
    [() => setCopied(false)]. *)
Inductive callback : Type := reset_copied.

(** What the component uses of the browser: the clipboard, and the timers
    with the time (in ms) at which each is due. *)
Record browser : Type := {
  clock : N;
  clipboard : jsstring;
  timers : list (N * callback)
}.

Definition run_callback (c : callback) (st : state) : state :=
  match c with reset_copied => set_copied false st end.

(** [copyToClipboard]: [writeText(code)], [setCopied(true)], and a timer
    2000 ms ahead. *)
Definition copyToClipboard (p : props) (st : state) (b : browser)
    : state * browser :=
  (set_copied true st,
   {| clock := clock b;
      clipboard := code p;
      timers := timers b ++ [((clock b + 2000)%N, reset_copied)] |}).

(** The timers due at [now] run, in the order they were set; the others
    stay. *)
Fixpoint run_timers (now : N) (ts : list (N * callback)) (st : state)
    : state * list (N * callback) :=
  match ts with
  | [] => (st, [])
  | (due, c) :: ts' =>
      if (due <=? now)%N
      then run_timers now ts' (run_callback c st)
      else let (st', rest) := run_timers now ts' st in (st', (due, c) :: rest)
  end.

(** [dt] milliseconds pass. *)
Definition elapse (dt : N) (st : state) (b : browser) : state * browser :=
  let now := (clock b + dt)%N in
  let (st', rest) := run_timers now (timers b) st in
  (st', {| clock := now; clipboard := clipboard b; timers := rest |}).

End CodePreview.

(* ================================================================== *)
(** * The script of the runner template, inside the iframe *)
(* ================================================================== *)

Module Runner.

(** ** The script element of a document *)

(** ASCII lower case. *)
Definition lower (c : char16) : char16 :=
  if in_range 65%N 90%N c then (c + 32)%N else c.

(** What ends a tag name: tab, LF, FF, CR, space, [/] and [>]. *)
Definition ends_tag_name (c : char16) : bool :=
  ((c =? 9) || (c =? 10) || (c =? 12) || (c =? 13) || (c =? 32)
   || (c =? 47) || (c =? 62))%N.

(** An end tag of a script stands at the head of [s]; tag names are read
    without regard to case. *)
Definition end_tag_here (s : jsstring) : bool :=
  match strip_prefix (lit "</script") (map lower s) with
  | Some (d :: _) => ends_tag_name d
  | _ => false
  end.

(** The parser in script data: the text of the element runs to the first
    end tag of a script, and what follows starts with that tag.  A comment
    opener in the text changes what ends the element; such a text, and one
    that no end tag closes, is not described. *)
Fixpoint script_data (s : jsstring) : option (jsstring * jsstring) :=
  match s with
  | [] => None
  | c :: s' =>
      if end_tag_here s then Some ([], s)
      else if starts_with (lit "<!--") s then None
      else
        match script_data s' with
        | Some (text, rest) => Some (c :: text, rest)
        | None => None
        end
  end.

(** What follows the first occurrence of [p] in [s]. *)
Fixpoint after_first (p s : jsstring) : option jsstring :=
  match strip_prefix p s with
  | Some rest => Some rest
  | None =>
      match s with
      | [] => None
      | _ :: s' => after_first p s'
      end
  end.

(** The start of the tag of a script that Babel compiles. *)
Definition babel_tag : jsstring :=
  lit ("<script type=" ++ dq ++ "text/babel" ++ dq).

(** What follows the start tag of the first such script (no attribute of
    the runner's tags holds a [>]). *)
Definition babel_open (markup : jsstring) : option jsstring :=
  match after_first babel_tag markup with
  | Some s => after_first (lit ">") s
  | None => None
  end.

(** The text of that script element. *)
Definition babel_script (markup : jsstring) : option jsstring :=
  match babel_open markup with
  | Some s =>
      match script_data s with
      | Some (text, _) => Some text
      | None => None
      end
  | None => None
  end.

(** [s.endsWith(p)], returning what stands before the suffix. *)
Definition strip_suffix (p s : jsstring) : option jsstring :=
  match strip_prefix (rev p) (rev s) with
  | Some r => Some (rev r)
  | None => None
  end.

(** ** The script of the runner template *)

(** The script of the template before the place of [${cleanedCode}]: the
    hooks taken from [React], the icon helper, and the opening of the
    [try] block. *)
Definition script_head : jsstring :=
  Eval vm_compute in
    match babel_open CodePreview.template_head with
    | Some s => s
    | None => []
    end.

(** The script of the template after that place: the final render logic,
    the icon timer and the [catch] block. *)
Definition script_tail : jsstring :=
  Eval vm_compute in
    match script_data CodePreview.template_tail with
    | Some (text, _) => text
    | None => []
    end.

(** The end tag of the script, and the rest of the page. *)
Definition page_tail : jsstring :=
  Eval vm_compute in
    match script_data CodePreview.template_tail with
    | Some (_, rest) => rest
    | None => []
    end.

(** The statements a runner script holds in the place of
    [${cleanedCode}]. *)
Definition statements (text : jsstring) : option jsstring :=
  match strip_prefix script_head text with
  | Some s => strip_suffix script_tail s
  | None => None
  end.

(** ** What the statements of the source do *)

(** A thrown value as a [catch] block reads it: [null] or [undefined],
    on which reading a property throws again; or a value with the text of
    its [stack], when it has one, and of [toString()]. *)
Inductive thrown : Type :=
| nullish
| value (stack : option jsstring) (text : jsstring).

(** What rendering [<App />] leaves in the mount point: the markup React
    commits, or nothing when rendering throws, since React then removes
    the whole root. *)
Inductive rendering : Type :=
| renders (html : jsstring)
| render_fails.

(** How a call of [main()] ends, with what the mount point holds then. *)
Inductive call : Type :=
| returns (held : jsstring)
| call_throws (e : thrown) (held : jsstring).

(** How the statements of the source end, as far as the rest of the
    script can tell, when they leave the mount point in the document and
    the runtimes of the page as they found them.  They throw, or they run
    to their end; [held] is what the mount point holds then; [App] is
    undefined or gives something to render, [main] is undefined or gives
    something to call. *)
Inductive completion : Type :=
| throws (e : thrown) (held : jsstring)
| completes (held : jsstring) (App : option rendering) (main : option call).

(** The markup of the last [else] branch. *)
Definition no_entry_markup : jsstring :=
  lit ("<div style=" ++ dq ++ "padding: 20px; color: #ef4444;" ++ dq
       ++ ">Error: No <b>App</b> component found. Please define "
       ++ "<code>export default function App()</code>.</div>").

Definition error_markup_head : list string :=
  [ "";
    "                  <div style=" ++ dq ++ "color: #ef4444; background: #fee2e2; padding: 1.5rem; border: 1px solid #fecaca; border-radius: 0.5rem; font-family: ui-monospace, SFMono-Regular, Menlo, Monaco, Consolas, monospace; margin: 1rem;" ++ dq ++ ">";
    "                    <h3 style=" ++ dq ++ "margin-top: 0; color: #991b1b; font-size: 1.125rem;" ++ dq ++ ">Runtime Error</h3>";
    "                    <pre style=" ++ dq ++ "white-space: pre-wrap; margin: 0; font-size: 0.875rem; line-height: 1.5;" ++ dq ++ ">" ]%string.

Definition error_markup_tail : list string :=
  [ "</pre>";
    "                  </div>";
    "                " ]%string.

(** The markup of the [catch] block around [err.stack || err.toString()]. *)
Definition error_markup (err : jsstring) : jsstring :=
  lit (String.concat nl error_markup_head) ++ err
  ++ lit (String.concat nl error_markup_tail).

(** [err.stack || err.toString()] *)
Definition stack_or_text (stack : option jsstring) (text : jsstring)
    : jsstring :=
  match stack with
  | Some (c :: s) => c :: s
  | _ => text
  end.

(** The [catch] block: for [null] and [undefined] it throws before it
    writes, and the mount point keeps what it holds. *)
Definition caught (e : thrown) (held : jsstring) : jsstring :=
  match e with
  | nullish => held
  | value stack text => error_markup (stack_or_text stack text)
  end.

(** [root.render(...)]: React renders after the script has ended, out of
    reach of its [catch] block. *)
Definition rendered (r : rendering) : jsstring :=
  match r with
  | renders html => html
  | render_fails => []
  end.

(** What the mount point [<div id="root">] holds when the [try] block
    after the statements of the source, or the [catch] block, has run. *)
Definition run (c : completion) : jsstring :=
  match c with
  | throws e held => caught e held
  | completes _ (Some r) _ => rendered r
  | completes _ None (Some (returns held)) => held
  | completes _ None (Some (call_throws e held)) => caught e held
  | completes _ None None => no_entry_markup
  end.

(** ** The frame *)

(** What the mount point of the frame holds once a document of the runner
    is loaded, the runtimes of its head with it.  [babel] tells whether Babel compiles the text of the
    script with the presets of its tag; a text it refuses is not run, and
    the mount point stays the empty [div] of the template.  [engine] tells
    how the statements of the source end.  Documents that do not hold a
    runner script are not described. *)
Definition shows (babel : jsstring -> bool) (engine : jsstring -> completion)
    (markup : jsstring) : option jsstring :=
  match babel_script markup with
  | Some text =>
      match statements text with
      | Some source =>
          Some (if babel text then run (engine source) else [])
      | None => None
      end
  | None => None
  end.

(** The same, for the document the preview iframe holds. *)
Definition presented (babel : jsstring -> bool)
    (engine : jsstring -> completion) (st : CodePreview.state)
    : option jsstring :=
  match CodePreview.loaded st with
  | Some markup => shows babel engine markup
  | None => None
  end.

(** The text of a markup: what stands outside its tags. *)
Fixpoint text_of (in_tag : bool) (html : jsstring) : jsstring :=
  match html with
  | [] => []
  | c :: html' =>
      if in_tag then text_of (negb (c =? 62)%N) html'
      else if (c =? 60)%N then text_of true html'
      else c :: text_of false html'
  end.

(** The markup puts some text on screen. *)
Definition visible (html : jsstring) : bool :=
  existsb (fun c => negb (is_space c)) (text_of false html).

(** The source holds nothing that ends the script element early or that
    the parser reads as a comment opener. *)
Definition plain (source : jsstring) : bool :=
  negb (occurs (lit "<!--") source)
  && negb (occurs (lit "</script") (map lower source)).

(** An engine of which one thing is known: the statements [source] end
    as [c]. *)
Definition only (source : jsstring) (c : completion)
    : jsstring -> completion :=
  fun s =>
    if jseq s source then c
    else throws (value None (lit "SyntaxError: Unexpected token")) [].

End Runner.

(* ================================================================== *)
(** * The earlier version of the preview component *)
(* ================================================================== *)

(** The repository also holds an earlier [CodePreview]: same props, state,
    initial tab, copy button and [open/write/close], but no import
    stripping, and a shorter runner whose script is computed inside the
    template. *)
Module Earlier.

(** The runner template up to the place of the interpolated script. *)
Definition template_head_lines : list string :=
  [ "";
    "        <!DOCTYPE html>";
    "        <html>";
    "          <head>";
    "            <meta charset=" ++ dq ++ "UTF-8" ++ dq ++ " />";
    "            <script src=" ++ dq ++ "https://unpkg.com/@babel/standalone/babel.min.js" ++ dq ++ "></script>";
    "            <script src=" ++ dq ++ "https://unpkg.com/react@18/umd/react.development.js" ++ dq ++ "></script>";
    "            <script src=" ++ dq ++ "https://unpkg.com/react-dom@18/umd/react-dom.development.js" ++ dq ++ "></script>";
    "            <script src=" ++ dq ++ "https://cdn.tailwindcss.com" ++ dq ++ "></script>";
    "            <style>";
    "              body { margin: 0; font-family: -apple-system, BlinkMacSystemFont, " ++ dq ++ "Segoe UI" ++ dq ++ ", Roboto, Helvetica, Arial, sans-serif; }";
    "              #root { padding: 20px; }";
    "            </style>";
    "          </head>";
    "          <body>";
    "            <div id=" ++ dq ++ "root" ++ dq ++ "></div>";
    "            <script type=" ++ dq ++ "text/babel" ++ dq ++ ">";
    "              const { useState, useEffect, useMemo, useCallback, useRef } = React;";
    "              ";
    "              try {";
    "                " ]%string.

(** The runner template after it. *)
Definition template_tail_lines : list string :=
  [ "";
    "              } catch (err) {";
    "                document.getElementById('root').innerHTML = '<pre style=" ++ dq ++ "color: red" ++ dq ++ ">' + err.toString() + '</pre>';";
    "              }";
    "            </script>";
    "          </body>";
    "        </html>";
    "      " ]%string.

Definition template_head : jsstring :=
  lit (String.concat nl template_head_lines).

Definition template_tail : jsstring :=
  lit (String.concat nl template_tail_lines).

Definition render_call : jsstring :=
  lit (nl ++ " ReactDOM.createRoot(document.getElementById('root')).render(<App />);").

Definition entry_dispatch : jsstring :=
  lit (nl ++ " if (typeof App !== 'undefined') { ReactDOM.createRoot(document.getElementById('root')).render(<App />); } else if (typeof main !== 'undefined') { main(); }").

(** The interpolated expression: with an [export default] in the source,
    two of the replacements and an unconditional render of [App]; without,
    the source and the dispatch on [App] and [main]. *)
Definition script (code : jsstring) : jsstring :=
  if occurs (lit "export default") code
  then replace_first CodePreview.export_default_re (lit "const App = ")
         (replace_first CodePreview.export_default_function_re
            (lit "function $1") code)
       ++ render_call
  else code ++ entry_dispatch.

Definition content (code language : jsstring) : jsstring :=
  if jseq language (lit "html") then code
  else if jseq language (lit "jsx") || jseq language (lit "tsx")
          || jseq language (lit "javascript")
          || jseq language (lit "typescript")
  then template_head ++ script code ++ template_tail
  else [].

(** The markup of the [catch] block around [err.toString()]. *)
Definition error_markup (err : jsstring) : jsstring :=
  lit ("<pre style=" ++ dq ++ "color: red" ++ dq ++ ">") ++ err
  ++ lit "</pre>".

(** The script of the template before and after the interpolated
    script. *)
Definition script_head : jsstring :=
  Eval vm_compute in
    match Runner.babel_open template_head with
    | Some s => s
    | None => []
    end.

Definition script_tail : jsstring :=
  Eval vm_compute in
    match Runner.script_data template_tail with
    | Some (text, _) => text
    | None => []
    end.

(** How the interpolated script ends: with the unconditional render of
    [App], or with the dispatch on [App] and [main]. *)
Inductive ending : Type := renders_App | dispatches.

(** The statements of the source in a runner script, and how the script
    goes on after them. *)
Definition statements (text : jsstring) : option (jsstring * ending) :=
  match strip_prefix script_head text with
  | Some s =>
      match Runner.strip_suffix script_tail s with
      | Some body =>
          match Runner.strip_suffix entry_dispatch body with
          | Some source => Some (source, dispatches)
          | None =>
              match Runner.strip_suffix render_call body with
              | Some source => Some (source, renders_App)
              | None => None
              end
          end
      | None => None
      end
  | None => None
  end.

(** The [catch] block, which reads [err.toString()]. *)
Definition caught (e : Runner.thrown) (held : jsstring) : jsstring :=
  match e with
  | Runner.nullish => held
  | Runner.value _ text => error_markup text
  end.

(** The script at run time.  [reference_error] is the text of the error
    the engine raises when [<App />] is evaluated with [App] undefined.
    The dispatch has no last [else]: with neither [App] nor [main] the
    mount point keeps what it holds. *)
Definition run (reference_error : jsstring) (e : ending)
    (c : Runner.completion) : jsstring :=
  match c with
  | Runner.throws err held => caught err held
  | Runner.completes _ (Some r) _ => Runner.rendered r
  | Runner.completes held None main =>
      match e with
      | renders_App => error_markup reference_error
      | dispatches =>
          match main with
          | Some (Runner.returns held') => held'
          | Some (Runner.call_throws err held') => caught err held'
          | None => held
          end
      end
  end.

(** What the mount point of the frame holds once a document of this
    runner is loaded. *)
Definition shows (babel : jsstring -> bool)
    (engine : jsstring -> Runner.completion) (reference_error : jsstring)
    (markup : jsstring) : option jsstring :=
  match Runner.babel_script markup with
  | Some text =>
      match statements text with
      | Some (source, e) =>
          Some (if babel text then run reference_error e (engine source)
                else [])
      | None => None
      end
  | None => None
  end.

End Earlier.

(* ================================================================== *)
(** * The chat component ([Chat]) *)
(* ================================================================== *)

Module Chat.

Record attachment : Type := {
  url : jsstring;
  mimeType : jsstring;
  data : jsstring
}.

Inductive role : Type := user | assistant.

Inductive kind : Type := text | image.

Record Message : Type := {
  id : jsstring;
  sender : role;
  content : jsstring;
  type : kind;
  imageUrl : option jsstring;
  attachments : option (list attachment)
}.

Record state : Type := {
  messages : list Message;
  input : jsstring;
  isLoading : bool;
  isListening : bool;
  isMicInitializing : bool;
  speakingMessageId : option jsstring;
  isGeneratingSpeech : option jsstring;
  selectedImage : option attachment
}.

(** The languages the markdown renderer hands to [CodePreview]. *)
Definition isPreviewable (language : jsstring) : bool :=
  includes [ lit "html"; lit "jsx"; lit "tsx"; lit "javascript";
             lit "typescript" ] language.

(** What [fetch] is asked. *)
Inductive request : Type :=
| generate_image (prompt : jsstring)
| chat (history : list (role * jsstring * option (list attachment))).

(** What comes back: the fields the component reads from the JSON of the
    reply ([imageUrl] stands for [data.imageUrl || data.url || ...] after an
    image request), or the message of the error the [try] block ends
    with. *)
Inductive reply : Type :=
| json (content : jsstring) (type : option kind) (imageUrl : option jsstring)
| failure (message : jsstring).

(** [n.toString()] for a number that is a natural. *)
Definition toString (n : N) : jsstring :=
  lit (DecimalString.NilEmpty.string_of_uint (N.to_uint n)).

Definition set_messages (ms : list Message) (st : state) : state :=
  {| messages := ms; input := input st; isLoading := isLoading st;
     isListening := isListening st;
     isMicInitializing := isMicInitializing st;
     speakingMessageId := speakingMessageId st;
     isGeneratingSpeech := isGeneratingSpeech st;
     selectedImage := selectedImage st |}.

Definition set_input (s : jsstring) (st : state) : state :=
  {| messages := messages st; input := s; isLoading := isLoading st;
     isListening := isListening st;
     isMicInitializing := isMicInitializing st;
     speakingMessageId := speakingMessageId st;
     isGeneratingSpeech := isGeneratingSpeech st;
     selectedImage := selectedImage st |}.

Definition set_isLoading (b : bool) (st : state) : state :=
  {| messages := messages st; input := input st; isLoading := b;
     isListening := isListening st;
     isMicInitializing := isMicInitializing st;
     speakingMessageId := speakingMessageId st;
     isGeneratingSpeech := isGeneratingSpeech st;
     selectedImage := selectedImage st |}.

Definition set_selectedImage (a : option attachment) (st : state) : state :=
  {| messages := messages st; input := input st; isLoading := isLoading st;
     isListening := isListening st;
     isMicInitializing := isMicInitializing st;
     speakingMessageId := speakingMessageId st;
     isGeneratingSpeech := isGeneratingSpeech st;
     selectedImage := a |}.

(** [!s] for a string. *)
Definition falsy (s : jsstring) : bool :=
  match s with [] => true | _ => false end.

(** [overrideInput || input] *)
Definition messageInput (overrideInput : option jsstring) (input : jsstring)
    : jsstring :=
  match overrideInput with
  | Some o => if falsy o then input else o
  | None => input
  end.

(** [(!messageInput.trim() && !selectedImage) || isLoading] *)
Definition rejected (entered : jsstring) (st : state) : bool :=
  (falsy (trim entered)
   && match selectedImage st with None => true | Some _ => false end)
  || isLoading st.

Section Submit.

(** [String.prototype.toLowerCase], the server behind [fetch], and the
    value of [Date.now()] during the call. *)
Variable toLowerCase : jsstring -> jsstring.
Variable server : request -> reply.
Variable now : N.

Definition userMessage (entered : jsstring) (st : state) : Message :=
  {| id := toString now; sender := user; content := entered; type := text;
     imageUrl := None;
     attachments := match selectedImage st with
                    | Some a => Some [a]
                    | None => None
                    end |}.

Definition is_image_command (entered : jsstring) : bool :=
  starts_with (lit "/image ") (toLowerCase entered).

(** The request the [try] block sends. *)
Definition request_of (isImage : bool) (entered : jsstring) (st : state)
    : request :=
  if isImage || is_image_command entered
  then generate_image
         (if is_image_command entered then skipn 7 entered else entered)
  else chat (List.map (fun msg => (sender msg, content msg, attachments msg))
               (messages st ++ [userMessage entered st])).

(** The message appended when the reply is in, or the error caught. *)
Definition answer (req : request) (r : reply) : Message :=
  let mk c t u :=
    {| id := toString (now + 1); sender := assistant; content := c;
       type := t; imageUrl := u; attachments := None |} in
  match r with
  | failure msg => mk (lit "Error: " ++ msg) text None
  | json c t u =>
      match req with
      | generate_image prompt =>
          mk (lit "Generated image for: " ++ prompt) image u
      | chat _ => mk c (match t with Some k => k | None => text end) u
      end
  end.

(** The statements after the guard, up to the end of [finally].
    [keep_input] is [true] when an override was given. *)
Definition submit (keep_input isImage : bool) (entered : jsstring)
    (st : state) : state :=
  let req := request_of isImage entered st in
  let st1 := set_messages (messages st ++ [userMessage entered st]) st in
  let st2 := if keep_input then st1 else set_input [] st1 in
  let st3 := set_isLoading true (set_selectedImage None st2) in
  let st4 := set_messages (messages st3 ++ [answer req (server req)]) st3 in
  set_isLoading false st4.

(** [handleSubmit(e, isImage, overrideInput)] of the chat with the debug
    callback. *)
Definition handleSubmit (isImage : bool) (overrideInput : option jsstring)
    (st : state) : state :=
  let entered := messageInput overrideInput (input st) in
  if rejected entered st then st
  else submit (negb (match overrideInput with
                     | Some o => falsy o
                     | None => true
                     end)) isImage entered st.

(** [handleSubmit(e, isImage)] of the chat without it. *)
Definition handleSubmit_basic (isImage : bool) (st : state) : state :=
  if rejected (input st) st then st
  else submit false isImage (input st) st.

End Submit.

End Chat.

(* ================================================================== *)
(** * The vocabulary of the specification *)
(* ================================================================== *)

Module Spec.

(** A plain declaration [function <name>] stands at the head of [s]: the
    keyword, white space, the name, and no word character after it. *)
Definition declares_here (name s : jsstring) : bool :=
  match strip_prefix (lit "function") s with
  | Some (c :: s1) =>
      is_space c &&
      match strip_prefix name (drop_while is_space s1) with
      | Some [] => true
      | Some (d :: _) => negb (is_word d)
      | None => false
      end
  | _ => false
  end.

(** The text [s] holds a plain declaration of a function named [name]. *)
Fixpoint declares_function (name s : jsstring) : bool :=
  declares_here name s ||
  match s with
  | [] => false
  | _ :: s' => declares_function name s'
  end.

(** Every character of [s] is in the class [p]. *)
Definition all_in (p : char16 -> bool) (s : jsstring) : bool := forallb p s.

(** A run of one or more white-space characters. *)
Definition blanks (s : jsstring) : bool :=
  negb (Nat.eqb (length s) 0) && all_in is_space s.

(** One or more word characters. *)
Definition identifier (s : jsstring) : bool :=
  negb (Nat.eqb (length s) 0) && all_in is_word s.

(** [s] does not go on with a character of the class [p]. *)
Definition stops (p : char16 -> bool) (s : jsstring) : bool :=
  match s with
  | [] => true
  | c :: _ => negb (p c)
  end.

(** [export default function <name><rest>], with any white space between
    the words. *)
Definition default_function_source (ws1 ws2 ws3 name rest : jsstring)
    : jsstring :=
  lit "export" ++ ws1 ++ lit "default" ++ ws2 ++ lit "function" ++ ws3
  ++ name ++ rest.

(** The four script languages of the renderer. *)
Definition script_language (language : jsstring) : bool :=
  jseq language (lit "jsx") || jseq language (lit "tsx")
  || jseq language (lit "javascript") || jseq language (lit "typescript").

(** An iframe is mounted and its document can be reached. *)
Definition mounted (st : CodePreview.state) : bool :=
  match CodePreview.loaded st with Some _ => true | None => false end.

End Spec.

(* ================================================================== *)
(** * Shapes of source text *)
(* ================================================================== *)

Module Shapes.

(** [export default <rest>], with any white space after the two words. *)
Definition default_expression_source (ws1 ws2 rest : jsstring) : jsstring :=
  lit "export" ++ ws1 ++ lit "default" ++ ws2 ++ rest.

(** [export <rest>]. *)
Definition named_export_source (ws rest : jsstring) : jsstring :=
  lit "export" ++ ws ++ rest.

(** [import <bindings>from '<module>'], with a semicolon or not. *)
Definition import_statement (ws1 bindings ws2 : jsstring) (q1 : char16)
    (module : jsstring) (q2 : char16) (semicolon : bool) : jsstring :=
  lit "import" ++ ws1 ++ bindings ++ lit "from" ++ ws2 ++ q1 :: module
  ++ q2 :: (if semicolon then [59%N] else []).

(** No character of [s] is in the class [p]. *)
Definition none_in (p : char16 -> bool) (s : jsstring) : bool :=
  forallb (fun c => negb (p c)) s.

(** [t] is empty, or its last character is outside the class [p]. *)
Fixpoint ends_outside (p : char16 -> bool) (t : jsstring) : bool :=
  match t with
  | [] => true
  | c :: t' =>
      match t' with
      | [] => negb (p c)
      | _ :: _ => ends_outside p t'
      end
  end.

(** The keyword [export] stands at the head of [s]: the word, and no
    word character after it. *)
Definition keyword_here (s : jsstring) : bool :=
  match strip_prefix (lit "export") s with
  | Some rest => Spec.stops is_word rest
  | None => false
  end.

(** The keyword stands somewhere in [s]; where it does not, [export] is
    written in [s] only as the beginning of a longer word. *)
Fixpoint keyword_in (s : jsstring) : bool :=
  keyword_here s ||
  match s with
  | [] => false
  | _ :: s' => keyword_in s'
  end.

(** Texts with named exports between them: each [(t, ws)] of [pieces]
    stands for the text [t], the keyword [export] and the white space
    [ws] after it; [last] follows the last keyword. *)
Fixpoint with_exports (pieces : list (jsstring * jsstring))
    (last : jsstring) : jsstring :=
  match pieces with
  | [] => last
  | (t, ws) :: more => t ++ named_export_source ws (with_exports more last)
  end.

(** The same texts, without the keywords and the white space after
    them. *)
Fixpoint without_exports (pieces : list (jsstring * jsstring))
    (last : jsstring) : jsstring :=
  match pieces with
  | [] => last
  | (t, _) :: more => t ++ without_exports more last
  end.

(** In [with_exports pieces last] the keywords are named exports, and the
    only keywords before [last]: no [t] holds the keyword; each keyword
    stands at the start of the text or after a character that is not a
    word character; [ws] is all the white space after it; and what
    follows does not begin with [default]. *)
Fixpoint named_exports (pieces : list (jsstring * jsstring))
    (last : jsstring) : bool :=
  match pieces with
  | [] => true
  | (t, ws) :: more =>
      negb (keyword_in t) && ends_outside is_word t
      && Spec.blanks ws
      && Spec.stops is_space (with_exports more last)
      && negb (starts_with (lit "default") (with_exports more last))
      && named_exports more last
  end.

End Shapes.

(* ================================================================== *)
(** * The life of a preview component *)
(* ================================================================== *)

Module PreviewEvents.

Import CodePreview.

(** What can happen to a mounted component: its buttons, the passing of
    time, and a render with new props. *)
Inductive event : Type :=
| click_preview
| click_code
| click_reload
| click_copy
| click_fullscreen
| wait (dt : N)
| receive (p : props).

(** [setIsFullscreen(!isFullscreen)] *)
Definition toggle_fullscreen (st : state) : state :=
  {| activeTab := activeTab st; isFullscreen := negb (isFullscreen st);
     copied := copied st; iframeRef := iframeRef st |}.

(** The component with its props and the browser around it. *)
Definition world : Type := (props * state * browser)%type.

(** A render with new props: the effect runs again when [code] or
    [language] changed (the dependencies of [updateIframe]). *)
Definition rerender (p p' : props) (st : state) : state :=
  if jseq (code p) (code p') && jseq (language p) (language p')
  then commit st
  else effect p' (commit st).

Definition step (e : event) (w : world) : world :=
  let '(p, st, b) := w in
  match e with
  | click_preview => (p, setActiveTab p preview st, b)
  | click_code => (p, setActiveTab p code_tab st, b)
  | click_reload => (p, updateIframe p st, b)
  | click_copy =>
      let (st', b') := copyToClipboard p st b in (p, commit st', b')
  | click_fullscreen => (p, commit (toggle_fullscreen st), b)
  | wait dt => let (st', b') := elapse dt st b in (p, commit st', b')
  | receive p' => (p', rerender p p' st, b)
  end.

Definition run (es : list event) (w : world) : world :=
  fold_left (fun w e => step e w) es w.

(** The component just mounted. *)
Definition start (p : props) (b : browser) : world := (p, mount p, b).

(** What is on screen agrees with the props: on the preview tab the
    iframe holds the document composed from them, on the code tab there
    is no iframe. *)
Definition in_sync (w : world) : Prop :=
  let '(p, st, _) := w in
  match activeTab st with
  | preview => loaded st = Some (content (code p) (language p))
  | code_tab => iframeRef st = None
  end.

(** An acknowledgment on screen has its reset pending, due within two
    seconds. *)
Definition acknowledged (w : world) : Prop :=
  let '(_, st, b) := w in
  copied st = true ->
  exists due, In (due, reset_copied) (timers b) /\ (due <= clock b + 2000)%N.

End PreviewEvents.

(* ================================================================== *)
(** * The sandbox of the preview iframe *)
(* ================================================================== *)

Module Sandbox.

Import CodePreview.

(** ** What the attribute grants *)

(** A keyword of the [sandbox] attribute lifts one restriction; what the
    attribute does not name stays restricted. *)
Definition allows (keyword : jsstring) (attribute : list jsstring) : bool :=
  includes attribute keyword.

Inductive origin : Type := host_origin | opaque_origin.

(** The iframe has no [src]: its document is the one the host writes, and
    it has the origin of the host page, unless the attribute leaves the
    origin sandboxed; then it has an opaque origin, the same as no
    other. *)
Definition origin_of (attribute : list jsstring) : origin :=
  if allows (lit "allow-same-origin") attribute
  then host_origin else opaque_origin.

(** [iframeRef.current.contentWindow?.document], as the host reads it: the
    document of a frame of its own origin; for a frame of another origin
    the access is refused. *)
Definition contentDocument (fr : iframe) : option document :=
  match origin_of (sandbox fr), contentWindow fr with
  | host_origin, Some w => Some (doc w)
  | _, _ => None
  end.

(** ** What a script in the frame can do to the host *)

(** The host page, as far as a frame could reach it: the storage of its
    origin, and the markup of its own document. *)
Record page : Type := {
  localStorage : list (jsstring * jsstring);
  body : jsstring
}.

(** What a script tries. *)
Inductive access : Type :=
| getItem (key : jsstring)          (* localStorage.getItem(key) *)
| setItem (key item : jsstring)     (* localStorage.setItem(key, item) *)
| read_parent                       (* parent.document.body.innerHTML *)
| write_parent (html : jsstring).   (* parent.document.body.innerHTML = html *)

(** What it gets: a [SecurityError], or the value read ([null] for a key
    that is not stored, nothing for a write). *)
Inductive answer : Type :=
| security_error
| result (v : option jsstring).

Definition lookup (key : jsstring) (items : list (jsstring * jsstring))
    : option jsstring :=
  match find (fun kv => jseq (fst kv) key) items with
  | Some kv => Some (snd kv)
  | None => None
  end.

Definition store (key item : jsstring) (items : list (jsstring * jsstring))
    : list (jsstring * jsstring) :=
  (key, item) :: filter (fun kv => negb (jseq (fst kv) key)) items.

(** One access, under the origin of the frame's document. *)
Definition perform (o : origin) (a : access) (h : page) : page * answer :=
  match o with
  | opaque_origin => (h, security_error)
  | host_origin =>
      match a with
      | getItem key => (h, result (lookup key (localStorage h)))
      | setItem key item =>
          ({| localStorage := store key item (localStorage h);
              body := body h |}, result None)
      | read_parent => (h, result (Some (body h)))
      | write_parent html =>
          ({| localStorage := localStorage h; body := html |}, result None)
      end
  end.

(** The accesses of a script, one after the other (each in a [try] block
    of its own). *)
Fixpoint run_script (o : origin) (script : list access) (h : page)
    : page * list answer :=
  match script with
  | [] => (h, [])
  | a :: script' =>
      let (h1, r) := perform o a h in
      let (h2, rs) := run_script o script' h1 in
      (h2, r :: rs)
  end.

(** A script of the frame runs only when the attribute allows scripts. *)
Definition framed (attribute : list jsstring) (script : list access)
    (h : page) : page * list answer :=
  if allows (lit "allow-scripts") attribute
  then run_script (origin_of attribute) script h
  else (h, []).

(** ** What the host has of the frame *)

(** A component when the markup in its iframe is set aside. *)
Definition without_markup (st : state) : state :=
  match iframeRef st with
  | Some fr =>
      set_iframeRef
        (Some {| sandbox := sandbox fr;
                 contentWindow :=
                   match contentWindow fr with
                   | Some _ =>
                       Some {| doc := {| markup := []; writable := false |} |}
                   | None => None
                   end |}) st
  | None => st
  end.

(** The same for a component with its props and the browser around it. *)
Definition host_view (w : PreviewEvents.world) : PreviewEvents.world :=
  let '(p, st, b) := w in (p, without_markup st, b).

(** The frame's own script has changed the document it holds. *)
Definition rewritten (html : jsstring) (st : state) : state :=
  match iframeRef st with
  | Some fr =>
      set_iframeRef
        (Some {| sandbox := sandbox fr;
                 contentWindow :=
                   match contentWindow fr with
                   | Some w =>
                       Some {| doc := {| markup := html;
                                         writable := writable (doc w) |} |}
                   | None => None
                   end |}) st
  | None => st
  end.

(** The iframe of a component carries the attribute the component gives
    it. *)
Definition own_frame (st : state) : Prop :=
  forall fr, iframeRef st = Some fr -> sandbox fr = sandbox_attribute.

End Sandbox.

(* ================================================================== *)
(** * The code blocks of a chat message *)
(* ================================================================== *)

Module CodeBlock.

(** [r.exec(s)]: the leftmost match. *)
Fixpoint exec (r : regex) (s : jsstring) : option mstate :=
  match match_here r s with
  | Some x => Some x
  | None =>
      match s with
      | [] => None
      | _ :: s' => exec r s'
      end
  end.

(** A match of [r$] anchored at the head of [s]: [r], then the end of the
    input. *)
Definition match_here_to_end (r : regex) (s : jsstring) : option mstate :=
  m r s [] (fun s' cs' =>
              match s' with
              | [] => Some (s', cs')
              | _ :: _ => None
              end).

(** [s.replace(/r$/, tpl)] *)
Fixpoint replace_first_to_end (r : regex) (tpl : jsstring) (s : jsstring)
    : jsstring :=
  match match_here_to_end r s with
  | Some (rest, cs) =>
      substitute (ngroups r) tpl (firstn (length s - length rest) s) cs ++ rest
  | None =>
      match s with
      | [] => []
      | c :: s' => c :: replace_first_to_end r tpl s'
      end
  end.

(** [/language-(\w+)/] *)
Definition language_re : regex :=
  chars (lit "language-") (Group 1 (Plus true (Cls is_word))).

(** [match ? match[1] : ""] for [match = language_re.exec(className || "")] *)
Definition language_of (className : option jsstring) : jsstring :=
  match exec language_re (match className with Some c => c | None => [] end)
  with
  | Some (_, cs) => match capture 1 cs with Some l => l | None => [] end
  | None => []
  end.

(** [String(children).replace(/\n$/, "")] *)
Definition code_of (children : jsstring) : jsstring :=
  replace_first_to_end (Chr 10%N) (lit "") children.

(** What the [code] component of the markdown renderer returns. *)
Inductive rendering : Type :=
| live_preview (p : CodePreview.props)
| highlighted (language code : jsstring)
| plain_code (className : option jsstring) (children : jsstring).

Section Render.

(** [String.prototype.toUpperCase] *)
Variable toUpperCase : jsstring -> jsstring.

Definition code (inline : bool) (className : option jsstring)
    (children : jsstring) : rendering :=
  let language := language_of className in
  if negb inline && Chat.isPreviewable language
  then live_preview
         {| CodePreview.code := code_of children;
            CodePreview.language := language;
            CodePreview.title := toUpperCase language ++ lit " Artifact" |}
  else if negb inline && negb (Chat.falsy language)
  then highlighted language (code_of children)
  else plain_code className children.

End Render.

End CodeBlock.

(* ================================================================== *)
(** * More of the chat component *)
(* ================================================================== *)

Module ChatEvents.

Import Chat.

(** The prompt [handleDebug] builds around the error text. *)
Definition debugPrompt (error : jsstring) : jsstring :=
  lit ("I'm getting a runtime error in the code you provided:" ++ nl ++ nl
       ++ "```" ++ nl)
  ++ error
  ++ lit (nl ++ "```" ++ nl ++ nl
          ++ "Please fix the code and provide the corrected version.").

(** [s.split(c)] for a separator of one character. *)
Fixpoint split (c : char16) (s : jsstring) : list jsstring :=
  match s with
  | [] => [[]]
  | x :: s' =>
      if (x =? c)%N then [] :: split c s'
      else
        match split c s' with
        | first :: others => (x :: first) :: others
        | [] => [[x]]
        end
  end.

(** A file of the file input: its MIME type, the URL
    [URL.createObjectURL] gives it, and what [readAsDataURL] reads. *)
Record file : Type := {
  file_type : jsstring;
  objectURL : jsstring;
  dataURL : jsstring
}.

(** How [handleImageSelect] ends. *)
Inductive selection : Type :=
| no_file
| not_an_image                       (* the alert *)
| selected (a : attachment)
| selected_without_data (url mimeType : jsstring).
                                     (* [split(",")[1]] is undefined *)

Definition handleImageSelect (files : list file) : selection :=
  match files with
  | [] => no_file
  | f :: _ =>
      if negb (starts_with (lit "image/") (file_type f)) then not_an_image
      else
        match nth_error (split 44%N (dataURL f)) 1 with
        | Some base64 =>
            selected {| url := objectURL f; mimeType := file_type f;
                        data := base64 |}
        | None => selected_without_data (objectURL f) (file_type f)
        end
  end.

Section Events.

Variable toLowerCase : jsstring -> jsstring.
Variable server : request -> reply.

(** [handleDebug(error)] *)
Definition handleDebug (now : N) (error : jsstring) (st : state) : state :=
  handleSubmit toLowerCase server now false (Some (debugPrompt error)) st.

(** What the user does, each with the value of [Date.now()] where the
    handler reads it. *)
Inductive event : Type :=
| type_text (s : jsstring)              (* the input's onChange *)
| pick (a : attachment)                 (* an image was selected *)
| unpick                                (* the X on the selected image *)
| send (now : N)                        (* the form's onSubmit *)
| image_button (now : N)                (* the Generate Image button *)
| debug (now : N) (error : jsstring).   (* the preview's debug callback *)

Definition step (e : event) (st : state) : state :=
  match e with
  | type_text s => set_input s st
  | pick a => set_selectedImage (Some a) st
  | unpick => set_selectedImage None st
  | send now => handleSubmit toLowerCase server now false None st
  | image_button now => handleSubmit toLowerCase server now true None st
  | debug now error => handleDebug now error st
  end.

Definition run (es : list event) (st : state) : state :=
  fold_left (fun st e => step e st) es st.

End Events.

(** The state of a chat just mounted. *)
Definition initial : state :=
  {| messages := []; input := []; isLoading := false; isListening := false;
     isMicInitializing := false; speakingMessageId := None;
     isGeneratingSpeech := None; selectedImage := None |}.

(** Each message of the user is followed by one of the assistant. *)
Fixpoint alternating (ms : list Message) : bool :=
  match ms with
  | [] => true
  | u :: rest =>
      match rest with
      | a :: rest' =>
          match sender u, sender a with
          | user, assistant => alternating rest'
          | _, _ => false
          end
      | [] => false
      end
  end.

End ChatEvents.

(* ================================================================== *)
(** * Reading a message aloud *)
(* ================================================================== *)

Module Speech.

Import Chat.

(** [[*#_~`]] *)
Definition is_marker (c : char16) : bool :=
  ((c =? 42) || (c =? 35) || (c =? 95) || (c =? 126) || (c =? 96))%N.

(** [[^$]] *)
Definition not_dollar (c : char16) : bool := negb (c =? 36)%N.

(** The pattern for a fenced code block: three backquotes, a lazy run of
    any characters, three backquotes; with the [g] flag. *)
Definition fence_re : regex :=
  chars (lit "```") (Seq (Star false (Cls is_any)) (chars (lit "```") Eps)).

(** [/[*#_~`]/g] *)
Definition marker_re : regex := Cls is_marker.

(** [/\$[^$]+\$/g] *)
Definition formula_re : regex :=
  Seq (Chr 36%N) (Seq (Plus true (Cls not_dollar)) (Chr 36%N)).

(** The three [replace] calls that compute [cleanText]. *)
Definition cleanText (text : jsstring) : jsstring :=
  replace_all formula_re (lit "formula")
    (replace_all marker_re (lit "")
      (replace_all fence_re (lit "Code block omitted.") text)).

(** An [Audio] element made from the decoded bytes. *)
Record audio : Type := {
  bytes : jsstring;
  audio_type : jsstring
}.

(** What can be heard: the audio element [audioRef] points to, and the
    utterances given to [window.speechSynthesis] ([None] in a browser
    without speech synthesis, where neither [speechSynthesis] nor
    [SpeechSynthesisUtterance] exists). *)
Record voices : Type := {
  audioRef : option audio;
  utterances : option (list jsstring)
}.

(** What [fetch] and [response.json()] give: an exception, or the fields
    the component reads. *)
Inductive fetched : Type :=
| fetch_failed (message : jsstring)
| fetched_data (error : option jsstring) (audioContent : option jsstring)
    (mimeType : jsstring).

Definition set_speakingMessageId (i : option jsstring) (st : state) : state :=
  {| messages := messages st; input := input st; isLoading := isLoading st;
     isListening := isListening st;
     isMicInitializing := isMicInitializing st;
     speakingMessageId := i;
     isGeneratingSpeech := isGeneratingSpeech st;
     selectedImage := selectedImage st |}.

Definition set_isGeneratingSpeech (i : option jsstring) (st : state) : state :=
  {| messages := messages st; input := input st; isLoading := isLoading st;
     isListening := isListening st;
     isMicInitializing := isMicInitializing st;
     speakingMessageId := speakingMessageId st;
     isGeneratingSpeech := i;
     selectedImage := selectedImage st |}.

(** [x === messageId] for a state that holds an id or [null]. *)
Definition is_id (x : option jsstring) (messageId : jsstring) : bool :=
  match x with Some i => jseq i messageId | None => false end.

(** [pause()] and forget the audio element; [cancel()] the utterances. *)
Definition silence (v : voices) : voices :=
  {| audioRef := None;
     utterances := match utterances v with
                   | Some _ => Some []
                   | None => None
                   end |}.

Definition truthy (x : option jsstring) : bool :=
  match x with Some s => negb (falsy s) | None => false end.

Section Speak.

(** The speech route behind [fetch], and [window.atob], which returns the
    decoded bytes or throws an error with a message. *)
Variable service : jsstring -> fetched.
Variable atob : jsstring -> jsstring + jsstring.

(** The browser voice: an utterance of the text, [setSpeakingMessageId]. *)
Definition utter (text messageId : jsstring) (st : state) (v : voices)
    (q : list jsstring) : state * voices :=
  (set_speakingMessageId (Some messageId) st,
   {| audioRef := audioRef v; utterances := Some (q ++ [text]) |}).

(** The [catch] block, for an error with message [message]. *)
Definition caught (message text messageId : jsstring) (st : state)
    (v : voices) : state * voices :=
  let st' := set_isGeneratingSpeech None st in
  match utterances v with
  | Some q =>
      if negb (jseq message (lit "GEMINI_MODALITY_UNSUPPORTED"))
      then utter text messageId st' v q
      else (st', v)
  | None => (st', v)
  end.

(** [speak(text, messageId)], run to the end of its [try] or [catch]. *)
Definition speak (text messageId : jsstring) (st : state) (v : voices)
    : state * voices :=
  if is_id (speakingMessageId st) messageId
     || is_id (isGeneratingSpeech st) messageId
  then (set_isGeneratingSpeech None (set_speakingMessageId None st),
        silence v)
  else
    let v1 := silence v in
    let st1 :=
      set_isGeneratingSpeech (Some messageId)
        (set_speakingMessageId None st) in
    match service (cleanText text) with
    | fetch_failed message => caught message text messageId st1 v1
    | fetched_data error audioContent mimeType =>
        if is_id error (lit "GEMINI_MODALITY_UNSUPPORTED") then
          match utterances v1 with
          | Some q =>
              let (st2, v2) := utter text messageId st1 v1 q in
              (set_isGeneratingSpeech None st2, v2)
          | None => (set_isGeneratingSpeech None st1, v1)
          end
        else if truthy error then
          caught (match error with Some e => e | None => [] end)
            text messageId st1 v1
        else
          match audioContent with
          | Some content =>
              if falsy content
              then caught (lit "No audio content received from Gemini")
                     text messageId st1 v1
              else
                match atob content with
                | inl decoded =>
                    (set_speakingMessageId (Some messageId)
                       (set_isGeneratingSpeech None st1),
                     {| audioRef := Some {| bytes := decoded;
                                            audio_type := mimeType |};
                        utterances := utterances v1 |})
                | inr message => caught message text messageId st1 v1
                end
          | None =>
              caught (lit "No audio content received from Gemini")
                text messageId st1 v1
          end
    end.

End Speak.

End Speech.

(* ================================================================== *)
(** * The chat route and the image route *)
(* ================================================================== *)

Module Api.

(** How a call into the SDK ends. *)
Inductive outcome (A : Type) : Type :=
| threw (message : jsstring)
| returned (a : A).

Arguments threw {A} message.
Arguments returned {A} a.

(** A response: the status and the JSON body. *)
Record http (B : Type) : Type := {
  status : N;
  json : B
}.

Arguments status {B} _.
Arguments json {B} _.

(** [!x] for a string that may be undefined. *)
Definition missing (x : option jsstring) : bool :=
  match x with Some s => Chat.falsy s | None => true end.

(** A message of the request body. *)
Record wire_message : Type := {
  role : jsstring;
  content : jsstring;
  attachments : option (list Chat.attachment)
}.

Inductive part : Type :=
| text_part (text : jsstring)
| inline_part (mimeType data : jsstring).

(** An entry of the history given to [startChat]. *)
Record turn : Type := {
  turn_role : jsstring;
  parts : list part
}.

(** The text, then one inline part for each attachment. *)
Definition parts_of (msg : wire_message) : list part :=
  text_part (content msg)
  :: match attachments msg with
     | Some l =>
         List.map (fun a => inline_part (Chat.mimeType a) (Chat.data a)) l
     | None => []
     end.

Definition turn_of (msg : wire_message) : turn :=
  {| turn_role := if jseq (role msg) (lit "user") then lit "user"
                  else lit "model";
     parts := parts_of msg |}.

(** [messages[messages.length - 1]] *)
Fixpoint last_of (l : list wire_message) : option wire_message :=
  match l with
  | [] => None
  | [x] => Some x
  | _ :: l' => last_of l'
  end.

(** The function call of a response, when it has one. *)
Record function_call : Type := {
  name : jsstring;
  prompt : jsstring;
  quality : option jsstring
}.

(** What the route reads of the response of the chat model:
    the first part with a function call, and [response.text()]. *)
Record response : Type := {
  call : option function_call;
  text : outcome jsstring
}.

Inductive chat_json : Type :=
| chat_error (error details : jsstring)
| chat_answer (content : jsstring) (type : Chat.kind)
    (imageUrl : option jsstring).

Inductive image_json : Type :=
| image_error (error : jsstring) (details : option jsstring)
| image_ok (imageUrl : jsstring).

Definition pro_model : jsstring := lit "gemini-3-pro-image-preview".

Definition flash_model : jsstring := lit "gemini-2.5-flash-image".

Definition key_missing : jsstring :=
  lit "GEMINI_API_KEY is not defined in environment variables. Check your .env.local file and restart your server.".

(** [data:<mimeType>;base64,<data>] *)
Definition data_url (mimeType data : jsstring) : jsstring :=
  lit "data:" ++ mimeType ++ lit ";base64," ++ data.

Section Routes.

(** The SDK: [startChat] (the message of the error it throws, if it
    does), [sendMessage] on the chat so started, [generateContent] of the
    image model of a given name (its first part's inline data, if any);
    and the message of the TypeError for a property read on undefined. *)
Variable startChat : list turn -> option jsstring.
Variable sendMessage : list turn -> list part -> outcome response.
Variable generateContent :
  jsstring -> jsstring -> outcome (option (jsstring * jsstring)).
Variable type_error : jsstring -> jsstring.

Definition gemini_error (message : jsstring) : http chat_json :=
  {| status := 500; json := chat_error (lit "Gemini Error") message |}.

(** The last statement of the [try] block. *)
Definition text_answer (r : response) : http chat_json :=
  match text r with
  | threw message => gemini_error message
  | returned t => {| status := 200; json := chat_answer t Chat.text None |}
  end.

(** The route after [sendMessage]. *)
Definition respond (r : response) : http chat_json :=
  match call r with
  | Some fc =>
      if jseq (name fc) (lit "generate_image") then
        let imageModelName :=
          if Speech.is_id (quality fc) (lit "high-fidelity")
          then pro_model else flash_model in
        match generateContent imageModelName (prompt fc) with
        | threw message => gemini_error message
        | returned (Some (mimeType, data)) =>
            {| status := 200;
               json :=
                 chat_answer
                   (lit "Created using "
                    ++ (if jseq imageModelName pro_model
                        then lit "Nano Banana Pro" else lit "Nano Banana")
                    ++ lit ": " ++ lit dq ++ prompt fc ++ lit dq)
                   Chat.image (Some (data_url mimeType data)) |}
        | returned None => text_answer r
        end
      else text_answer r
  | None => text_answer r
  end.

(** [POST] of the chat route, for an environment with or without the key
    and a body with or without [messages]. *)
Definition chat_POST (apiKey : option jsstring)
    (messages : option (list wire_message)) : http chat_json :=
  if missing apiKey then
    {| status := 500;
       json := chat_error (lit "Configuration Error") key_missing |}
  else
    match messages with
    | None => gemini_error (type_error (lit "slice"))
    | Some ms =>
        let history := List.map turn_of (removelast ms) in
        match startChat history with
        | Some message => gemini_error message
        | None =>
            match last_of ms with
            | None => gemini_error (type_error (lit "content"))
            | Some lastMessage =>
                match sendMessage history (parts_of lastMessage) with
                | threw message => gemini_error message
                | returned r => respond r
                end
            end
        end
    end.

(** [POST] of the image route; [pro] defaults to [true]. *)
Definition image_POST (apiKey prompt : option jsstring) (pro : option bool)
    : http image_json :=
  if missing apiKey then
    {| status := 500;
       json := image_error (lit "Configuration Error") (Some key_missing) |}
  else
    match prompt with
    | None =>
        {| status := 400; json := image_error (lit "Prompt is required") None |}
    | Some p =>
        if Chat.falsy p then
          {| status := 400;
             json := image_error (lit "Prompt is required") None |}
        else
          let modelName :=
            if match pro with Some b => b | None => true end
            then pro_model else flash_model in
          match generateContent modelName p with
          | threw message =>
              {| status := 500;
                 json := image_error (lit "Nano Banana Generation Failed")
                           (Some message) |}
          | returned (Some (mimeType, data)) =>
              {| status := 200; json := image_ok (data_url mimeType data) |}
          | returned None =>
              {| status := 500;
                 json := image_error
                           (lit "No image data returned from Nano Banana")
                           None |}
          end
    end.

(** [JSON.stringify] of the history [handleSubmit] sends. *)
Definition wire_of
    (history : list (Chat.role * jsstring * option (list Chat.attachment)))
    : list wire_message :=
  List.map
    (fun m =>
       {| role := match fst (fst m) with
                  | Chat.user => lit "user"
                  | Chat.assistant => lit "assistant"
                  end;
          content := snd (fst m);
          attachments := snd m |})
    history.

(** The two routes as [handleSubmit] sees them through [fetch]: a body
    with an [error] is thrown as an error with that text, any other body
    is read field by field. *)
Definition backend (apiKey : option jsstring) (req : Chat.request)
    : Chat.reply :=
  match req with
  | Chat.chat history =>
      match json (chat_POST apiKey (Some (wire_of history))) with
      | chat_error error _ => Chat.failure error
      | chat_answer c t u => Chat.json c (Some t) u
      end
  | Chat.generate_image p =>
      match json (image_POST apiKey (Some p) None) with
      | image_error error _ => Chat.failure error
      | image_ok u => Chat.json [] None (Some u)
      end
  end.

End Routes.

End Api.

(* ================================================================== *)
(** * The speech route: raw PCM audio wrapped as a WAV file *)
(* ================================================================== *)

Module Wav.

Import Api.

(** A number of the route: [NaN], an infinity, or a finite value.
    [parseInt] rounds what it reads to a double.  The sums, the products
    and the division by 8 of [createWavHeader] are kept exact: on the
    integers [parseInt] returns and on a buffer length they are the
    double's as long as they stay below 2^53, and every value beyond is
    outside the ranges the writes check. *)
Inductive number : Type :=
| NaN
| fin (q : QArith_base.Q)
| inf (negative : bool).

Definition of_Z (z : Z) : number := fin (QArith_base.inject_Z z).

Definition of_N (n : N) : number := of_Z (Z.of_N n).

Definition is_zero (q : QArith_base.Q) : bool :=
  (QArith_base.Qnum q =? 0)%Z.

Definition is_negative (q : QArith_base.Q) : bool :=
  (QArith_base.Qnum q <? 0)%Z.

Definition add (a b : number) : number :=
  match a, b with
  | NaN, _ => NaN
  | _, NaN => NaN
  | fin x, fin y => fin (QArith_base.Qplus x y)
  | fin _, inf s => inf s
  | inf s, fin _ => inf s
  | inf s, inf t => if Bool.eqb s t then inf s else NaN
  end.

Definition mul (a b : number) : number :=
  match a, b with
  | NaN, _ => NaN
  | _, NaN => NaN
  | fin x, fin y => fin (QArith_base.Qmult x y)
  | fin x, inf s => if is_zero x then NaN else inf (xorb (is_negative x) s)
  | inf s, fin y => if is_zero y then NaN else inf (xorb s (is_negative y))
  | inf s, inf t => inf (xorb s t)
  end.

(** [a / 8] *)
Definition eighth (a : number) : number :=
  match a with
  | NaN => NaN
  | fin x => fin (QArith_base.Qmult x (QArith_base.Qmake 1 8))
  | inf s => inf s
  end.

(** [a > b]; a comparison with [NaN] is false. *)
Definition gt (a b : number) : bool :=
  match a, b with
  | NaN, _ => false
  | _, NaN => false
  | fin x, fin y => negb (QArith_base.Qle_bool x y)
  | fin _, inf s => s
  | inf s, fin _ => negb s
  | inf s, inf t => negb s && t
  end.

Definition isNaN (a : number) : bool :=
  match a with NaN => true | _ => false end.

(** The operand of an arithmetic operator: [undefined] becomes [NaN]. *)
Definition to_number (x : option number) : number :=
  match x with Some a => a | None => NaN end.

(** What a typed array stores for a value between 0 and the largest value
    of the field, and what [>>>] computes with: the integer part; [NaN]
    and the infinities are stored as 0. *)
Definition integer_part (a : number) : N :=
  match a with
  | fin q => Z.to_N (Qround.Qfloor q)
  | _ => 0%N
  end.

(** The double nearest to a natural number: the number itself when it
    has at most 53 binary digits, else its 53 leading digits rounded to
    nearest, ties to the even one; [None] beyond the largest double. *)
Definition to_double (n : N) : option N :=
  if (N.size n <=? 53)%N then Some n
  else
    let shift := (N.size n - 53)%N in
    let q := N.shiftr n shift in
    let r := N.land n (N.ones shift) in
    let half := N.shiftl 1 (shift - 1) in
    let q' := if (half <? r)%N || ((r =? half)%N && N.odd q)
              then (q + 1)%N else q in
    let v := N.shiftl q' shift in
    if (N.size v <=? 1024)%N then Some v else None.

(** ** [parseInt(s, 10)] *)

Definition is_digit (c : char16) : bool := in_range 48%N 57%N c.

Fixpoint take_while (f : char16 -> bool) (s : jsstring) : jsstring :=
  match s with
  | [] => []
  | c :: s' => if f c then c :: take_while f s' else []
  end.

Definition decimal_value (digits : jsstring) : N :=
  fold_left (fun acc c => (10 * acc + (c - 48))%N) digits 0%N.

(** Leading white space is skipped, then an optional sign, then the
    longest run of decimal digits is read and its value rounded to a
    double; without a digit the result is [NaN].  [undefined] is read as
    the text [undefined], which has none. *)
Definition parseInt (x : option jsstring) : number :=
  match x with
  | None => NaN
  | Some s =>
      let s1 := drop_while is_space s in
      let (negative, s2) :=
        match s1 with
        | c :: r =>
            if (c =? 45)%N then (true, r)
            else if (c =? 43)%N then (false, r)
            else (false, s1)
        | [] => (false, s1)
        end in
      match take_while is_digit s2 with
      | [] => NaN
      | digits =>
          match to_double (decimal_value digits) with
          | Some v => of_Z (if negative then - Z.of_N v else Z.of_N v)
          | None => inf negative
          end
      end
  end.

(** ** [parseMimeType] *)

Record WavConversionOptions : Type := {
  numChannels : option number;
  sampleRate : option number;
  bitsPerSample : option number
}.

Definition set_bitsPerSample (bits : number) (o : WavConversionOptions)
    : WavConversionOptions :=
  {| numChannels := numChannels o; sampleRate := sampleRate o;
     bitsPerSample := Some bits |}.

Definition set_sampleRate (rate : number) (o : WavConversionOptions)
    : WavConversionOptions :=
  {| numChannels := numChannels o; sampleRate := Some rate;
     bitsPerSample := bitsPerSample o |}.

(** [param.split("=").map((s) => s.trim())] *)
Definition key_value (param : jsstring) : list jsstring :=
  List.map trim (ChatEvents.split 61%N param).

(** The first element of a destructured array; [split] gives at least
    one. *)
Definition key_of (param : jsstring) : jsstring := hd [] (key_value param).

(** The body of the loop over [params]. *)
Definition read_param (options : WavConversionOptions) (param : jsstring)
    : WavConversionOptions :=
  if jseq (key_of param) (lit "rate")
  then set_sampleRate (parseInt (nth_error (key_value param) 1)) options
  else options.

Definition parseMimeType (mimeType : jsstring) : WavConversionOptions :=
  let pieces := List.map trim (ChatEvents.split 59%N mimeType) in
  let fileType := hd [] pieces in
  let params := tl pieces in
  let format := nth_error (ChatEvents.split 47%N fileType) 1 in
  let options :=
    {| numChannels := Some (of_Z 1); sampleRate := None;
       bitsPerSample := None |} in
  let options :=
    match format with
    | Some f =>
        if negb (Chat.falsy f) && starts_with (lit "L") f then
          let bits := parseInt (Some (skipn 1 f)) in
          if negb (isNaN bits) then set_bitsPerSample bits options
          else options
        else options
    | None => options
    end in
  fold_left read_param params options.

(** ** Buffers *)

Definition buffer : Type := list N.

(** [Buffer.alloc(n)] *)
Definition alloc (n : nat) : buffer := repeat 0%N n.

(** The bytes [bs] stored from offset [offset] on; the writes of this
    file end inside the buffer. *)
Definition store (offset : nat) (bs : list N) (buf : buffer) : buffer :=
  firstn offset buf ++ bs ++ skipn (offset + length bs) buf.

(** [buf.write(s, offset)] for a text of ASCII characters: what does not
    fit is left out. *)
Definition write (s : jsstring) (offset : nat) (buf : buffer) : buffer :=
  store offset (firstn (length buf - offset) s) buf.

(** The [n] low bytes of [v], the lowest first: [buf[offset++] = value;
    value = value >>> 8], [n] times. *)
Fixpoint low_bytes (n : nat) (v : N) : list N :=
  match n with
  | O => []
  | S k => (v mod 256)%N :: low_bytes k (v / 256)%N
  end.

Definition bind {A B : Type} (x : outcome A) (f : A -> outcome B)
    : outcome B :=
  match x with
  | threw message => threw message
  | returned a => f a
  end.

Local Notation "'do' x <- e ; k" := (bind e (fun x => k))
  (at level 10, x name, e at level 100, k at level 200).

Section Node.

(** The messages of Node's errors: for a value outside the range of the
    field (the value, the largest value of the field), and for an offset
    outside the buffer. *)
Variable ERR_OUT_OF_RANGE : number -> Z -> jsstring.
Variable ERR_BUFFER_OUT_OF_BOUNDS : jsstring.

(** [Buffer.from(s, "base64")] and [buf.toString("base64")]. *)
Variable from_base64 : jsstring -> buffer.
Variable to_base64 : buffer -> jsstring.

(** [writeUInt16LE] and [writeUInt32LE]: the value is checked against the
    range of the field, then the offset against the buffer. *)
Definition writeUIntLE (n : nat) (max : Z) (value : number) (offset : nat)
    (buf : buffer) : outcome buffer :=
  if gt value (of_Z max) || gt (of_Z 0) value
  then threw (ERR_OUT_OF_RANGE value max)
  else if (length buf <? offset + n)%nat then threw ERR_BUFFER_OUT_OF_BOUNDS
  else returned (store offset (low_bytes n (integer_part value)) buf).

Definition writeUInt32LE : number -> nat -> buffer -> outcome buffer :=
  writeUIntLE 4 4294967295.

Definition writeUInt16LE : number -> nat -> buffer -> outcome buffer :=
  writeUIntLE 2 65535.

Definition createWavHeader (dataLength : number)
    (options : WavConversionOptions) : outcome buffer :=
  let numChannels := to_number (numChannels options) in
  let sampleRate := to_number (sampleRate options) in
  let bitsPerSample := to_number (bitsPerSample options) in
  let byteRate := eighth (mul (mul sampleRate numChannels) bitsPerSample) in
  let blockAlign := eighth (mul numChannels bitsPerSample) in
  let buffer := alloc 44 in
  let buffer := write (lit "RIFF") 0 buffer in
  do buffer <- writeUInt32LE (add (of_Z 36) dataLength) 4 buffer;
  let buffer := write (lit "WAVE") 8 buffer in
  let buffer := write (lit "fmt ") 12 buffer in
  do buffer <- writeUInt32LE (of_Z 16) 16 buffer;
  do buffer <- writeUInt16LE (of_Z 1) 20 buffer;
  do buffer <- writeUInt16LE numChannels 22 buffer;
  do buffer <- writeUInt32LE sampleRate 24 buffer;
  do buffer <- writeUInt32LE byteRate 28 buffer;
  do buffer <- writeUInt16LE blockAlign 32 buffer;
  do buffer <- writeUInt16LE bitsPerSample 34 buffer;
  let buffer := write (lit "data") 36 buffer in
  do buffer <- writeUInt32LE dataLength 40 buffer;
  returned buffer.

Definition convertToWav (rawData mimeType : jsstring) : outcome buffer :=
  let options := parseMimeType mimeType in
  let buffer := from_base64 rawData in
  do wavHeader <- createWavHeader (of_Z (Z.of_nat (length buffer))) options;
  returned (wavHeader ++ buffer).

(** ** The route *)

Record inlineData : Type := {
  data : jsstring;
  mimeType : jsstring
}.

(** A response of the model: the block reason of the prompt feedback and
    the parts of the first candidate, each with its inline data if it has
    any ([[]] when a link of the optional chain is missing). *)
Record response : Type := {
  blockReason : option jsstring;
  parts : list (option inlineData)
}.

Inductive speech_json : Type :=
| speech_error (error : jsstring) (details : option jsstring)
| speech_ok (audioContent mimeType : jsstring).

(** [model.generateContent] followed by [result.response], and
    [mime.getExtension]. *)
Variable generateContent : jsstring -> outcome response.
Variable getExtension : jsstring -> option jsstring.

Definition is_audio (p : option inlineData) : bool :=
  match p with
  | Some d => starts_with (lit "audio/") (mimeType d)
  | None => false
  end.

(** [audioPart?.inlineData] *)
Definition audioPart (r : response) : option inlineData :=
  match find is_audio (parts r) with
  | Some p => p
  | None => None
  end.

(** The [try] block after the checks of the key and of the text. *)
Definition generate (text : jsstring) : outcome speech_json :=
  do response <- generateContent text;
  if Speech.truthy (blockReason response)
  then threw (lit "Content blocked: "
              ++ match blockReason response with Some r => r | None => [] end)
  else
    match audioPart response with
    | Some d =>
        if negb (Speech.truthy (getExtension (mimeType d)))
           || occurs (lit "audio/L") (mimeType d)
        then
          do finalBuffer <- convertToWav (data d) (mimeType d);
          returned (speech_ok (to_base64 finalBuffer) (lit "audio/wav"))
        else
          returned (speech_ok (to_base64 (from_base64 (data d)))
                      (mimeType d))
    | None => threw (lit "No audio content generated")
    end.

Definition POST (apiKey text : option jsstring) : http speech_json :=
  if missing apiKey then
    {| status := 500;
       json := speech_error (lit "Configuration Error")
                 (Some (lit "GEMINI_API_KEY is not defined.")) |}
  else if missing text then
    {| status := 400; json := speech_error (lit "Text is required") None |}
  else
    match generate (match text with Some t => t | None => [] end) with
    | returned body => {| status := 200; json := body |}
    | threw errorMessage =>
        if occurs (lit "modality") errorMessage
           || occurs (lit "400") errorMessage
        then
          {| status := 200;
             json := speech_error (lit "GEMINI_MODALITY_UNSUPPORTED")
                       (Some (lit "Gemini native audio is not yet available for this API key or region.")) |}
        else
          {| status := 500;
             json := speech_error (lit "Speech Generation Error")
                       (Some errorMessage) |}
    end.

(** The route as [speak] sees it through [fetch] and [response.json()]. *)
Definition service (apiKey : option jsstring) (text : jsstring)
    : Speech.fetched :=
  match json (POST apiKey (Some text)) with
  | speech_error error _ => Speech.fetched_data (Some error) None []
  | speech_ok audioContent mimeType =>
      Speech.fetched_data None (Some audioContent) mimeType
  end.

End Node.

(** ** Reading a WAV header *)

(** The unsigned number a player reads from little-endian bytes. *)
Definition little_endian (bs : list N) : N :=
  fold_right (fun b acc => (b + 256 * acc)%N) 0%N bs.

(** The [n] bytes of [buf] from [offset] on. *)
Definition field (offset n : nat) (buf : buffer) : list N :=
  firstn n (skipn offset buf).

(** Every value [createWavHeader] writes is inside the range of its
    field, for a data length and options that are integers. *)
Definition fits (dataLength numChannels sampleRate bitsPerSample : Z)
    : Prop :=
  (0 <= dataLength /\ 36 + dataLength <= 4294967295
   /\ 0 <= numChannels <= 65535
   /\ 0 <= sampleRate <= 4294967295
   /\ 0 <= sampleRate * numChannels * bitsPerSample <= 8 * 4294967295
   /\ 0 <= numChannels * bitsPerSample <= 8 * 65535
   /\ 0 <= bitsPerSample <= 65535)%Z.

End Wav.

Import CodePreview Spec.

(* ================================================================== *)
(** * Strings *)
(* ================================================================== *)

Lemma jseq_eq (a b : jsstring) : jseq a b = true <-> a = b.
Proof.
  revert b; induction a as [|x a IH]; intros [|y b]; simpl;
    try (split; (reflexivity || discriminate)).
  rewrite andb_true_iff, N.eqb_eq, IH.
  split; [intros [-> ->]; reflexivity | intros H; inversion H; auto].
Qed.

Lemma jseq_refl (a : jsstring) : jseq a a = true.
Proof. apply jseq_eq; reflexivity. Qed.

Lemma strip_prefix_app (p s : jsstring) : strip_prefix p (p ++ s) = Some s.
Proof.
  induction p as [|x p IH]; simpl; [reflexivity|].
  rewrite N.eqb_refl; exact IH.
Qed.

Lemma occurs_tail (p : jsstring) (c : char16) (s : jsstring) :
  occurs p (c :: s) = false -> occurs p s = false.
Proof. simpl; intros H; apply orb_false_iff in H; tauto. Qed.

Lemma occurs_head (p : jsstring) (s : jsstring) :
  occurs p s = false -> strip_prefix p s = None.
Proof.
  destruct s; simpl; unfold starts_with; intros H;
    apply orb_false_iff in H; destruct H as [H _];
    destruct (strip_prefix p _); [discriminate | reflexivity | discriminate
                                 | reflexivity].
Qed.

Lemma occurs_app_r (p s t : jsstring) :
  occurs p t = true -> occurs p (s ++ t) = true.
Proof.
  intros H; induction s as [|c s IH]; simpl; [exact H|].
  rewrite IH; apply orb_true_r.
Qed.

(** A pattern none of whose characters after the first is [d] has no
    occurrence that starts before a [d] and runs over it. *)
Lemma strip_prefix_stops (d : char16) (q t s : jsstring) :
  forallb (fun x => negb (x =? d)%N) q = true ->
  strip_prefix q t = None -> strip_prefix q (t ++ d :: s) = None.
Proof.
  revert t; induction q as [|y q IH]; intros t Hq Ht; [discriminate Ht|].
  simpl in Hq; apply andb_true_iff in Hq; destruct Hq as [Hy Hq].
  destruct t as [|a t]; simpl in *.
  - apply negb_true_iff in Hy; rewrite Hy; reflexivity.
  - destruct (y =? a)%N; [apply IH; assumption | reflexivity].
Qed.

Lemma strip_prefix_no_span (d : char16) (p t s : jsstring) :
  forallb (fun x => negb (x =? d)%N) (tl p) = true ->
  t <> [] -> strip_prefix p t = None ->
  strip_prefix p (t ++ d :: s) = None.
Proof.
  intros Hp Hne Ht.
  destruct p as [|x p]; [discriminate Ht|].
  destruct t as [|a t]; [congruence|]; simpl in *.
  destruct (x =? a)%N; [apply strip_prefix_stops; assumption | reflexivity].
Qed.

Lemma occurs_app_no_span (d : char16) (p pre s : jsstring) :
  forallb (fun x => negb (x =? d)%N) (tl p) = true ->
  occurs p pre = false ->
  occurs p (pre ++ d :: s) = occurs p (d :: s).
Proof.
  intros Hp; induction pre as [|c pre IH]; intros H; [reflexivity|].
  change (starts_with p ((c :: pre) ++ d :: s) || occurs p (pre ++ d :: s)
          = occurs p (d :: s)).
  unfold starts_with.
  rewrite (strip_prefix_no_span d p (c :: pre) s Hp); try discriminate;
    [|apply occurs_head; exact H].
  apply IH, (occurs_tail _ _ _ H).
Qed.

Lemma word_not_space (c : char16) : is_word c = true -> is_space c = false.
Proof.
  intros H; destruct (is_space c) eqn:E; [exfalso | reflexivity].
  unfold is_word, is_space, is_line_terminator, in_range in *.
  rewrite ?orb_true_iff, ?andb_true_iff, ?N.eqb_eq, ?N.leb_le in *.
  lia.
Qed.

(* ================================================================== *)
(** * The matcher *)
(* ================================================================== *)

(** ** The bound of the quantifier loop *)

Lemma star_loop_ext body (g : bool) :
  respects body ->
  forall n s cs k1 k2, (forall s' cs', k1 s' cs' = k2 s' cs') ->
    star_loop body g n s cs k1 = star_loop body g n s cs k2.
Proof.
  intros [Hext _]; induction n as [|n IH]; intros s cs k1 k2 Hk; simpl;
    [apply Hk|].
  rewrite (Hk s cs).
  rewrite (Hext s cs _
             (fun s' cs' =>
                if length s' <? length s
                then star_loop body g n s' cs' k2 else None));
    [reflexivity|].
  intros s' cs'; destruct (length s' <? length s); [apply IH; exact Hk|].
  reflexivity.
Qed.

Lemma star_loop_fail body (g : bool) :
  respects body ->
  forall n s cs, star_loop body g n s cs (fun _ _ => None) = None.
Proof.
  intros [Hext Hfail]; induction n as [|n IH]; intros s cs; simpl;
    [reflexivity|].
  rewrite (Hext s cs _ (fun _ _ => None)).
  - rewrite Hfail; destruct g; reflexivity.
  - intros s' cs'; destruct (length s' <? length s); [apply IH|reflexivity].
Qed.

Lemma m_respects (r : regex) : respects (m r).
Proof.
  induction r as [| c | p | r1 [E1 F1] r2 [E2 F2] | r1 [E1 F1] r2 [E2 F2]
                 | g r IH | i r [E F]]; split; simpl.
  - intros s cs k1 k2 H; apply H.
  - reflexivity.
  - intros [|x s] cs k1 k2 H; [reflexivity|].
    destruct (x =? c)%N; [apply H | reflexivity].
  - intros [|x s] cs; [reflexivity|]; destruct (x =? c)%N; reflexivity.
  - intros [|x s] cs k1 k2 H; [reflexivity|].
    destruct (p x); [apply H | reflexivity].
  - intros [|x s] cs; [reflexivity|]; destruct (p x); reflexivity.
  - intros s cs k1 k2 H; apply E1; intros s' cs'; apply E2; exact H.
  - intros s cs.
    rewrite (E1 s cs _ (fun _ _ => None)); [apply F1|].
    intros s' cs'; apply F2.
  - intros s cs k1 k2 H.
    rewrite (E1 s cs k1 k2 H), (E2 s cs k1 k2 H); reflexivity.
  - intros s cs; rewrite F1, F2; reflexivity.
  - intros s cs k1 k2 H; apply star_loop_ext; assumption.
  - intros s cs; apply star_loop_fail; assumption.
  - intros s cs k1 k2 H; apply E; intros s' cs'; apply H.
  - intros s cs; apply F.
Qed.

(** The loop never needs more iterations than the input has characters:
    with a larger bound the result is the same. *)
Lemma star_loop_bound body (g : bool) :
  respects body ->
  forall n s cs k, length s <= n ->
    star_loop body g (S n) s cs k = star_loop body g n s cs k.
Proof.
  intros Hb; pose proof Hb as [Hext Hfail].
  induction n as [|n IH]; intros s cs k Hn.
  - destruct s; [|simpl in Hn; lia].
    simpl. rewrite Hfail. destruct g; [reflexivity|].
    destruct (k [] cs); reflexivity.
  - change (star_loop body g (S (S n)) s cs k) with
      (let again :=
         body s cs (fun s' cs' =>
           if length s' <? length s
           then star_loop body g (S n) s' cs' k else None) in
       if g then orelse again (k s cs) else orelse (k s cs) again).
    change (star_loop body g (S n) s cs k) with
      (let again :=
         body s cs (fun s' cs' =>
           if length s' <? length s
           then star_loop body g n s' cs' k else None) in
       if g then orelse again (k s cs) else orelse (k s cs) again).
    cbv zeta.
    rewrite (Hext s cs _
               (fun s' cs' =>
                  if length s' <? length s
                  then star_loop body g n s' cs' k else None));
      [reflexivity|].
    intros s' cs'; destruct (Nat.ltb_spec (length s') (length s));
      [apply IH; lia | reflexivity].
Qed.

Lemma star_bound_irrelevant (g : bool) (r : regex) (s : jsstring)
    (cs : captures) (k : cont) (extra : nat) :
  star_loop (m r) g (length s + extra) s cs k = m (Star g r) s cs k.
Proof.
  induction extra as [|e IH]; [rewrite Nat.add_0_r; reflexivity|].
  rewrite Nat.add_succ_r, star_loop_bound;
    [exact IH | apply m_respects | lia].
Qed.

(** ** Literal runs and runs of a class *)

(** A run of literal characters is matched as [startsWith] does. *)
Lemma m_chars (p : jsstring) (r : regex) (s : jsstring) (cs : captures)
    (k : cont) :
  m (chars p r) s cs k =
  match strip_prefix p s with
  | Some s' => m r s' cs k
  | None => None
  end.
Proof.
  revert s; induction p as [|x p IH]; intros s; simpl; [reflexivity|].
  destruct s as [|y s]; [reflexivity|].
  rewrite (N.eqb_sym y x).
  destruct (x =? y)%N; [apply IH | reflexivity].
Qed.

Lemma match_here_chars_none (p : jsstring) (r : regex) (s : jsstring) :
  strip_prefix p s = None -> match_here (chars p r) s = None.
Proof. intros H; unfold match_here; rewrite m_chars, H; reflexivity. Qed.

(** Without a match anywhere, [replace] returns its input. *)
Lemma replace_first_absent (p : jsstring) (r : regex) (tpl s : jsstring) :
  occurs p s = false -> replace_first (chars p r) tpl s = s.
Proof.
  induction s as [|c s IH]; intros H; simpl;
    rewrite (match_here_chars_none p r _ (occurs_head _ _ H)); [reflexivity|].
  rewrite (IH (occurs_tail _ _ _ H)); reflexivity.
Qed.

Lemma replace_all_absent (p : jsstring) (r : regex) (tpl s : jsstring) :
  occurs p s = false -> replace_all (chars p r) tpl s = s.
Proof.
  unfold replace_all.
  induction s as [|c s IH]; intros H; simpl;
    rewrite (match_here_chars_none p r _ (occurs_head _ _ H)); [reflexivity|].
  rewrite (IH (occurs_tail _ _ _ H)); reflexivity.
Qed.

(** The leftmost match is not in [pre], when the literal head of the
    pattern does not occur there. *)
Lemma replace_first_skip (d : char16) (p : jsstring) (r : regex)
    (tpl pre s : jsstring) :
  forallb (fun x => negb (x =? d)%N) (tl p) = true ->
  occurs p pre = false ->
  replace_first (chars p r) tpl (pre ++ d :: s)
  = pre ++ replace_first (chars p r) tpl (d :: s).
Proof.
  intros Hp; induction pre as [|c pre IH]; intros H; [reflexivity|].
  change ((c :: pre) ++ d :: s) with (c :: pre ++ d :: s).
  cbn [replace_first].
  change (c :: pre ++ d :: s) with ((c :: pre) ++ d :: s).
  rewrite (match_here_chars_none p r _
             (strip_prefix_no_span d p (c :: pre) s Hp
                ltac:(discriminate) (occurs_head _ _ H))).
  cbn [app]; rewrite (IH (occurs_tail _ _ _ H)); reflexivity.
Qed.

Lemma declares_function_app_r (name pre s : jsstring) :
  declares_function name s = true -> declares_function name (pre ++ s) = true.
Proof.
  intros H; induction pre as [|c pre IH]; [exact H|].
  change (declares_here name (c :: pre ++ s)
          || declares_function name (pre ++ s) = true).
  rewrite IH; apply orb_true_r.
Qed.

(** The greedy loop over a class runs to the end of the run [w], when the
    continuation accepts what follows. *)
Lemma star_loop_run (p : char16 -> bool) (w s : jsstring) (cs : captures)
    (k : cont) (x : mstate) (n : nat) :
  all_in p w = true -> stops p s = true -> length (w ++ s) <= n ->
  k s cs = Some x ->
  star_loop (m (Cls p)) true n (w ++ s) cs k = Some x.
Proof.
  revert n; induction w as [|c w IH]; intros n Hw Hs Hn Hk.
  - destruct n as [|n]; simpl; [exact Hk|].
    destruct s as [|d s]; simpl in *; [exact Hk|].
    apply negb_true_iff in Hs; rewrite Hs; exact Hk.
  - simpl in Hw; apply andb_true_iff in Hw; destruct Hw as [Hc Hw].
    destruct n as [|n]; [simpl in Hn; lia|].
    simpl in Hn. cbn [star_loop app m]. rewrite Hc.
    replace (length (w ++ s) <? length (c :: w ++ s)) with true
      by (symmetry; apply Nat.ltb_lt; simpl; lia).
    pose proof (IH n Hw Hs (le_S_n _ _ Hn) Hk) as E.
    cbn [m] in E; rewrite E; reflexivity.
Qed.

(** [p+] on a run of the class. *)
Lemma m_plus_run (p : char16 -> bool) (w s : jsstring) (cs : captures)
    (k : cont) (x : mstate) :
  w <> [] -> all_in p w = true ->
  stops p s = true -> k s cs = Some x ->
  m (Plus true (Cls p)) (w ++ s) cs k = Some x.
Proof.
  intros Hne Hw Hs Hk.
  destruct w as [|c w]; [congruence|].
  simpl in Hw; apply andb_true_iff in Hw; destruct Hw as [Hc Hw].
  unfold Plus; cbn [m app]. rewrite Hc.
  apply star_loop_run; auto.
Qed.

Lemma m_seq (a b : regex) (s : jsstring) (cs : captures) (k : cont) :
  m (Seq a b) s cs k = m a s cs (fun s' cs' => m b s' cs' k).
Proof. reflexivity. Qed.

Lemma m_group (i : nat) (r : regex) (s : jsstring) (cs : captures)
    (k : cont) :
  m (Group i r) s cs k =
  m r s cs (fun s' cs' => k s' ((i, firstn (length s - length s') s) :: cs')).
Proof. reflexivity. Qed.

Lemma replace_first_here (r : regex) (tpl s rest : jsstring)
    (cs : captures) :
  match_here r s = Some (rest, cs) ->
  replace_first r tpl s =
  substitute (ngroups r) tpl (firstn (length s - length rest) s) cs ++ rest.
Proof. intros H; destruct s; simpl; rewrite H; reflexivity. Qed.

Lemma firstn_length_app (a b : jsstring) :
  firstn (length (a ++ b) - length b) (a ++ b) = a.
Proof.
  rewrite length_app, Nat.add_sub.
  induction a as [|x a IH]; simpl; [destruct b; reflexivity|].
  rewrite IH; reflexivity.
Qed.

Lemma blanks_spec (w : jsstring) :
  blanks w = true -> w <> [] /\ all_in is_space w = true.
Proof.
  unfold blanks; intros H; apply andb_true_iff in H; destruct H as [H1 H2].
  split; [intros ->; discriminate H1 | exact H2].
Qed.

Lemma identifier_spec (w : jsstring) :
  identifier w = true -> w <> [] /\ all_in is_word w = true.
Proof.
  unfold identifier; intros H; apply andb_true_iff in H; destruct H as [H1 H2].
  split; [intros ->; discriminate H1 | exact H2].
Qed.

(** An identifier does not begin with white space. *)
Lemma identifier_stops_space (name rest : jsstring) :
  identifier name = true -> stops is_space (name ++ rest) = true.
Proof.
  intros H; apply identifier_spec in H; destruct H as [Hne Hw].
  destruct name as [|c name]; [congruence|].
  simpl in *; apply andb_true_iff in Hw; destruct Hw as [Hc _].
  rewrite (word_not_space c Hc); reflexivity.
Qed.

(** ** The default-exported function declaration *)

Section DefaultFunction.

Variables ws1 ws2 ws3 name rest : jsstring.

Hypothesis Hws1 : blanks ws1 = true.
Hypothesis Hws2 : blanks ws2 = true.
Hypothesis Hws3 : blanks ws3 = true.
Hypothesis Hname : identifier name = true.
Hypothesis Hrest : stops is_word rest = true.

Local Abbreviation source :=
  (default_function_source ws1 ws2 ws3 name rest).

Lemma match_name (k : cont) (cs : captures) (x : mstate) :
  k rest ((1, name) :: cs) = Some x ->
  m (Group 1 (Plus true (Cls is_word))) (name ++ rest) cs k = Some x.
Proof.
  intros Hk. destruct (identifier_spec _ Hname) as [Hne Hw].
  rewrite m_group. apply m_plus_run; auto.
  rewrite firstn_length_app; exact Hk.
Qed.

Lemma match_default_function :
  match_here export_default_function_re source = Some (rest, [(1, name)]).
Proof.
  destruct (blanks_spec _ Hws1) as [N1 A1].
  destruct (blanks_spec _ Hws2) as [N2 A2].
  destruct (blanks_spec _ Hws3) as [N3 A3].
  unfold match_here, export_default_function_re, default_function_source.
  rewrite m_chars, strip_prefix_app, m_seq.
  apply m_plus_run; auto.
  rewrite m_chars, strip_prefix_app, m_seq.
  apply m_plus_run; auto.
  rewrite m_chars, strip_prefix_app, m_seq.
  apply m_plus_run; auto using identifier_stops_space.
  apply match_name; reflexivity.
Qed.

Lemma replace_default_function :
  replace_first export_default_function_re (lit "function $1") source
  = lit "function " ++ name ++ rest.
Proof.
  rewrite (replace_first_here _ _ _ _ _ match_default_function).
  unfold export_default_function_re.
  cbn. rewrite app_nil_r. reflexivity.
Qed.

Lemma declares_default_function :
  declares_function name (lit "function " ++ name ++ rest) = true.
Proof.
  change (declares_here name (lit "function " ++ name ++ rest)
          || declares_function name (skipn 1 (lit "function " ++ name ++ rest))
          = true).
  apply orb_true_iff; left.
  change (match strip_prefix name (drop_while is_space (name ++ rest)) with
          | Some [] => true
          | Some (d :: _) => negb (is_word d)
          | None => false
          end = true).
  assert (D : drop_while is_space (name ++ rest) = name ++ rest).
  { pose proof (identifier_stops_space name rest Hname) as S.
    destruct (name ++ rest) as [|c l]; [reflexivity|].
    simpl in *. apply negb_true_iff in S; rewrite S; reflexivity. }
  rewrite D, strip_prefix_app.
  destruct rest as [|d l]; [reflexivity | exact Hrest].
Qed.

(** The declaration may follow other text [pre], free of [export]. *)
Variable pre : jsstring.

Hypothesis Hpre : occurs (lit "export") pre = false.
Hypothesis Hexport : occurs (lit "export") (name ++ rest) = false.

Lemma replace_default_function_after :
  replace_first export_default_function_re (lit "function $1") (pre ++ source)
  = pre ++ lit "function " ++ name ++ rest.
Proof.
  unfold export_default_function_re.
  change (pre ++ source) with
    (pre ++ 101%N :: lit "xport" ++ ws1 ++ lit "default" ++ ws2
     ++ lit "function" ++ ws3 ++ name ++ rest).
  rewrite (replace_first_skip 101%N (lit "export") _ _ pre _ eq_refl Hpre).
  f_equal. exact replace_default_function.
Qed.

Lemma no_export_left :
  occurs (lit "export") (pre ++ lit "function " ++ name ++ rest) = false.
Proof.
  change (pre ++ lit "function " ++ name ++ rest) with
    (pre ++ 102%N :: lit "unction " ++ name ++ rest).
  rewrite (occurs_app_no_span 102%N (lit "export") pre _ eq_refl Hpre).
  exact Hexport.
Qed.

Lemma cleanedCode_default_function (code : jsstring) :
  replace_all import_re (lit "") code = pre ++ source ->
  cleanedCode code = pre ++ lit "function " ++ name ++ rest.
Proof.
  intros Hi; unfold cleanedCode. rewrite Hi.
  rewrite replace_default_function_after.
  unfold export_default_re;
    rewrite (replace_first_absent _ _ _ _ no_export_left).
  unfold export_re; rewrite (replace_all_absent _ _ _ _ no_export_left).
  reflexivity.
Qed.

End DefaultFunction.

Lemma script_language_not_html (language : jsstring) :
  script_language language = true -> jseq language (lit "html") = false.
Proof.
  intros H; destruct (jseq language (lit "html")) eqn:E; [|reflexivity].
  apply jseq_eq in E; subst language; discriminate H.
Qed.

Lemma content_script (code language : jsstring) :
  script_language language = true ->
  content code language = template_head ++ cleanedCode code ++ template_tail.
Proof.
  intros H; unfold content.
  rewrite (script_language_not_html _ H).
  unfold script_language in H; rewrite H; reflexivity.
Qed.

(* ================================================================== *)
(** * Normalisation of the default export *)
(* ================================================================== *)


(** The earlier version keeps the name as well, and then renders [App]
    unconditionally. *)
Example earlier_version_keeps_name :
  Earlier.script (lit "export default function Widget(){ return null }")
  = lit "function Widget(){ return null }" ++ Earlier.render_call.
Proof. vm_compute; reflexivity. Qed.

(** The scenario of the specification: a default export that is named
    [App] is declared as [App], and the document mounts it. *)
Example default_export_named_App :
  cleanedCode (lit "export default function App(){ return <div>hi</div> }")
  = lit "function App(){ return <div>hi</div> }"
  /\ declares_function (lit "App")
       (cleanedCode
          (lit "export default function App(){ return <div>hi</div> }"))
     = true
  /\ occurs (lit "<App />")
       (content (lit "export default function App(){ return <div>hi</div> }")
          (lit "jsx"))
     = true.
Proof. repeat split; vm_compute; reflexivity. Qed.

(** A default-exported expression is bound to [App]. *)
Example default_export_expression :
  cleanedCode (lit "export default () => <p>hi</p>; export const n = 1;")
  = lit "const App = () => <p>hi</p>; const n = 1;".
Proof. vm_compute; reflexivity. Qed.

(* ================================================================== *)
(** * Removal of import statements *)
(* ================================================================== *)

(** An import with a [from] clause is removed. *)
Example import_from_is_removed :
  cleanedCode (lit "import React from 'react';" ++ lit nl
               ++ lit "function App(){ return null }")
  = lit nl ++ lit "function App(){ return null }".
Proof. vm_compute; reflexivity. Qed.

(** C7.  The code comment says the step removes the imports that would
    fail in the browser, yet a static import without a [from] clause (a
    side-effect import) is left in place: the normalised source is the
    input, import statement included. *)
Theorem side_effect_import_is_kept :
  let source := lit "import './styles.css';" ++ lit nl
                ++ lit "function App(){ return null }" in
  cleanedCode source = source
  /\ starts_with (lit "import './styles.css';") (cleanedCode source) = true.
Proof. split; vm_compute; reflexivity. Qed.

(* ================================================================== *)
(** * Composition and presentation *)
(* ================================================================== *)

Lemma mounted_spec (st : state) :
  mounted st = true ->
  exists fr w, iframeRef st = Some fr /\ contentWindow fr = Some w.
Proof.
  unfold mounted, loaded; intros H.
  destruct (iframeRef st) as [fr|]; [|discriminate].
  destruct (contentWindow fr) as [w|] eqn:E; [|discriminate].
  exists fr, w; split; [reflexivity | exact E].
Qed.

(** With a mounted iframe, [open], [write], [close] leave the document
    holding the composed content, whatever it held and whether or not it
    was open. *)
Lemma updateIframe_loaded (p : props) (st : state) :
  mounted st = true ->
  loaded (updateIframe p st) = Some (content (code p) (language p)).
Proof.
  intros H; destruct (mounted_spec st H) as (fr & w & Hf & Hw).
  unfold updateIframe, loaded; rewrite Hf, Hw; reflexivity.
Qed.

Lemma updateIframe_mounted (p : props) (st : state) :
  mounted st = true -> mounted (updateIframe p st) = true.
Proof.
  intros H; unfold mounted; rewrite (updateIframe_loaded p st H); reflexivity.
Qed.

(** Without an iframe, [updateIframe] returns at once. *)
Lemma updateIframe_unmounted (p : props) (st : state) :
  iframeRef st = None -> updateIframe p st = st.
Proof. intros H; unfold updateIframe; rewrite H; reflexivity. Qed.

(** The reload button: a second update with the same props changes
    nothing. *)
Lemma reload_is_idempotent (p : props) (st : state) :
  updateIframe p (updateIframe p st) = updateIframe p st.
Proof.
  unfold updateIframe.
  destruct (iframeRef st) as [fr|] eqn:Hf; [|rewrite Hf; reflexivity].
  destruct (contentWindow fr) as [w|] eqn:Hw; [|rewrite Hf, Hw; reflexivity].
  reflexivity.
Qed.

(** C3.  Composition depends on the source and the language tag only: two
    invocations with the same pair, from any two states of the component
    (any title, any tab, any earlier content of the iframe), write the same
    document, and each invocation does produce a document. *)
Theorem composition_is_pure_and_total (p1 p2 : props) (st1 st2 : state) :
  code p1 = code p2 -> language p1 = language p2 ->
  mounted st1 = true -> mounted st2 = true ->
  loaded (updateIframe p1 st1) = Some (content (code p1) (language p1))
  /\ loaded (updateIframe p1 st1) = loaded (updateIframe p2 st2).
Proof.
  intros Hc Hl H1 H2.
  rewrite (updateIframe_loaded p1 st1 H1), (updateIframe_loaded p2 st2 H2).
  rewrite Hc, Hl; split; reflexivity.
Qed.

(** C5.  For the tag [html] the document is the source, unchanged. *)
Theorem html_is_written_verbatim (source title : jsstring) (st : state) :
  mounted st = true ->
  content source (lit "html") = source
  /\ loaded (updateIframe
               {| code := source; language := lit "html"; title := title |}
               st)
     = Some source.
Proof.
  intros H; split; [reflexivity|].
  rewrite (updateIframe_loaded _ st H); reflexivity.
Qed.

(** C8.  Presenting a second document replaces the first: after two
    updates in a row the iframe holds the content of the second, which is
    also what it would hold had the first never been presented. *)
Theorem second_document_replaces_first (p1 p2 : props) (st : state) :
  mounted st = true ->
  loaded (updateIframe p2 (updateIframe p1 st))
  = Some (content (code p2) (language p2))
  /\ loaded (updateIframe p2 (updateIframe p1 st))
     = loaded (updateIframe p2 st).
Proof.
  intros H.
  rewrite (updateIframe_loaded p2 _ (updateIframe_mounted p1 st H)).
  rewrite (updateIframe_loaded p2 st H); split; reflexivity.
Qed.

Lemma composition_is_pure_and_total_witness :
  loaded (updateIframe
            {| code := lit "<p>hi</p>"; language := lit "html";
               title := lit "Preview" |}
            (mount {| code := lit "<b>old</b>"; language := lit "html";
                      title := lit "Preview" |}))
  = Some (lit "<p>hi</p>")
  /\ loaded (updateIframe
               {| code := lit "<p>hi</p>"; language := lit "html";
                  title := lit "Preview" |}
               (mount {| code := lit "<b>old</b>"; language := lit "html";
                         title := lit "Preview" |}))
     = loaded (updateIframe
                 {| code := lit "<p>hi</p>"; language := lit "html";
                    title := lit "HTML Artifact" |}
                 (setActiveTab
                    {| code := lit "x"; language := lit "jsx";
                       title := lit "t" |}
                    preview
                    (initial_state
                       {| code := lit "x"; language := lit "css";
                          title := lit "t" |}))).
Proof.
  apply (composition_is_pure_and_total
           {| code := lit "<p>hi</p>"; language := lit "html";
              title := lit "Preview" |}
           {| code := lit "<p>hi</p>"; language := lit "html";
              title := lit "HTML Artifact" |});
    reflexivity.
Defined.

Lemma html_is_written_verbatim_witness :
  content (lit "<script>alert(1)</script>") (lit "html")
  = lit "<script>alert(1)</script>"
  /\ loaded (updateIframe
               {| code := lit "<script>alert(1)</script>";
                  language := lit "html"; title := lit "Preview" |}
               (mount {| code := lit "<b>old</b>"; language := lit "html";
                         title := lit "Preview" |}))
     = Some (lit "<script>alert(1)</script>").
Proof.
  apply (html_is_written_verbatim (lit "<script>alert(1)</script>")
           (lit "Preview")); reflexivity.
Defined.

Lemma second_document_replaces_first_witness :
  loaded (updateIframe
            {| code := lit "<p>two</p>"; language := lit "html";
               title := lit "Preview" |}
            (updateIframe
               {| code := lit "<p>one</p><p>more</p>"; language := lit "html";
                  title := lit "Preview" |}
               (mount {| code := lit "<b>old</b>"; language := lit "html";
                         title := lit "Preview" |})))
  = Some (content (lit "<p>two</p>") (lit "html"))
  /\ loaded (updateIframe
               {| code := lit "<p>two</p>"; language := lit "html";
                  title := lit "Preview" |}
               (updateIframe
                  {| code := lit "<p>one</p><p>more</p>";
                     language := lit "html"; title := lit "Preview" |}
                  (mount {| code := lit "<b>old</b>"; language := lit "html";
                            title := lit "Preview" |})))
     = loaded (updateIframe
                 {| code := lit "<p>two</p>"; language := lit "html";
                    title := lit "Preview" |}
                 (mount {| code := lit "<b>old</b>"; language := lit "html";
                           title := lit "Preview" |})).
Proof.
  apply (second_document_replaces_first
           {| code := lit "<p>one</p><p>more</p>"; language := lit "html";
              title := lit "Preview" |}
           {| code := lit "<p>two</p>"; language := lit "html";
              title := lit "Preview" |}); reflexivity.
Defined.

(* ================================================================== *)
(** * The initial tab *)
(* ================================================================== *)

(** C6, as the specification states it, fails for two of the five
    previewable languages: a [javascript] block is handed to the preview
    component, which starts on the code tab. *)
Lemma javascript_starts_on_code_tab :
  Chat.isPreviewable (lit "javascript") = true
  /\ initial_activeTab (lit "javascript") = code_tab.
Proof. split; vm_compute; reflexivity. Qed.

(** C6 (amended).  The component starts on the preview tab exactly for
    [html], [jsx] and [tsx]; for [javascript] and [typescript], although
    previewable, and for every language that is not previewable, it starts
    on the code tab. *)
Theorem initial_tab_by_language (language : jsstring) :
  (initial_activeTab language = preview <->
   language = lit "html" \/ language = lit "jsx" \/ language = lit "tsx")
  /\ (language = lit "javascript" \/ language = lit "typescript" ->
      Chat.isPreviewable language = true
      /\ initial_activeTab language = code_tab)
  /\ (Chat.isPreviewable language = false ->
      initial_activeTab language = code_tab).
Proof.
  unfold initial_activeTab, Chat.isPreviewable, includes; cbn [existsb].
  split; [|split].
  - destruct (jseq language (lit "html")) eqn:E1;
    destruct (jseq language (lit "jsx")) eqn:E2;
    destruct (jseq language (lit "tsx")) eqn:E3; cbn [orb];
      try (apply jseq_eq in E1); try (apply jseq_eq in E2);
      try (apply jseq_eq in E3); try (split; [tauto | reflexivity]).
    split; [discriminate|].
    intros [H | [H | H]]; subst language; discriminate.
  - intros [-> | ->]; split; reflexivity.
  - intros H. rewrite !orb_false_iff in H.
    destruct H as (-> & -> & -> & _); reflexivity.
Qed.

Lemma initial_tab_by_language_witness :
  initial_activeTab (lit "html") = preview
  /\ (Chat.isPreviewable (lit "typescript") = true
      /\ initial_activeTab (lit "typescript") = code_tab)
  /\ initial_activeTab (lit "python") = code_tab.
Proof.
  split; [|split].
  - apply (proj1 (initial_tab_by_language (lit "html"))).
    left; reflexivity.
  - apply (proj1 (proj2 (initial_tab_by_language (lit "typescript")))).
    right; reflexivity.
  - apply (proj2 (proj2 (initial_tab_by_language (lit "python")))).
    reflexivity.
Defined.

(* ================================================================== *)
(** * The copy button *)
(* ================================================================== *)

(** A timer that is due runs, wherever it stands among the pending
    ones; the only callback resets [copied]. *)
Lemma run_timers_last (now due : N) (ts : list (N * callback))
    (st : state) :
  (due <= now)%N ->
  copied (fst (run_timers now (ts ++ [(due, reset_copied)]) st)) = false.
Proof.
  intros Hd; revert st; induction ts as [|[d c] ts IH]; intros st; simpl.
  - apply N.leb_le in Hd; rewrite Hd; reflexivity.
  - destruct (d <=? now)%N; [apply IH|].
    specialize (IH st).
    destruct (run_timers now (ts ++ [(due, reset_copied)]) st); exact IH.
Qed.

(** No timer runs before it is due. *)
Lemma run_timers_early (now : N) (ts : list (N * callback)) (st : state) :
  forallb (fun t => (now <? fst t)%N) ts = true ->
  run_timers now ts st = (st, ts).
Proof.
  induction ts as [|[d c] ts IH]; simpl; intros H; [reflexivity|].
  apply andb_true_iff in H; destruct H as [Hd H].
  apply N.ltb_lt in Hd.
  destruct (N.leb_spec d now); [lia|].
  rewrite (IH H); reflexivity.
Qed.

(** The copy button writes the source as given, not the composed
    document, to the clipboard and sets [copied]; when 2000 ms have passed
    [copied] is false again. *)
Lemma copy_writes_source_and_acknowledges (p : props) (st : state)
    (b : browser) :
  let (st1, b1) := copyToClipboard p st b in
  clipboard b1 = code p
  /\ copied st1 = true
  /\ copied (fst (elapse 2000 st1 b1)) = false.
Proof.
  unfold copyToClipboard, elapse; cbn [clock timers clipboard].
  split; [reflexivity|]. split; [reflexivity|].
  pose proof (run_timers_last (clock b + 2000) (clock b + 2000) (timers b)
                (set_copied true st) (N.le_refl _)) as E.
  destruct (run_timers _ _ _); exact E.
Qed.

(** Until then the acknowledgment stays, when no earlier timer is
    pending. *)
Lemma acknowledgment_lasts (p : props) (st : state) (b : browser) (dt : N) :
  (dt < 2000)%N ->
  forallb (fun t => (clock b + dt <? fst t)%N) (timers b) = true ->
  let (st1, b1) := copyToClipboard p st b in
  copied (fst (elapse dt st1 b1)) = true.
Proof.
  intros Hdt Hts; unfold copyToClipboard, elapse; cbn [clock timers clipboard].
  rewrite run_timers_early; [reflexivity|].
  rewrite forallb_app, Hts; cbn [forallb fst andb].
  rewrite andb_true_r; apply N.ltb_lt; lia.
Qed.

(** What is copied is the source, not the document written to the
    iframe. *)
Example copy_is_not_the_document :
  let p := {| code := lit "export default function App(){ return null }";
              language := lit "jsx"; title := lit "Preview" |} in
  let (st1, b1) :=
    copyToClipboard p (mount p)
      {| clock := 100; clipboard := lit "old"; timers := [] |} in
  clipboard b1 = lit "export default function App(){ return null }"
  /\ jseq (clipboard b1) (content (code p) (language p)) = false
  /\ jseq (clipboard b1) (cleanedCode (code p)) = false.
Proof. vm_compute; repeat split. Qed.

(** The timer of an earlier click is never cleared: whenever the button
    is clicked again [gap] ms after a first click, within its two seconds,
    the flag is down [2000 - gap] ms after the second click. *)
Lemma earlier_timer_resets_second_copy (p : props) (st : state)
    (b : browser) (gap : N) :
  timers b = [] -> (gap < 2000)%N ->
  let (st1, b1) := copyToClipboard p st b in
  let (st2, b2) := elapse gap st1 b1 in
  let (st3, b3) := copyToClipboard p st2 b2 in
  copied st3 = true /\ copied (fst (elapse (2000 - gap) st3 b3)) = false.
Proof.
  intros Ht Hg; unfold copyToClipboard, elapse.
  cbn [clock timers clipboard]; rewrite Ht; cbn [app run_timers].
  replace (clock b + 2000 <=? clock b + gap)%N with false
    by (symmetry; apply N.leb_gt; lia).
  cbn [clock timers clipboard app run_timers].
  split; [reflexivity|].
  replace (clock b + 2000 <=? clock b + gap + (2000 - gap))%N with true
    by (symmetry; apply N.leb_le; lia).
  cbn [run_callback].
  destruct (clock b + gap + 2000 <=? clock b + gap + (2000 - gap))%N;
    reflexivity.
Qed.

(** C9.  The claim holds for a click on a component with no reset
    pending, and fails for a click that follows another within two
    seconds.  One click: the source is on the clipboard, [copied] is up
    for 1999 ms and down at 2000 ms.  A second click 1500 ms after the
    first: the source is written and [copied] is up, it is still up
    499 ms later, and down 500 ms after the click, when the timer of
    the first click runs; the timer of the second click is then still
    pending, due at 3500 ms. *)
Theorem second_copy_is_acknowledged_briefly :
  let p := {| code := lit "export default function App(){ return null }";
              language := lit "jsx"; title := lit "Preview" |} in
  let b0 := {| clock := 0; clipboard := []; timers := [] |} in
  let (st1, b1) := copyToClipboard p (mount p) b0 in
  let (st2, b2) := elapse 1500 st1 b1 in
  let (st3, b3) := copyToClipboard p st2 b2 in
  (clipboard b1 = code p /\ copied st1 = true
   /\ copied (fst (elapse 1999 st1 b1)) = true
   /\ copied (fst (elapse 2000 st1 b1)) = false)
  /\ (clipboard b3 = code p /\ copied st3 = true
      /\ copied (fst (elapse 499 st3 b3)) = true
      /\ copied (fst (elapse 500 st3 b3)) = false
      /\ timers (snd (elapse 500 st3 b3)) = [(3500%N, reset_copied)]).
Proof. vm_compute; repeat split. Qed.

(* ================================================================== *)
(** * The submit guard of the chat *)
(* ================================================================== *)

Lemma rejected_spec (entered : jsstring) (st : Chat.state) :
  (trim entered = [] /\ Chat.selectedImage st = None)
  \/ Chat.isLoading st = true ->
  Chat.rejected entered st = true.
Proof.
  unfold Chat.rejected; intros [[Ht Hi] | Hl].
  - rewrite Ht, Hi; reflexivity.
  - rewrite Hl; apply orb_true_r.
Qed.

(** C10.  When the input text trims to the empty string and no image is
    selected, or a request is in flight, [handleSubmit] returns the state it
    was given, in both versions of the chat: the messages, the input, the
    selected image and the loading flag (and every other field) are
    unchanged, whatever the server would have answered.  The form and the
    image button call it without an override; with one (the debug
    callback) the text the guard trims is [overrideInput || input]. *)
Theorem handleSubmit_guard
    (toLowerCase : jsstring -> jsstring) (server : Chat.request -> Chat.reply)
    (now : N) (isImage : bool) (st : Chat.state) :
  ((trim (Chat.input st) = [] /\ Chat.selectedImage st = None)
   \/ Chat.isLoading st = true ->
   Chat.handleSubmit toLowerCase server now isImage None st = st
   /\ Chat.handleSubmit_basic toLowerCase server now isImage st = st)
  /\ (forall overrideInput,
      (trim (Chat.messageInput overrideInput (Chat.input st)) = []
       /\ Chat.selectedImage st = None)
      \/ Chat.isLoading st = true ->
      Chat.handleSubmit toLowerCase server now isImage overrideInput st = st).
Proof.
  split; [intros H; split | intros overrideInput H].
  - unfold Chat.handleSubmit; cbn [Chat.messageInput].
    rewrite (rejected_spec _ _ H); reflexivity.
  - unfold Chat.handleSubmit_basic; rewrite (rejected_spec _ _ H); reflexivity.
  - unfold Chat.handleSubmit; rewrite (rejected_spec _ _ H); reflexivity.
Qed.

Lemma handleSubmit_guard_witness :
  (Chat.handleSubmit (fun s => s) (fun _ => Chat.failure (lit "offline")) 7
     true None
     {| Chat.messages := []; Chat.input := lit "   ";
        Chat.isLoading := false; Chat.isListening := false;
        Chat.isMicInitializing := false; Chat.speakingMessageId := None;
        Chat.isGeneratingSpeech := None; Chat.selectedImage := None |}
   = {| Chat.messages := []; Chat.input := lit "   ";
        Chat.isLoading := false; Chat.isListening := false;
        Chat.isMicInitializing := false; Chat.speakingMessageId := None;
        Chat.isGeneratingSpeech := None; Chat.selectedImage := None |}
   /\ Chat.handleSubmit_basic (fun s => s)
        (fun _ => Chat.failure (lit "offline")) 7 true
        {| Chat.messages := []; Chat.input := lit "   ";
           Chat.isLoading := false; Chat.isListening := false;
           Chat.isMicInitializing := false; Chat.speakingMessageId := None;
           Chat.isGeneratingSpeech := None; Chat.selectedImage := None |}
      = {| Chat.messages := []; Chat.input := lit "   ";
           Chat.isLoading := false; Chat.isListening := false;
           Chat.isMicInitializing := false; Chat.speakingMessageId := None;
           Chat.isGeneratingSpeech := None; Chat.selectedImage := None |})
  /\ Chat.handleSubmit (fun s => s) (fun _ => Chat.failure (lit "offline")) 7
       false (Some (lit "fix this"))
       {| Chat.messages := []; Chat.input := lit "hello";
          Chat.isLoading := true; Chat.isListening := false;
          Chat.isMicInitializing := false; Chat.speakingMessageId := None;
          Chat.isGeneratingSpeech := None; Chat.selectedImage := None |}
     = {| Chat.messages := []; Chat.input := lit "hello";
          Chat.isLoading := true; Chat.isListening := false;
          Chat.isMicInitializing := false; Chat.speakingMessageId := None;
          Chat.isGeneratingSpeech := None; Chat.selectedImage := None |}.
Proof.
  split.
  - apply (proj1 (handleSubmit_guard (fun s => s)
                    (fun _ => Chat.failure (lit "offline")) 7 true _)).
    left; split; reflexivity.
  - apply (proj2 (handleSubmit_guard (fun s => s)
                    (fun _ => Chat.failure (lit "offline")) 7 false _)).
    right; reflexivity.
Defined.

(** Past the guard the call does change the state: the user's message and
    the answer are appended, and the selected image is dropped. *)
Lemma handleSubmit_accepted
    (toLowerCase : jsstring -> jsstring) (server : Chat.request -> Chat.reply)
    (now : N) (isImage : bool) (overrideInput : option jsstring)
    (st : Chat.state) :
  Chat.rejected (Chat.messageInput overrideInput (Chat.input st)) st = false ->
  let st' := Chat.handleSubmit toLowerCase server now isImage overrideInput st
  in
  length (Chat.messages st') = length (Chat.messages st) + 2
  /\ Chat.selectedImage st' = None
  /\ Chat.isLoading st' = false.
Proof.
  intros H; unfold Chat.handleSubmit; rewrite H.
  unfold Chat.submit; destruct (negb _); cbn;
    rewrite !length_app; cbn; repeat split; lia.
Qed.

(* ================================================================== *)
(** * The sandbox attribute *)
(* ================================================================== *)

(** The iframe the component creates allows scripts and keeps the origin
    of the host page; [updateIframe] itself reaches the document through
    [contentWindow]. *)
Example sandbox_tokens :
  sandbox new_iframe = sandbox_attribute
  /\ includes sandbox_attribute (lit "allow-scripts") = true
  /\ includes sandbox_attribute (lit "allow-same-origin") = true.
Proof. repeat split. Qed.

(* ================================================================== *)
(** * More on the normalisation *)
(* ================================================================== *)

(** A character of one class differs from a character outside it. *)
Lemma class_separates (p : char16 -> bool) (c d : char16) :
  p c = true -> p d = false -> (d =? c)%N = false.
Proof.
  intros Hc Hd; destruct (N.eqb_spec d c) as [E|]; [|reflexivity].
  subst d; congruence.
Qed.

Lemma strip_prefix_other_head (p : jsstring) (x c : char16) (s : jsstring) :
  (x =? c)%N = false -> strip_prefix (x :: p) (c :: s) = None.
Proof. intros H; simpl; rewrite H; reflexivity. Qed.

(** No occurrence in either part, and none across the joint. *)
Lemma occurs_app_false (d : char16) (p a b : jsstring) :
  forallb (fun x => negb (x =? d)%N) (tl p) = true ->
  occurs p a = false -> occurs p (d :: b) = false ->
  occurs p (a ++ d :: b) = false.
Proof.
  intros Hp Ha Hb; rewrite (occurs_app_no_span d p a b Hp Ha); exact Hb.
Qed.

Lemma occurs_nil (x : char16) (p : jsstring) : occurs (x :: p) [] = false.
Proof. reflexivity. Qed.

(** A pattern that begins outside a class does not occur in a run of the
    class. *)
Lemma occurs_in_run (q : char16 -> bool) (x : char16) (p w : jsstring) :
  q x = false -> all_in q w = true -> occurs (x :: p) w = false.
Proof.
  intros Hx; induction w as [|c w IH]; intros Hw; [reflexivity|].
  simpl in Hw; apply andb_true_iff in Hw; destruct Hw as [Hc Hw].
  change (starts_with (x :: p) (c :: w) || occurs (x :: p) w = false).
  unfold starts_with.
  rewrite (strip_prefix_other_head p x c w (class_separates q c x Hc Hx)).
  apply IH, Hw.
Qed.

(** The characters of a pattern outside a class differ from any character
    of the class. *)
Lemma apart_from_class (q : char16 -> bool) (d : char16) (p : jsstring) :
  q d = true -> Shapes.none_in q p = true ->
  forallb (fun x => negb (x =? d)%N) p = true.
Proof.
  intros Hd; induction p as [|x p IH]; intros H; [reflexivity|].
  simpl in *; apply andb_true_iff in H; destruct H as [Hx H].
  apply negb_true_iff in Hx.
  rewrite (class_separates q d x Hd Hx); simpl; apply IH, H.
Qed.

(** A pattern of non-blank characters does not occur in [w ++ s], for a
    run of blanks [w], unless it occurs in [s]. *)
Lemma occurs_after_blanks (x : char16) (p w s : jsstring) :
  Shapes.none_in is_space (x :: p) = true ->
  all_in is_space w = true ->
  occurs (x :: p) s = false -> occurs (x :: p) (w ++ s) = false.
Proof.
  intros Hp Hw Hs.
  simpl in Hp; apply andb_true_iff in Hp; destruct Hp as [Hx Hp].
  apply negb_true_iff in Hx.
  induction w as [|c w IH]; [exact Hs|].
  simpl in Hw; apply andb_true_iff in Hw; destruct Hw as [Hc Hw].
  change (starts_with (x :: p) (c :: w ++ s) || occurs (x :: p) (w ++ s)
          = false).
  unfold starts_with.
  rewrite (strip_prefix_other_head p x c (w ++ s)
             (class_separates is_space c x Hc Hx)).
  apply IH, Hw.
Qed.

(** X27.  A source with neither [import] nor [export] anywhere in it is
    embedded as it is, between the head and the tail of the template. *)
Theorem plain_script_is_unchanged (source language : jsstring) :
  occurs (lit "import") source = false ->
  occurs (lit "export") source = false ->
  script_language language = true ->
  cleanedCode source = source
  /\ content source language = template_head ++ source ++ template_tail.
Proof.
  intros Hi He Hl.
  assert (E : cleanedCode source = source).
  { unfold cleanedCode.
    unfold import_re; rewrite (replace_all_absent _ _ _ _ Hi).
    unfold export_default_function_re;
      rewrite (replace_first_absent _ _ _ _ He).
    unfold export_default_re; rewrite (replace_first_absent _ _ _ _ He).
    unfold export_re; rewrite (replace_all_absent _ _ _ _ He).
    reflexivity. }
  split; [exact E|]. rewrite (content_script _ _ Hl), E; reflexivity.
Qed.

Lemma plain_script_is_unchanged_witness :
  cleanedCode (lit "function main(){ document.title = 'hi' }")
  = lit "function main(){ document.title = 'hi' }"
  /\ content (lit "function main(){ document.title = 'hi' }")
       (lit "javascript")
     = template_head ++ lit "function main(){ document.title = 'hi' }"
       ++ template_tail.
Proof.
  apply (plain_script_is_unchanged
           (lit "function main(){ document.title = 'hi' }")
           (lit "javascript")); reflexivity.
Defined.

(** ** Where a greedy run cannot be continued *)

(** The greedy loop over a class fails when the continuation fails after
    every part of the run. *)
Lemma star_loop_run_none (p : char16 -> bool) (w s : jsstring)
    (cs : captures) (k : cont) (n : nat) :
  all_in p w = true -> stops p s = true -> length (w ++ s) <= n ->
  (forall w1 w2, w = w1 ++ w2 -> k (w2 ++ s) cs = None) ->
  star_loop (m (Cls p)) true n (w ++ s) cs k = None.
Proof.
  revert n; induction w as [|c w IH]; intros n Hw Hs Hn Hk.
  - pose proof (Hk [] [] eq_refl) as K; simpl in K.
    destruct n as [|n]; simpl; [exact K|].
    destruct s as [|d s]; simpl in *; [exact K|].
    apply negb_true_iff in Hs; rewrite Hs; exact K.
  - simpl in Hw; apply andb_true_iff in Hw; destruct Hw as [Hc Hw].
    destruct n as [|n]; [simpl in Hn; lia|].
    simpl in Hn. cbn [star_loop app m]. rewrite Hc.
    replace (length (w ++ s) <? length (c :: w ++ s)) with true
      by (symmetry; apply Nat.ltb_lt; simpl; lia).
    assert (E : star_loop (m (Cls p)) true n (w ++ s) cs k = None).
    { apply IH; auto; [lia|].
      intros w1 w2 ->; apply (Hk (c :: w1) w2); reflexivity. }
    cbn [m] in E; rewrite E.
    exact (Hk [] (c :: w) eq_refl).
Qed.

Lemma m_plus_none (p : char16 -> bool) (w s : jsstring) (cs : captures)
    (k : cont) :
  all_in p w = true -> stops p s = true ->
  (forall w1 w2, w = w1 ++ w2 -> w1 <> [] -> k (w2 ++ s) cs = None) ->
  m (Plus true (Cls p)) (w ++ s) cs k = None.
Proof.
  intros Hw Hs Hk. unfold Plus; rewrite m_seq.
  destruct w as [|c w].
  - destruct s as [|d s]; simpl in *; [reflexivity|].
    apply negb_true_iff in Hs; rewrite Hs; reflexivity.
  - simpl in Hw; apply andb_true_iff in Hw; destruct Hw as [Hc Hw].
    cbn [m app]; rewrite Hc.
    apply star_loop_run_none; auto.
    intros w1 w2 ->; apply (Hk (c :: w1) w2); [reflexivity | discriminate].
Qed.

Lemma all_in_app_r (p : char16 -> bool) (a b : jsstring) :
  all_in p (a ++ b) = true -> all_in p b = true.
Proof.
  unfold all_in; rewrite forallb_app; intros H.
  apply andb_true_iff in H; tauto.
Qed.

(** A literal that begins outside a class is not matched at the head of a
    run of the class. *)
Lemma m_chars_in_run (q : char16 -> bool) (x : char16) (p : jsstring)
    (r : regex) (w s : jsstring) (cs : captures) (k : cont) :
  q x = false -> all_in q w = true -> w <> [] ->
  m (chars (x :: p) r) (w ++ s) cs k = None.
Proof.
  intros Hx Hw Hne; destruct w as [|c w]; [congruence|].
  simpl in Hw; apply andb_true_iff in Hw; destruct Hw as [Hc _].
  rewrite m_chars.
  change ((c :: w) ++ s) with (c :: w ++ s).
  rewrite (strip_prefix_other_head p x c _ (class_separates q c x Hc Hx)).
  reflexivity.
Qed.

(** ** The default-exported expression *)

Section DefaultExpression.

Variables ws1 ws2 rest : jsstring.

Hypothesis Hws1 : blanks ws1 = true.
Hypothesis Hws2 : blanks ws2 = true.
Hypothesis Hstop : stops is_space rest = true.
Hypothesis Hfun : strip_prefix (lit "function") rest = None.

Local Abbreviation source :=
  (Shapes.default_expression_source ws1 ws2 rest).

(** The pattern for a default-exported function does not match here. *)
Lemma no_default_function_here :
  match_here export_default_function_re source = None.
Proof.
  destruct (blanks_spec _ Hws1) as [N1 A1].
  destruct (blanks_spec _ Hws2) as [N2 A2].
  unfold match_here, export_default_function_re,
    Shapes.default_expression_source.
  rewrite m_chars, strip_prefix_app, m_seq.
  apply m_plus_none; auto.
  intros w1 [|c w2] -> _.
  - cbn [app]. rewrite m_chars, strip_prefix_app, m_seq.
    apply m_plus_none; auto.
    intros v1 [|d v2] -> _.
    + cbn [app]. rewrite m_chars, Hfun; reflexivity.
    + apply (m_chars_in_run is_space); [reflexivity | | discriminate].
      apply (all_in_app_r _ _ _ A2).
  - apply (m_chars_in_run is_space); [reflexivity | | discriminate].
    apply (all_in_app_r _ _ _ A1).
Qed.

Lemma match_default_expression :
  match_here export_default_re source = Some (rest, []).
Proof.
  destruct (blanks_spec _ Hws1) as [N1 A1].
  destruct (blanks_spec _ Hws2) as [N2 A2].
  unfold match_here, export_default_re, Shapes.default_expression_source.
  rewrite m_chars, strip_prefix_app, m_seq.
  apply m_plus_run; auto.
  rewrite m_chars, strip_prefix_app.
  apply m_plus_run; auto.
Qed.

Hypothesis Hexport : occurs (lit "export") rest = false.

Lemma no_export_after_keyword :
  occurs (lit "export")
    (lit "xport" ++ ws1 ++ lit "default" ++ ws2 ++ rest) = false.
Proof.
  destruct (blanks_spec _ Hws1) as [_ A1].
  destruct (blanks_spec _ Hws2) as [_ A2].
  change (occurs (lit "export") (ws1 ++ lit "default" ++ ws2 ++ rest) = false).
  apply occurs_after_blanks; [reflexivity | exact A1 |].
  change (occurs (lit "export") (ws2 ++ rest) = false).
  apply occurs_after_blanks; [reflexivity | exact A2 | exact Hexport].
Qed.

Variable pre : jsstring.

Hypothesis Hpre : occurs (lit "export") pre = false.

Lemma default_expression_kept_by_function_rule (tpl : jsstring) :
  replace_first export_default_function_re tpl (pre ++ source)
  = pre ++ source.
Proof.
  unfold export_default_function_re.
  change (pre ++ source) with
    (pre ++ 101%N :: lit "xport" ++ ws1 ++ lit "default" ++ ws2 ++ rest).
  rewrite (replace_first_skip 101%N (lit "export") _ _ pre _ eq_refl Hpre).
  f_equal.
  change (101%N :: lit "xport" ++ ws1 ++ lit "default" ++ ws2 ++ rest)
    with source.
  pose proof no_default_function_here as E.
  unfold export_default_function_re in E.
  change source with
    (101%N :: lit "xport" ++ ws1 ++ lit "default" ++ ws2 ++ rest) in *.
  cbn [replace_first]. rewrite E.
  rewrite (replace_first_absent _ _ _ _ no_export_after_keyword).
  reflexivity.
Qed.

Lemma default_expression_bound :
  replace_first export_default_re (lit "const App = ") (pre ++ source)
  = pre ++ lit "const App = " ++ rest.
Proof.
  unfold export_default_re.
  change (pre ++ source) with
    (pre ++ 101%N :: lit "xport" ++ ws1 ++ lit "default" ++ ws2 ++ rest).
  rewrite (replace_first_skip 101%N (lit "export") _ _ pre _ eq_refl Hpre).
  f_equal.
  exact (replace_first_here _ _ _ _ _ match_default_expression).
Qed.

Lemma no_export_after_binding :
  occurs (lit "export") (pre ++ lit "const App = " ++ rest) = false.
Proof.
  change (pre ++ lit "const App = " ++ rest) with
    (pre ++ 99%N :: lit "onst App = " ++ rest).
  rewrite (occurs_app_no_span 99%N (lit "export") pre _ eq_refl Hpre).
  exact Hexport.
Qed.

Lemma cleanedCode_default_expression (code : jsstring) :
  replace_all import_re (lit "") code = pre ++ source ->
  cleanedCode code = pre ++ lit "const App = " ++ rest.
Proof.
  intros Hi; unfold cleanedCode. rewrite Hi.
  rewrite default_expression_kept_by_function_rule.
  rewrite default_expression_bound.
  unfold export_re; rewrite (replace_all_absent _ _ _ _ no_export_after_binding).
  reflexivity.
Qed.

End DefaultExpression.


(** X1.  A default-exported expression is bound to the name [App]: when
    the source, its imports stripped, reads [<pre>export default <rest>]
    ([rest] not a function declaration, no other [export] around), the
    normalised source is [<pre>const App = <rest>]. *)
Theorem default_expression_is_bound_to_App
    (code pre ws1 ws2 rest : jsstring) :
  replace_all import_re (lit "") code
  = pre ++ Shapes.default_expression_source ws1 ws2 rest ->
  blanks ws1 = true -> blanks ws2 = true -> stops is_space rest = true ->
  strip_prefix (lit "function") rest = None ->
  occurs (lit "export") pre = false -> occurs (lit "export") rest = false ->
  cleanedCode code = pre ++ lit "const App = " ++ rest
  /\ occurs (lit "export") (cleanedCode code) = false.
Proof.
  intros Hi H1 H2 Hs Hf Hp He.
  assert (E : cleanedCode code = pre ++ lit "const App = " ++ rest)
    by (apply (cleanedCode_default_expression ws1 ws2); assumption).
  split; [exact E|]. rewrite E.
  apply no_export_after_binding; assumption.
Qed.

Lemma default_expression_is_bound_to_App_witness :
  cleanedCode
    (lit "import React from 'react';" ++ lit nl ++ lit "const n = 1;"
     ++ lit nl ++ lit "export default () => <p>{n}</p>")
  = (lit nl ++ lit "const n = 1;" ++ lit nl) ++ lit "const App = "
    ++ lit "() => <p>{n}</p>"
  /\ occurs (lit "export")
       (cleanedCode
          (lit "import React from 'react';" ++ lit nl ++ lit "const n = 1;"
           ++ lit nl ++ lit "export default () => <p>{n}</p>"))
     = false.
Proof.
  apply (default_expression_is_bound_to_App
           (lit "import React from 'react';" ++ lit nl ++ lit "const n = 1;"
            ++ lit nl ++ lit "export default () => <p>{n}</p>")
           (lit nl ++ lit "const n = 1;" ++ lit nl)
           (lit " ") (lit " ") (lit "() => <p>{n}</p>")); reflexivity.
Defined.

(** ** Global replacement, match by match *)

Lemma replace_all_from_skip (r : regex) (tpl w s : jsstring) :
  replace_all_from r tpl (length w) (w ++ s) = replace_all_from r tpl 0 s.
Proof. induction w as [|c w IH]; [reflexivity | exact IH]. Qed.

(** A match at the head is replaced, and the search goes on after it. *)
Lemma replace_all_here (r : regex) (tpl w rest : jsstring) (cs : captures) :
  w <> [] -> match_here r (w ++ rest) = Some (rest, cs) ->
  replace_all r tpl (w ++ rest)
  = substitute (ngroups r) tpl w cs ++ replace_all r tpl rest.
Proof.
  intros Hne H; unfold replace_all.
  destruct w as [|c w]; [congruence|].
  change ((c :: w) ++ rest) with (c :: w ++ rest) in *.
  cbn [replace_all_from]. rewrite H.
  change (c :: w ++ rest) with ((c :: w) ++ rest).
  rewrite firstn_length_app.
  rewrite length_app, Nat.add_sub. cbn [length].
  rewrite replace_all_from_skip; reflexivity.
Qed.

(** The first match is not in [pre], when the literal head of the pattern
    does not occur there. *)
Lemma replace_all_skip (d : char16) (p : jsstring) (r : regex)
    (tpl pre s : jsstring) :
  forallb (fun x => negb (x =? d)%N) (tl p) = true ->
  occurs p pre = false ->
  replace_all (chars p r) tpl (pre ++ d :: s)
  = pre ++ replace_all (chars p r) tpl (d :: s).
Proof.
  unfold replace_all.
  intros Hp; induction pre as [|c pre IH]; intros H; [reflexivity|].
  change ((c :: pre) ++ d :: s) with (c :: pre ++ d :: s).
  cbn [replace_all_from].
  change (c :: pre ++ d :: s) with ((c :: pre) ++ d :: s).
  rewrite (match_here_chars_none p r _
             (strip_prefix_no_span d p (c :: pre) s Hp
                ltac:(discriminate) (occurs_head _ _ H))).
  cbn [app]; rewrite (IH (occurs_tail _ _ _ H)); reflexivity.
Qed.

(** ** A named export *)

Section NamedExport.

Variables ws rest : jsstring.

Hypothesis Hws : blanks ws = true.
Hypothesis Hstop : stops is_space rest = true.
Hypothesis Hdefault : strip_prefix (lit "default") rest = None.
Hypothesis Hexport : occurs (lit "export") rest = false.

Local Abbreviation source := (Shapes.named_export_source ws rest).

(** Neither pattern for a default export matches here. *)
Lemma no_default_here (r : regex) :
  match_here (chars (lit "export") (Seq (Plus true CodePreview.ws)
                                      (chars (lit "default") r))) source
  = None.
Proof.
  destruct (blanks_spec _ Hws) as [N1 A1].
  unfold match_here, Shapes.named_export_source.
  rewrite m_chars, strip_prefix_app, m_seq.
  apply m_plus_none; auto.
  intros w1 [|c w2] -> _.
  - cbn [app]. rewrite m_chars, Hdefault; reflexivity.
  - apply (m_chars_in_run is_space); [reflexivity | | discriminate].
    apply (all_in_app_r _ _ _ A1).
Qed.

Lemma match_named_export :
  match_here export_re source = Some (rest, []).
Proof.
  destruct (blanks_spec _ Hws) as [N1 A1].
  unfold match_here, export_re, Shapes.named_export_source.
  rewrite m_chars, strip_prefix_app.
  apply m_plus_run; auto.
Qed.

Lemma no_export_after_named :
  occurs (lit "export") (lit "xport" ++ ws ++ rest) = false.
Proof.
  destruct (blanks_spec _ Hws) as [_ A1].
  change (occurs (lit "export") (ws ++ rest) = false).
  apply occurs_after_blanks; [reflexivity | exact A1 | exact Hexport].
Qed.

Variable pre : jsstring.

Hypothesis Hpre : occurs (lit "export") pre = false.

Lemma named_export_kept_by_default_rules (r : regex) (tpl : jsstring) :
  replace_first (chars (lit "export") (Seq (Plus true CodePreview.ws)
                                         (chars (lit "default") r)))
    tpl (pre ++ source)
  = pre ++ source.
Proof.
  change (pre ++ source) with (pre ++ 101%N :: lit "xport" ++ ws ++ rest).
  rewrite (replace_first_skip 101%N (lit "export") _ _ pre _ eq_refl Hpre).
  f_equal.
  pose proof (no_default_here r) as E.
  change source with (101%N :: lit "xport" ++ ws ++ rest) in E.
  cbn [replace_first].
  match goal with
  | |- match ?X with _ => _ end = _ =>
      replace X with (@None mstate) by (symmetry; exact E)
  end.
  rewrite (replace_first_absent _ _ _ _ no_export_after_named).
  reflexivity.
Qed.

Lemma cleanedCode_named_export (code : jsstring) :
  replace_all import_re (lit "") code = pre ++ source ->
  cleanedCode code = pre ++ rest.
Proof.
  intros Hi; unfold cleanedCode. rewrite Hi.
  unfold export_default_function_re.
  rewrite named_export_kept_by_default_rules.
  unfold export_default_re.
  rewrite named_export_kept_by_default_rules.
  unfold export_re.
  change (pre ++ source) with (pre ++ 101%N :: lit "xport" ++ ws ++ rest).
  rewrite (replace_all_skip 101%N (lit "export") _ _ pre _ eq_refl Hpre).
  f_equal.
  change (101%N :: lit "xport" ++ ws ++ rest) with ((lit "export" ++ ws) ++ rest).
  rewrite (replace_all_here _ (lit "") (lit "export" ++ ws) rest []);
    [| discriminate
     | rewrite <- app_assoc; exact match_named_export].
  cbn [substitute lit list_ascii_of_string List.map app].
  apply (replace_all_absent _ _ _ _ Hexport).
Qed.

End NamedExport.

(** X2.  A named export loses its keyword: when the source, its imports
    stripped, reads [<pre>export <rest>] ([rest] not going on with
    [default], no other [export] around), the normalised source is
    [<pre><rest>]. *)
Theorem named_export_loses_keyword (code pre ws rest : jsstring) :
  replace_all import_re (lit "") code
  = pre ++ Shapes.named_export_source ws rest ->
  blanks ws = true -> stops is_space rest = true ->
  strip_prefix (lit "default") rest = None ->
  occurs (lit "export") pre = false -> occurs (lit "export") rest = false ->
  cleanedCode code = pre ++ rest.
Proof.
  intros Hi Hw Hs Hd Hp He.
  apply (cleanedCode_named_export ws); assumption.
Qed.

Lemma named_export_loses_keyword_witness :
  cleanedCode (lit "const a = 1;" ++ lit nl
               ++ lit "export  const App = () => a;")
  = (lit "const a = 1;" ++ lit nl) ++ lit "const App = () => a;".
Proof.
  apply (named_export_loses_keyword
           (lit "const a = 1;" ++ lit nl ++ lit "export  const App = () => a;")
           (lit "const a = 1;" ++ lit nl) (lit "  ")
           (lit "const App = () => a;")); reflexivity.
Defined.


(** ** A default-exported function among named exports *)

(** A run of a class holds no character outside it. *)
Lemma run_apart (q : char16 -> bool) (d : char16) (w : jsstring) :
  q d = false -> all_in q w = true ->
  forallb (fun c => negb (c =? d)%N) w = true.
Proof.
  intros Hd; unfold all_in; induction w as [|c w IH]; intros H;
    [reflexivity|].
  cbn [forallb] in *; apply andb_true_iff in H as [Hc H].
  rewrite (IH H), andb_true_r.
  apply negb_true_iff.
  destruct (N.eqb_spec c d) as [E|]; [subst; congruence | reflexivity].
Qed.

(** No match begins at a character other than the first of the
    pattern. *)
Lemma replace_first_skip_other (x : char16) (p : jsstring) (r : regex)
    (tpl u s : jsstring) :
  forallb (fun c => negb (c =? x)%N) u = true ->
  replace_first (chars (x :: p) r) tpl (u ++ s)
  = u ++ replace_first (chars (x :: p) r) tpl s.
Proof.
  induction u as [|c u IH]; intros H; [reflexivity|].
  cbn [forallb] in H; apply andb_true_iff in H as [Hc H].
  apply negb_true_iff in Hc; rewrite N.eqb_sym in Hc.
  change ((c :: u) ++ s) with (c :: u ++ s).
  cbn [replace_first].
  rewrite (match_here_chars_none (x :: p) r (c :: u ++ s)
             (strip_prefix_other_head p x c _ Hc)).
  cbn [app]; rewrite (IH H); reflexivity.
Qed.

(** ** Where a word cannot be written across a joint *)

(** A pattern of word characters does not begin in a text that ends
    outside a word and run over its end. *)
Lemma strip_prefix_past_end (q : char16 -> bool) (p a b : jsstring) :
  all_in q p = true -> a <> [] -> Shapes.ends_outside q a = true ->
  strip_prefix p a = None -> strip_prefix p (a ++ b) = None.
Proof.
  unfold all_in; revert a; induction p as [|x p IH]; intros a Hp Hne He Ha;
    [discriminate Ha|].
  destruct a as [|c a]; [congruence|].
  cbn [forallb] in Hp; apply andb_true_iff in Hp as [Hx Hp].
  cbn [strip_prefix app] in *.
  destruct (N.eqb_spec x c) as [->|]; [|reflexivity].
  destruct a as [|c' a].
  - cbn [Shapes.ends_outside] in He. rewrite Hx in He; discriminate He.
  - apply IH; auto; discriminate.
Qed.

Lemma ends_outside_tail (q : char16 -> bool) (c : char16) (a : jsstring) :
  a <> [] -> Shapes.ends_outside q (c :: a) = Shapes.ends_outside q a.
Proof. destruct a; [congruence | reflexivity]. Qed.

Lemma occurs_past_end (q : char16 -> bool) (p a b : jsstring) :
  p <> [] -> all_in q p = true -> Shapes.ends_outside q a = true ->
  occurs p a = false -> occurs p (a ++ b) = occurs p b.
Proof.
  intros Hne Hp; induction a as [|c a IH]; intros He Ha; [reflexivity|].
  change (starts_with p ((c :: a) ++ b) || occurs p (a ++ b) = occurs p b).
  unfold starts_with.
  rewrite (strip_prefix_past_end q p (c :: a) b Hp ltac:(discriminate) He
             (occurs_head _ _ Ha)).
  cbn [orb].
  destruct a as [|c' a]; [reflexivity|].
  apply IH; [exact He | exact (occurs_tail _ _ _ Ha)].
Qed.

(** Nor does it run from a text into one that begins outside a word. *)
Lemma strip_prefix_into_start (q : char16 -> bool) (p a b : jsstring) :
  all_in q p = true -> stops q b = true ->
  strip_prefix p a = None -> strip_prefix p (a ++ b) = None.
Proof.
  unfold all_in; revert a; induction p as [|x p IH]; intros a Hp Hb Ha;
    [discriminate Ha|].
  cbn [forallb] in Hp; apply andb_true_iff in Hp as [Hx Hp].
  destruct a as [|c a].
  - destruct b as [|d b]; [reflexivity|].
    cbn [app strip_prefix]. cbn [stops] in Hb.
    destruct (N.eqb_spec x d) as [->|]; [|reflexivity].
    rewrite Hx in Hb; discriminate Hb.
  - cbn [strip_prefix app] in *.
    destruct (x =? c)%N; [apply IH; auto | reflexivity].
Qed.

Lemma occurs_into_start (q : char16 -> bool) (p a b : jsstring) :
  p <> [] -> all_in q p = true -> stops q b = true ->
  occurs p a = false -> occurs p (a ++ b) = occurs p b.
Proof.
  intros Hne Hp Hb; induction a as [|c a IH]; intros Ha; [reflexivity|].
  change (starts_with p ((c :: a) ++ b) || occurs p (a ++ b) = occurs p b).
  unfold starts_with.
  rewrite (strip_prefix_into_start q p (c :: a) b Hp Hb (occurs_head _ _ Ha)).
  exact (IH (occurs_tail _ _ _ Ha)).
Qed.

(** ** Texts that hold [export] only inside longer words *)

Lemma strip_prefix_app_some (p a rest b : jsstring) :
  strip_prefix p a = Some rest -> strip_prefix p (a ++ b) = Some (rest ++ b).
Proof.
  revert a; induction p as [|x p IH]; intros a H.
  - inversion H; reflexivity.
  - destruct a as [|c a]; [discriminate H|].
    cbn [strip_prefix app] in *.
    destruct (x =? c)%N; [apply IH; exact H | discriminate H].
Qed.

Lemma keyword_in_head (s : jsstring) :
  Shapes.keyword_in s = false -> Shapes.keyword_here s = false.
Proof.
  destruct s; cbn [Shapes.keyword_in]; intros H;
    apply orb_false_iff in H; tauto.
Qed.

Lemma keyword_in_tail (c : char16) (s : jsstring) :
  Shapes.keyword_in (c :: s) = false -> Shapes.keyword_in s = false.
Proof.
  cbn [Shapes.keyword_in]; intros H; apply orb_false_iff in H; tauto.
Qed.

(** A text without the text [export] is without the keyword. *)
Lemma keyword_in_absent (s : jsstring) :
  occurs (lit "export") s = false -> Shapes.keyword_in s = false.
Proof.
  induction s as [|c s IH]; intros H.
  - reflexivity.
  - cbn [Shapes.keyword_in]; unfold Shapes.keyword_here.
    rewrite (occurs_head _ _ H), (IH (occurs_tail _ _ _ H)); reflexivity.
Qed.

(** Where the keyword is not at the head of [u], it is not at the head
    of [u] followed by more text, unless the word itself runs over the
    joint. *)
Lemma keyword_here_app (u b : jsstring) :
  Shapes.keyword_here u = false ->
  (strip_prefix (lit "export") u = None ->
   strip_prefix (lit "export") (u ++ b) = None) ->
  Shapes.keyword_here (u ++ b) = false.
Proof.
  unfold Shapes.keyword_here; intros Hk Hj.
  destruct (strip_prefix (lit "export") u) as [rest|] eqn:E.
  - rewrite (strip_prefix_app_some _ _ _ b E).
    destruct rest as [|c rest]; [discriminate Hk | exact Hk].
  - rewrite (Hj eq_refl); reflexivity.
Qed.

Lemma keyword_in_no_span (d : char16) (a s : jsstring) :
  forallb (fun x => negb (x =? d)%N) (lit "xport") = true ->
  Shapes.keyword_in a = false ->
  Shapes.keyword_in (a ++ d :: s) = Shapes.keyword_in (d :: s).
Proof.
  intros Hd; induction a as [|c a IH]; intros H; [reflexivity|].
  change (Shapes.keyword_here ((c :: a) ++ d :: s)
          || Shapes.keyword_in (a ++ d :: s) = Shapes.keyword_in (d :: s)).
  rewrite (keyword_here_app (c :: a) (d :: s) (keyword_in_head _ H)).
  - exact (IH (keyword_in_tail _ _ H)).
  - apply (strip_prefix_no_span d (lit "export")); [exact Hd | discriminate].
Qed.

Lemma keyword_in_past_end (a b : jsstring) :
  Shapes.ends_outside is_word a = true ->
  Shapes.keyword_in a = false ->
  Shapes.keyword_in (a ++ b) = Shapes.keyword_in b.
Proof.
  induction a as [|c a IH]; intros He H; [reflexivity|].
  change (Shapes.keyword_here ((c :: a) ++ b)
          || Shapes.keyword_in (a ++ b) = Shapes.keyword_in b).
  rewrite (keyword_here_app (c :: a) b (keyword_in_head _ H)).
  - destruct a as [|c' a]; [reflexivity|].
    apply IH; [exact He | exact (keyword_in_tail _ _ H)].
  - apply (strip_prefix_past_end is_word);
      [reflexivity | discriminate | exact He].
Qed.

Lemma keyword_in_into_start (a b : jsstring) :
  stops is_word b = true ->
  Shapes.keyword_in a = false ->
  Shapes.keyword_in (a ++ b) = Shapes.keyword_in b.
Proof.
  intros Hb; induction a as [|c a IH]; intros H; [reflexivity|].
  change (Shapes.keyword_here ((c :: a) ++ b)
          || Shapes.keyword_in (a ++ b) = Shapes.keyword_in b).
  rewrite (keyword_here_app (c :: a) b (keyword_in_head _ H)).
  - exact (IH (keyword_in_tail _ _ H)).
  - apply (strip_prefix_into_start is_word); [reflexivity | exact Hb].
Qed.

(** ** A rule that asks for white space after [export] *)

Lemma plus_needs_space (s : jsstring) (cs : captures) (k : cont) :
  stops is_space s = true -> m (Plus true CodePreview.ws) s cs k = None.
Proof.
  intros H.
  apply (m_plus_none is_space [] s cs k eq_refl H).
  intros w1 w2 E Hne; destruct w1; [congruence | discriminate E].
Qed.

Section KeywordRule.

Variable r : regex.
Variable tpl : jsstring.

Hypothesis needs_space :
  forall s cs k, stops is_space s = true -> m r s cs k = None.

Local Abbreviation rule := (chars (lit "export") r).

(** The rule does not match where [export] begins a longer word. *)
Lemma rule_none_here (u s : jsstring) :
  Shapes.keyword_here u = false ->
  (strip_prefix (lit "export") u = None ->
   strip_prefix (lit "export") (u ++ s) = None) ->
  match_here rule (u ++ s) = None.
Proof.
  unfold Shapes.keyword_here, match_here; intros Hk Hj; rewrite m_chars.
  destruct (strip_prefix (lit "export") u) as [rest|] eqn:E.
  - rewrite (strip_prefix_app_some _ _ _ s E).
    destruct rest as [|c rest]; [discriminate Hk|].
    cbn [stops] in Hk; apply negb_false_iff in Hk.
    apply needs_space; cbn [app stops].
    rewrite (word_not_space c Hk); reflexivity.
  - rewrite (Hj eq_refl); reflexivity.
Qed.

(** So it passes a text without the keyword, up to a character at which
    the word cannot go on. *)
Lemma replace_first_passes (d : char16) (t s : jsstring) :
  forallb (fun x => negb (x =? d)%N) (lit "xport") = true ->
  Shapes.keyword_in t = false ->
  replace_first rule tpl (t ++ d :: s)
  = t ++ replace_first rule tpl (d :: s).
Proof.
  intros Hd; induction t as [|c t IH]; intros H; [reflexivity|].
  change ((c :: t) ++ d :: s) with (c :: t ++ d :: s).
  cbn [replace_first].
  change (c :: t ++ d :: s) with ((c :: t) ++ d :: s).
  rewrite (rule_none_here (c :: t) (d :: s) (keyword_in_head _ H)).
  - cbn [app]; rewrite (IH (keyword_in_tail _ _ H)); reflexivity.
  - apply (strip_prefix_no_span d (lit "export")); [exact Hd | discriminate].
Qed.

Lemma replace_all_passes (d : char16) (t s : jsstring) :
  forallb (fun x => negb (x =? d)%N) (lit "xport") = true ->
  Shapes.keyword_in t = false ->
  replace_all rule tpl (t ++ d :: s) = t ++ replace_all rule tpl (d :: s).
Proof.
  unfold replace_all.
  intros Hd; induction t as [|c t IH]; intros H; [reflexivity|].
  change ((c :: t) ++ d :: s) with (c :: t ++ d :: s).
  cbn [replace_all_from].
  change (c :: t ++ d :: s) with ((c :: t) ++ d :: s).
  rewrite (rule_none_here (c :: t) (d :: s) (keyword_in_head _ H)).
  - cbn [app]; rewrite (IH (keyword_in_tail _ _ H)); reflexivity.
  - apply (strip_prefix_no_span d (lit "export")); [exact Hd | discriminate].
Qed.

(** And it leaves such a text as it is. *)
Lemma replace_first_keeps (t : jsstring) :
  Shapes.keyword_in t = false -> replace_first rule tpl t = t.
Proof.
  induction t as [|c t IH]; intros H.
  - cbn [replace_first].
    pose proof (rule_none_here [] [] eq_refl (fun E => E)) as E.
    cbn [app] in E; rewrite E; reflexivity.
  - cbn [replace_first].
    pose proof (rule_none_here (c :: t) [] (keyword_in_head _ H)) as E.
    rewrite app_nil_r in E; rewrite (E (fun E' => E')).
    rewrite (IH (keyword_in_tail _ _ H)); reflexivity.
Qed.

Lemma replace_all_keeps (t : jsstring) :
  Shapes.keyword_in t = false -> replace_all rule tpl t = t.
Proof.
  unfold replace_all.
  induction t as [|c t IH]; intros H.
  - cbn [replace_all_from].
    pose proof (rule_none_here [] [] eq_refl (fun E => E)) as E.
    cbn [app] in E; rewrite E; reflexivity.
  - cbn [replace_all_from].
    pose proof (rule_none_here (c :: t) [] (keyword_in_head _ H)) as E.
    rewrite app_nil_r in E; rewrite (E (fun E' => E')).
    rewrite (IH (keyword_in_tail _ _ H)); reflexivity.
Qed.

End KeywordRule.

Lemma default_rules_need_space (r : regex) (s : jsstring) (cs : captures)
    (k : cont) :
  stops is_space s = true ->
  m (Seq (Plus true CodePreview.ws) (chars (lit "default") r)) s cs k = None.
Proof. intros H; rewrite m_seq; apply plus_needs_space; exact H. Qed.

Section AmongExports.

Variable r : regex.
Variable tpl : jsstring.

Local Abbreviation default_rule :=
  (chars (lit "export") (Seq (Plus true CodePreview.ws)
                           (chars (lit "default") r))).

(** Neither rule for a default export stops at a named export. *)
Lemma default_rule_passes_export (t ws rest : jsstring) :
  Shapes.keyword_in t = false -> blanks ws = true ->
  stops is_space rest = true ->
  strip_prefix (lit "default") rest = None ->
  replace_first default_rule tpl (t ++ Shapes.named_export_source ws rest)
  = t ++ Shapes.named_export_source ws (replace_first default_rule tpl rest).
Proof.
  intros Ht Hws Hstop Hdefault.
  destruct (blanks_spec _ Hws) as [_ A1].
  unfold Shapes.named_export_source.
  change (t ++ lit "export" ++ ws ++ rest)
    with (t ++ 101%N :: lit "xport" ++ ws ++ rest).
  rewrite (replace_first_passes _ tpl (default_rules_need_space r)
             101%N t _ eq_refl Ht).
  f_equal.
  pose proof (no_default_here ws rest Hws Hstop Hdefault r) as E.
  unfold Shapes.named_export_source in E.
  change (lit "export" ++ ws ++ rest)
    with (101%N :: lit "xport" ++ ws ++ rest) in E.
  cbn [replace_first].
  match goal with
  | |- match ?X with _ => _ end = _ =>
      replace X with (@None mstate) by (symmetry; exact E)
  end.
  change (lit "export" ++ ws ++ replace_first default_rule tpl rest)
    with (101%N :: lit "xport" ++ ws ++ replace_first default_rule tpl rest).
  f_equal.
  rewrite (app_assoc (lit "xport") ws rest).
  rewrite (replace_first_skip_other 101%N (lit "xport") _ tpl
             (lit "xport" ++ ws) rest).
  - rewrite <- app_assoc; reflexivity.
  - rewrite forallb_app; apply andb_true_iff; split; [reflexivity|].
    apply (run_apart is_space); [reflexivity | exact A1].
Qed.

Lemma default_rule_passes_exports (pieces : list (jsstring * jsstring))
    (last : jsstring) :
  Shapes.named_exports pieces last = true ->
  replace_first default_rule tpl (Shapes.with_exports pieces last)
  = Shapes.with_exports pieces (replace_first default_rule tpl last).
Proof.
  induction pieces as [|[t ws] more IH]; intros H; [reflexivity|].
  cbn [Shapes.named_exports Shapes.with_exports] in *.
  rewrite !andb_true_iff in H.
  destruct H as [[[[[Ht _] Hws] Hstop] Hdef] Hmore].
  apply negb_true_iff in Ht; apply negb_true_iff in Hdef.
  rewrite default_rule_passes_export; auto.
  - rewrite (IH Hmore); reflexivity.
  - unfold starts_with in Hdef.
    destruct (strip_prefix (lit "default") _); [discriminate | reflexivity].
Qed.

End AmongExports.

(** The global rule removes the keyword of a named export and the white
    space after it. *)
Lemma export_rule_takes_export (t ws rest : jsstring) :
  Shapes.keyword_in t = false -> blanks ws = true ->
  stops is_space rest = true ->
  replace_all export_re (lit "") (t ++ Shapes.named_export_source ws rest)
  = t ++ replace_all export_re (lit "") rest.
Proof.
  intros Ht Hws Hstop.
  unfold export_re, Shapes.named_export_source.
  change (t ++ lit "export" ++ ws ++ rest)
    with (t ++ 101%N :: lit "xport" ++ ws ++ rest).
  rewrite (replace_all_passes _ (lit "") plus_needs_space
             101%N t _ eq_refl Ht).
  f_equal.
  change (101%N :: lit "xport" ++ ws ++ rest)
    with ((lit "export" ++ ws) ++ rest).
  rewrite (replace_all_here _ (lit "") (lit "export" ++ ws) rest []);
    [reflexivity | discriminate |].
  rewrite <- app_assoc.
  exact (match_named_export ws rest Hws Hstop).
Qed.

Lemma export_rule_takes_exports (pieces : list (jsstring * jsstring))
    (last : jsstring) :
  Shapes.named_exports pieces last = true ->
  replace_all export_re (lit "") (Shapes.with_exports pieces last)
  = Shapes.without_exports pieces (replace_all export_re (lit "") last).
Proof.
  induction pieces as [|[t ws] more IH]; intros H; [reflexivity|].
  cbn [Shapes.named_exports Shapes.with_exports Shapes.without_exports] in *.
  rewrite !andb_true_iff in H.
  destruct H as [[[[[Ht _] Hws] Hstop] _] Hmore].
  apply negb_true_iff in Ht.
  rewrite export_rule_takes_export; auto.
  rewrite (IH Hmore); reflexivity.
Qed.

(** Once the keywords are removed, none is left before the last text. *)
Lemma keyword_in_without_exports (pieces : list (jsstring * jsstring))
    (last rest : jsstring) :
  Shapes.named_exports pieces last = true ->
  Shapes.keyword_in (Shapes.without_exports pieces rest)
  = Shapes.keyword_in rest.
Proof.
  induction pieces as [|[t ws] more IH]; intros H; [reflexivity|].
  cbn [Shapes.named_exports Shapes.without_exports] in *.
  rewrite !andb_true_iff in H.
  destruct H as [[[[[Ht He] _] _] _] Hmore].
  apply negb_true_iff in Ht.
  rewrite (keyword_in_past_end t _ He Ht).
  exact (IH Hmore).
Qed.

(** What begins a text with named exports begins it without them. *)
Lemma stops_without_exports (pieces : list (jsstring * jsstring))
    (last : jsstring) :
  stops is_word (Shapes.with_exports pieces last) = true ->
  stops is_word (Shapes.without_exports pieces last) = true.
Proof.
  destruct pieces as [|[[|c t] ws] more]; [auto | discriminate | auto].
Qed.

(** Whether a text goes on with [default] is decided before the [x] of a
    keyword [export] or the [u] of [function] that stands in it. *)
Lemma default_before_keyword (a z z' : jsstring) :
  starts_with (lit "default") (a ++ lit "export" ++ z)
  = starts_with (lit "default") (a ++ lit "function " ++ z').
Proof.
  unfold starts_with.
  change (lit "default") with [100; 101; 102; 97; 117; 108; 116]%N.
  change (lit "export") with [101; 120; 112; 111; 114; 116]%N.
  change (lit "function ")
    with [102; 117; 110; 99; 116; 105; 111; 110; 32]%N.
  do 7 (destruct a as [|? a];
        [cbn [app strip_prefix];
         repeat match goal with
                | |- context [(?x =? ?y)%N] =>
                    destruct (N.eqb_spec x y); try subst;
                    try discriminate; cbn [strip_prefix]
                end; try reflexivity|]).
  cbn [app strip_prefix].
  repeat match goal with
         | |- context [(?x =? ?y)%N] => destruct (x =? y)%N
         end; reflexivity.
Qed.

Lemma default_before_export (t ws z z' : jsstring) :
  starts_with (lit "default") (t ++ Shapes.named_export_source ws z)
  = starts_with (lit "default") (t ++ Shapes.named_export_source ws z').
Proof.
  unfold Shapes.named_export_source.
  rewrite (default_before_keyword t (ws ++ z) []).
  rewrite (default_before_keyword t (ws ++ z') []).
  reflexivity.
Qed.

(** The conditions on named exports look at the text after the last of
    them only for how it begins. *)
Lemma named_exports_ext (pieces : list (jsstring * jsstring))
    (last last' : jsstring) :
  stops is_space last = stops is_space last' ->
  starts_with (lit "default") last = starts_with (lit "default") last' ->
  Shapes.named_exports pieces last = Shapes.named_exports pieces last'.
Proof.
  intros Hs Hd; induction pieces as [|[t ws] more IH]; [reflexivity|].
  cbn [Shapes.named_exports]. rewrite IH.
  destruct more as [|[t' ws'] more'].
  - cbn [Shapes.with_exports]; rewrite Hs, Hd; reflexivity.
  - cbn [Shapes.with_exports].
    rewrite (default_before_export t' ws' _
               (Shapes.with_exports more' last')).
    replace (stops is_space
               (t' ++ Shapes.named_export_source ws'
                        (Shapes.with_exports more' last)))
      with (stops is_space
              (t' ++ Shapes.named_export_source ws'
                       (Shapes.with_exports more' last')))
      by (destruct t'; reflexivity).
    reflexivity.
Qed.

(** ** The four rules on such a source *)

Section FunctionAmongExports.

Variables before after : list (jsstring * jsstring).
Variables pre ws1 ws2 ws3 name last : jsstring.

Local Abbreviation rest := (Shapes.with_exports after last).
Local Abbreviation declaration :=
  (pre ++ default_function_source ws1 ws2 ws3 name rest).

Hypothesis Hbefore : Shapes.named_exports before declaration = true.
Hypothesis Hpre : Shapes.keyword_in pre = false.
Hypothesis Hws1 : blanks ws1 = true.
Hypothesis Hws2 : blanks ws2 = true.
Hypothesis Hws3 : blanks ws3 = true.
Hypothesis Hname : identifier name = true.
Hypothesis Hplain : Shapes.keyword_in name = false.
Hypothesis Hrest : stops is_word rest = true.
Hypothesis Hafter : Shapes.named_exports after last = true.
Hypothesis Hlast : Shapes.keyword_in last = false.

Local Abbreviation head := (pre ++ lit "function " ++ name).

Lemma no_keyword_in_head : Shapes.keyword_in head = false.
Proof.
  change (pre ++ lit "function " ++ name)
    with (pre ++ 102%N :: lit "unction " ++ name).
  rewrite (keyword_in_no_span 102%N pre _ eq_refl Hpre).
  change (102%N :: lit "unction " ++ name) with (lit "function " ++ name).
  rewrite (keyword_in_past_end (lit "function ") name eq_refl eq_refl).
  exact Hplain.
Qed.

Lemma head_joint (b : jsstring) :
  stops is_word b = true ->
  Shapes.keyword_in (head ++ b) = Shapes.keyword_in b.
Proof.
  intros Hb; apply keyword_in_into_start;
    [exact Hb | exact no_keyword_in_head].
Qed.

(** The text after the name, with the head before it, is again a text
    with named exports. *)
Lemma head_and_rest :
  exists pieces last',
    head ++ rest = Shapes.with_exports pieces last'
    /\ head ++ Shapes.without_exports after last
       = Shapes.without_exports pieces last'
    /\ Shapes.named_exports pieces last' = true
    /\ Shapes.keyword_in last' = false.
Proof.
  destruct after as [|[t ws] more] eqn:E.
  - exists [], (head ++ last); repeat split.
    cbn [Shapes.with_exports] in Hrest.
    rewrite (head_joint last Hrest); exact Hlast.
  - exists ((head ++ t, ws) :: more), last.
    cbn [Shapes.with_exports Shapes.without_exports Shapes.named_exports]
      in *.
    rewrite !andb_true_iff in Hafter.
    destruct Hafter as [[[[[Ht He] Hw] Hs] Hd] Hm].
    apply negb_true_iff in Ht.
    split; [rewrite <- !app_assoc; reflexivity|].
    split; [rewrite <- !app_assoc; reflexivity|].
    split; [|exact Hlast].
    assert (Hne : t <> []) by (intros ->; discriminate Hrest).
    assert (Hst : stops is_word t = true)
      by (destruct t; [congruence | exact Hrest]).
    rewrite !andb_true_iff; repeat split; auto.
    + apply negb_true_iff; rewrite (head_joint t Hst); exact Ht.
    + clear - He Hne.
      induction (pre ++ lit "function " ++ name) as [|c u IH];
        [exact He|].
      change ((c :: u) ++ t) with (c :: u ++ t).
      rewrite ends_outside_tail; [exact IH|].
      destruct u; [exact Hne | discriminate].
Qed.

(** The rule for a default-exported function reaches the declaration
    and rewrites it. *)
Lemma function_rule_among_exports :
  replace_first export_default_function_re (lit "function $1")
    (Shapes.with_exports before declaration)
  = Shapes.with_exports before (head ++ rest).
Proof.
  unfold export_default_function_re.
  rewrite (default_rule_passes_exports _ _ before declaration Hbefore).
  change (pre ++ default_function_source ws1 ws2 ws3 name rest)
    with (pre ++ 101%N :: lit "xport" ++ ws1 ++ lit "default" ++ ws2
          ++ lit "function" ++ ws3 ++ name ++ rest).
  rewrite (replace_first_passes _ (lit "function $1")
             (default_rules_need_space _) 101%N pre _ eq_refl Hpre).
  change (101%N :: lit "xport" ++ ws1 ++ lit "default" ++ ws2
          ++ lit "function" ++ ws3 ++ name ++ rest)
    with (default_function_source ws1 ws2 ws3 name rest).
  fold export_default_function_re.
  rewrite (replace_default_function ws1 ws2 ws3 name rest
             Hws1 Hws2 Hws3 Hname Hrest).
  rewrite <- !app_assoc; reflexivity.
Qed.

(** The named exports before the declaration are named exports before
    the rewritten declaration. *)
Lemma before_rewritten :
  Shapes.named_exports before (head ++ rest) = true.
Proof.
  transitivity (Shapes.named_exports before declaration); [|exact Hbefore].
  apply named_exports_ext.
  - destruct pre; reflexivity.
  - rewrite <- !app_assoc; symmetry.
    exact (default_before_keyword pre _ (name ++ rest)).
Qed.

Lemma cleanedCode_function_among_exports (code : jsstring) :
  replace_all import_re (lit "") code
  = Shapes.with_exports before declaration ->
  cleanedCode code
  = Shapes.without_exports before
      (head ++ Shapes.without_exports after last).
Proof.
  intros Hi; unfold cleanedCode; rewrite Hi.
  destruct head_and_rest as (pieces & last' & E1 & E2 & Hp & Hl).
  rewrite function_rule_among_exports.
  unfold export_default_re.
  rewrite (default_rule_passes_exports _ _ before _ before_rewritten).
  rewrite E1, (default_rule_passes_exports _ _ pieces last' Hp).
  rewrite (replace_first_keeps _ _ (default_rules_need_space _) _ Hl).
  rewrite (export_rule_takes_exports before).
  - rewrite (export_rule_takes_exports pieces last' Hp).
    unfold export_re.
    rewrite (replace_all_keeps _ _ plus_needs_space _ Hl).
    rewrite <- E2; reflexivity.
  - rewrite <- E1; exact before_rewritten.
Qed.

Lemma no_keyword_among_exports :
  Shapes.keyword_in
    (Shapes.without_exports before
       (head ++ Shapes.without_exports after last)) = false.
Proof.
  rewrite (keyword_in_without_exports before _ _ Hbefore).
  rewrite (head_joint _ (stops_without_exports after last Hrest)).
  rewrite (keyword_in_without_exports after last last Hafter).
  exact Hlast.
Qed.

Lemma without_exports_app (pieces : list (jsstring * jsstring))
    (a b : jsstring) :
  Shapes.without_exports pieces (a ++ b)
  = Shapes.without_exports pieces a ++ b.
Proof.
  induction pieces as [|[t ws] more IH]; [reflexivity|].
  cbn [Shapes.without_exports]; rewrite IH, app_assoc; reflexivity.
Qed.

Lemma declared_among_exports :
  declares_function name
    (Shapes.without_exports before
       (head ++ Shapes.without_exports after last)) = true.
Proof.
  rewrite <- (app_assoc pre), without_exports_app.
  rewrite <- app_assoc.
  apply declares_function_app_r.
  apply (declares_default_function name); auto.
  apply stops_without_exports, Hrest.
Qed.

End FunctionAmongExports.



(** Outside that shape a keyword can be left, or the name lost.  The
    global rule asks for white space after the keyword, so an export list
    written without it stays; it takes the keyword wherever it is
    written, so text can close up around it; and it takes it out of a
    name that ends with it. *)
Example export_left_outside_named_exports :
  cleanedCode (lit "export default function Widget(){ return null }"
               ++ lit nl ++ lit "export{Widget as W};")
  = lit "function Widget(){ return null }" ++ lit nl
    ++ lit "export{Widget as W};"
  /\ cleanedCode (lit "export default function Widget(){ return null }"
                  ++ lit nl ++ lit "const exexport port = 1;")
     = lit "function Widget(){ return null }" ++ lit nl
       ++ lit "const export = 1;"
  /\ cleanedCode (lit "export default function my_export () { return null }")
     = lit "function my_() { return null }".
Proof. repeat split; vm_compute; reflexivity. Qed.

(** A default-exported function without a name is not a declaration the
    function rule reads: the next rule binds the function expression to
    [App]. *)
Example anonymous_default_function_is_bound :
  cleanedCode (lit "export default function () { return null }")
  = lit "const App = function () { return null }".
Proof. vm_compute; reflexivity. Qed.

(** ** An import statement with a [from] clause *)

(** The lazy loop over a class stops at the first place where the
    continuation succeeds. *)
Lemma star_loop_lazy_run (p : char16 -> bool) (x s : jsstring)
    (cs : captures) (k : cont) (res : mstate) (n : nat) :
  all_in p x = true -> length (x ++ s) <= n ->
  (forall x1 x2, x = x1 ++ x2 -> x2 <> [] -> k (x2 ++ s) cs = None) ->
  k s cs = Some res ->
  star_loop (m (Cls p)) false n (x ++ s) cs k = Some res.
Proof.
  revert n; induction x as [|c x IH]; intros n Hx Hn Hfail Hk.
  - destruct n as [|n]; simpl; [exact Hk | rewrite Hk; reflexivity].
  - simpl in Hx; apply andb_true_iff in Hx; destruct Hx as [Hc Hx].
    destruct n as [|n]; [simpl in Hn; lia|].
    simpl in Hn. cbn [star_loop app m].
    pose proof (Hfail [] (c :: x) eq_refl ltac:(discriminate)) as F.
    cbn [app] in F; rewrite F, Hc.
    replace (length (x ++ s) <? length (c :: x ++ s)) with true
      by (symmetry; apply Nat.ltb_lt; simpl; lia).
    assert (E : star_loop (m (Cls p)) false n (x ++ s) cs k = Some res).
    { apply IH; auto; [lia|].
      intros x1 x2 -> Hne; apply (Hfail (c :: x1) x2); [reflexivity | exact Hne]. }
    cbn [m] in E; rewrite E; reflexivity.
Qed.

Lemma m_star_lazy_run (p : char16 -> bool) (x s : jsstring)
    (cs : captures) (k : cont) (res : mstate) :
  all_in p x = true ->
  (forall x1 x2, x = x1 ++ x2 -> x2 <> [] -> k (x2 ++ s) cs = None) ->
  k s cs = Some res ->
  m (Star false (Cls p)) (x ++ s) cs k = Some res.
Proof.
  intros Hx Hfail Hk.
  change (star_loop (m (Cls p)) false (length (x ++ s)) (x ++ s) cs k
          = Some res).
  apply star_loop_lazy_run; auto.
Qed.

Lemma occurs_app_suffix (p a b : jsstring) :
  occurs p (a ++ b) = false -> occurs p b = false.
Proof.
  induction a as [|c a IH]; intros H; [exact H|].
  apply IH, (occurs_tail p c (a ++ b)), H.
Qed.

Lemma strip_prefix_app_none (p a b : jsstring) :
  strip_prefix p (a ++ b) = None -> strip_prefix p a = None.
Proof.
  revert a; induction p as [|x p IH]; intros a H; [discriminate H|].
  destruct a as [|c a]; [reflexivity|]; simpl in *.
  destruct (x =? c)%N; [apply IH; exact H | reflexivity].
Qed.

Lemma occurs_app_prefix (p a b : jsstring) :
  occurs p (a ++ b) = false -> occurs p a = false.
Proof.
  induction a as [|c a IH]; intros H.
  - simpl; unfold starts_with.
    rewrite (strip_prefix_app_none p [] b (occurs_head _ _ H)); reflexivity.
  - change (starts_with p (c :: a) || occurs p a = false).
    unfold starts_with.
    rewrite (strip_prefix_app_none p (c :: a) b (occurs_head _ _ H)).
    apply IH, (occurs_tail p c (a ++ b)), H.
Qed.

Lemma all_in_any (s : jsstring) : all_in is_any s = true.
Proof.
  induction s as [|c s IH]; [reflexivity|]; simpl; rewrite IH.
  unfold is_any; destruct (is_space c); reflexivity.
Qed.

Lemma quote_not_space (c : char16) : is_quote c = true -> is_space c = false.
Proof.
  unfold is_quote; intros H; apply orb_true_iff in H.
  destruct H as [H | H]; apply N.eqb_eq in H; subst c; reflexivity.
Qed.

Section ImportStatement.

Variables ws1 bindings ws2 module rest : jsstring.
Variables q1 q2 : char16.
Variable semicolon : bool.

Hypothesis Hws1 : blanks ws1 = true.
Hypothesis Hbind : stops is_space (bindings ++ lit "from") = true.
Hypothesis Hfrom : occurs (lit "from") bindings = false.
Hypothesis Hws2 : blanks ws2 = true.
Hypothesis Hq1 : is_quote q1 = true.
Hypothesis Hmod : Shapes.none_in is_quote module = true.
Hypothesis Hline : all_in is_dot module = true.
Hypothesis Hq2 : is_quote q2 = true.
Hypothesis Hsemi :
  semicolon = true \/ stops (fun c => (c =? 59)%N) rest = true.

Local Abbreviation statement :=
  (Shapes.import_statement ws1 bindings ws2 q1 module q2 semicolon).

(** The closing quote and the optional semicolon. *)
Lemma match_closing_quote :
  m (Seq (Cls is_quote) (Opt (Chr 59%N)))
    (q2 :: (if semicolon then [59%N] else []) ++ rest) []
    (fun s' cs' => Some (s', cs'))
  = Some (rest, []).
Proof.
  rewrite m_seq; cbn [m]; rewrite Hq2.
  unfold Opt; cbn [m].
  destruct semicolon; [reflexivity|].
  destruct Hsemi as [H | H]; [discriminate H|].
  destruct rest as [|c l]; [reflexivity|]; simpl in *.
  apply negb_true_iff in H; rewrite H; reflexivity.
Qed.

(** The lazy run over the module name, up to the closing quote. *)
Lemma match_module :
  m (Seq (Star false (Cls is_dot)) (Seq (Cls is_quote) (Opt (Chr 59%N))))
    (module ++ q2 :: (if semicolon then [59%N] else []) ++ rest) []
    (fun s' cs' => Some (s', cs'))
  = Some (rest, []).
Proof.
  rewrite m_seq.
  apply m_star_lazy_run; [exact Hline | | exact match_closing_quote].
  intros x1 [|c x2] E Hne; [congruence|].
  assert (Hc : is_quote c = false).
  { unfold Shapes.none_in in Hmod; rewrite E, forallb_app in Hmod.
    apply andb_true_iff in Hmod; destruct Hmod as [_ H]; simpl in H.
    apply andb_true_iff in H; destruct H as [H _].
    apply negb_true_iff, H. }
  rewrite m_seq; cbn [m app]; rewrite Hc; reflexivity.
Qed.

(** The pattern from the word [from] on. *)
Lemma match_from_clause :
  m (chars (lit "from")
       (Seq (Plus true CodePreview.ws)
          (Seq (Cls is_quote)
             (Seq (Star false (Cls is_dot))
                (Seq (Cls is_quote) (Opt (Chr 59%N)))))))
    (lit "from" ++ ws2 ++ q1 :: module
     ++ q2 :: (if semicolon then [59%N] else []) ++ rest) []
    (fun s' cs' => Some (s', cs'))
  = Some (rest, []).
Proof.
  destruct (blanks_spec _ Hws2) as [N2 A2].
  rewrite m_chars, strip_prefix_app, m_seq.
  apply m_plus_run; auto.
  - simpl; rewrite (quote_not_space _ Hq1); reflexivity.
  - rewrite m_seq; cbn [m]; rewrite Hq1. exact match_module.
Qed.

Lemma statement_split :
  statement ++ rest
  = lit "import" ++ ws1 ++ bindings ++ lit "from" ++ ws2 ++ q1 :: module
    ++ q2 :: (if semicolon then [59%N] else []) ++ rest.
Proof.
  unfold Shapes.import_statement.
  repeat (rewrite <- ?app_assoc, <- ?app_comm_cons); reflexivity.
Qed.

Lemma match_import_statement :
  match_here import_re (statement ++ rest) = Some (rest, []).
Proof.
  destruct (blanks_spec _ Hws1) as [N1 A1].
  rewrite statement_split.
  unfold match_here, import_re.
  rewrite m_chars, strip_prefix_app, m_seq.
  apply m_plus_run; auto.
  { destruct bindings; exact Hbind. }
  rewrite m_seq.
  apply m_star_lazy_run; [apply all_in_any | | exact match_from_clause].
  intros x1 x2 E Hne.
  rewrite m_chars.
  change (lit "from" ++ ws2 ++ q1 :: module
          ++ q2 :: (if semicolon then [59%N] else []) ++ rest)
    with (102%N :: lit "rom" ++ ws2 ++ q1 :: module
          ++ q2 :: (if semicolon then [59%N] else []) ++ rest).
  rewrite (strip_prefix_no_span 102%N (lit "from") x2 _ eq_refl Hne);
    [reflexivity|].
  apply occurs_head, (occurs_app_suffix _ x1); rewrite <- E; exact Hfrom.
Qed.

Lemma statement_not_empty : statement <> [].
Proof. unfold Shapes.import_statement; discriminate. Qed.

Variable pre : jsstring.

Hypothesis Hpre : occurs (lit "import") pre = false.

(** The statement is cut out, and the search goes on after it. *)
Lemma import_statement_cut :
  replace_all import_re (lit "") (pre ++ statement ++ rest)
  = pre ++ replace_all import_re (lit "") rest.
Proof.
  unfold import_re at 1.
  assert (S : statement ++ rest
              = 105%N :: (lit "mport" ++ ws1 ++ bindings ++ lit "from" ++ ws2
                          ++ q1 :: module
                          ++ q2 :: (if semicolon then [59%N] else []))
                ++ rest)
    by (rewrite statement_split;
        repeat (rewrite <- ?app_assoc, <- ?app_comm_cons); reflexivity).
  rewrite S.
  rewrite (replace_all_skip 105%N (lit "import") _ _ pre _ eq_refl Hpre).
  f_equal.
  pose proof (replace_all_here import_re (lit "") statement rest []
                statement_not_empty match_import_statement) as R.
  rewrite S in R; exact R.
Qed.

End ImportStatement.

(** X3.  An import statement with a [from] clause and its module on one
    line is removed whole, semicolon included: the normalised source is
    what it would be without the statement. *)
Theorem import_from_statement_is_removed
    (pre ws1 bindings ws2 module rest : jsstring) (q1 q2 : char16)
    (semicolon : bool) :
  blanks ws1 = true ->
  stops is_space (bindings ++ lit "from") = true ->
  occurs (lit "from") bindings = false ->
  blanks ws2 = true ->
  is_quote q1 = true -> Shapes.none_in is_quote module = true ->
  all_in is_dot module = true -> is_quote q2 = true ->
  semicolon = true \/ stops (fun c => (c =? 59)%N) rest = true ->
  occurs (lit "import") (pre ++ rest) = false ->
  cleanedCode
    (pre ++ Shapes.import_statement ws1 bindings ws2 q1 module q2 semicolon
     ++ rest)
  = cleanedCode (pre ++ rest).
Proof.
  intros H1 Hb Hf H2 Hq1 Hm Hl Hq2 Hs Hi.
  unfold cleanedCode.
  rewrite (import_statement_cut ws1 bindings ws2 module rest q1 q2 semicolon
             H1 Hb Hf H2 Hq1 Hm Hl Hq2 Hs pre (occurs_app_prefix _ _ _ Hi)).
  unfold import_re.
  rewrite (replace_all_absent _ _ _ _ (occurs_app_suffix _ _ _ Hi)).
  rewrite (replace_all_absent _ _ _ _ Hi).
  reflexivity.
Qed.

Lemma import_from_statement_is_removed_witness :
  cleanedCode
    (lit "// demo" ++ lit nl
     ++ lit "import React, { useState } from 'react';"
     ++ lit nl ++ lit "export default function App(){ return null }")
  = cleanedCode
      (lit "// demo" ++ lit nl ++ lit nl
       ++ lit "export default function App(){ return null }").
Proof.
  exact (import_from_statement_is_removed
           (lit "// demo" ++ lit nl) (lit " ") (lit "React, { useState } ")
           (lit " ") (lit "react")
           (lit nl ++ lit "export default function App(){ return null }")
           39%N 39%N true
           eq_refl eq_refl eq_refl eq_refl eq_refl eq_refl eq_refl eq_refl
           (or_introl eq_refl) eq_refl).
Defined.


(* ================================================================== *)
(** * The entry point inside the sandbox *)
(* ================================================================== *)

(** ** The script element of a runner document *)

(** The template is its page head, the script around the place of the
    source, and the end of the page. *)
Lemma babel_open_template (rest : jsstring) :
  Runner.babel_open (template_head ++ rest)
  = Some (Runner.script_head ++ rest).
Proof. vm_compute; reflexivity. Qed.

Lemma script_data_template_tail :
  Runner.script_data template_tail
  = Some (Runner.script_tail, Runner.page_tail)
  /\ template_tail = Runner.script_tail ++ Runner.page_tail
  /\ starts_with (lit "</script>") Runner.page_tail = true.
Proof. repeat split; vm_compute; reflexivity. Qed.

(** Both diagnostics stand in the script, after the place of the
    source. *)
Lemma diagnostics_in_template :
  occurs Runner.no_entry_markup Runner.script_tail = true
  /\ occurs (lit (String.concat nl Runner.error_markup_head))
       Runner.script_tail = true
  /\ occurs (lit (String.concat nl Runner.error_markup_tail))
       Runner.script_tail = true.
Proof. repeat split; vm_compute; reflexivity. Qed.

(** No end tag is read across the joint of a text and a line feed. *)
Lemma end_tag_here_app (a b : jsstring) :
  strip_prefix (lit "</script") (map Runner.lower a) = None ->
  stops (fun c => negb (c =? 10)%N) b = true ->
  Runner.end_tag_here (a ++ b) = false.
Proof.
  intros Ha Hb; unfold Runner.end_tag_here; rewrite map_app.
  rewrite (strip_prefix_into_start (fun c => negb (c =? 10)%N) _ _
             (map Runner.lower b)); [reflexivity | reflexivity | | exact Ha].
  destruct b as [|c b]; [reflexivity|].
  cbn [stops map] in *. destruct (N.eqb_spec c 10) as [->|]; [|discriminate Hb].
  reflexivity.
Qed.

Lemma plain_tail (c : char16) (a : jsstring) :
  Runner.plain (c :: a) = true -> Runner.plain a = true.
Proof.
  unfold Runner.plain; intros H.
  apply andb_true_iff in H as [H1 H2].
  apply negb_true_iff in H1, H2. cbn [map] in H2.
  rewrite (occurs_tail _ _ _ H1), (occurs_tail _ _ _ H2); reflexivity.
Qed.

(** In script data a plain text followed by a line feed is passed
    whole. *)
Lemma script_data_plain (a b : jsstring) :
  Runner.plain a = true -> stops (fun c => negb (c =? 10)%N) b = true ->
  Runner.script_data (a ++ b)
  = match Runner.script_data b with
    | Some (text, rest) => Some (a ++ text, rest)
    | None => None
    end.
Proof.
  intros Hp Hb; induction a as [|c a IH].
  - cbn [app]; destruct (Runner.script_data b) as [[text rest]|]; reflexivity.
  - specialize (IH (plain_tail _ _ Hp)).
    unfold Runner.plain in Hp; apply andb_true_iff in Hp as [H1 H2].
    apply negb_true_iff in H1, H2.
    change (Runner.script_data ((c :: a) ++ b))
      with (if Runner.end_tag_here ((c :: a) ++ b) then Some ([], (c :: a) ++ b)
            else if starts_with (lit "<!--") ((c :: a) ++ b) then None
            else match Runner.script_data (a ++ b) with
                 | Some (text, rest) => Some (c :: text, rest)
                 | None => None
                 end).
    rewrite (end_tag_here_app (c :: a) b (occurs_head _ _ H2) Hb).
    unfold starts_with.
    rewrite (strip_prefix_into_start (fun c => negb (c =? 10)%N)
               (lit "<!--") _ b eq_refl Hb (occurs_head _ _ H1)).
    rewrite IH; destruct (Runner.script_data b) as [[text rest]|]; reflexivity.
Qed.

(** A plain source leaves the script of the template plain up to its
    end. *)
Lemma plain_after_head (source : jsstring) :
  Runner.plain source = true ->
  Runner.plain (Runner.script_head ++ source) = true.
Proof.
  unfold Runner.plain; intros H.
  apply andb_true_iff in H as [H1 H2]; apply negb_true_iff in H1, H2.
  rewrite map_app.
  rewrite (occurs_past_end (fun c => negb (c =? 32)%N) (lit "<!--")
             Runner.script_head source ltac:(discriminate) eq_refl);
    [|vm_compute; reflexivity|vm_compute; reflexivity].
  rewrite (occurs_past_end (fun c => negb (c =? 32)%N) (lit "</script")
             (map Runner.lower Runner.script_head) (map Runner.lower source)
             ltac:(discriminate) eq_refl);
    [|vm_compute; reflexivity|vm_compute; reflexivity].
  rewrite H1, H2; reflexivity.
Qed.

(** The script element of a composed document is the script of the
    template around the normalised source. *)
Lemma babel_script_of_template (source : jsstring) :
  Runner.plain source = true ->
  Runner.babel_script (template_head ++ source ++ template_tail)
  = Some (Runner.script_head ++ source ++ Runner.script_tail).
Proof.
  intros Hp; unfold Runner.babel_script.
  rewrite babel_open_template, app_assoc.
  rewrite (script_data_plain _ template_tail (plain_after_head _ Hp) eq_refl).
  rewrite (proj1 script_data_template_tail), <- app_assoc; reflexivity.
Qed.

Lemma strip_suffix_app (p s : jsstring) :
  Runner.strip_suffix p (s ++ p) = Some s.
Proof.
  unfold Runner.strip_suffix.
  rewrite rev_app_distr, strip_prefix_app, rev_involutive; reflexivity.
Qed.

Lemma statements_of_script (source : jsstring) :
  Runner.statements (Runner.script_head ++ source ++ Runner.script_tail)
  = Some source.
Proof.
  unfold Runner.statements; rewrite strip_prefix_app; apply strip_suffix_app.
Qed.

(** What the frame shows for a composed document: nothing when Babel
    refuses the script, else what the script makes of the way the
    normalised source ends. *)
Lemma shows_template (babel : jsstring -> bool)
    (engine : jsstring -> Runner.completion) (source : jsstring) :
  Runner.plain source = true ->
  Runner.shows babel engine (template_head ++ source ++ template_tail)
  = Some (if babel (Runner.script_head ++ source ++ Runner.script_tail)
          then Runner.run (engine source) else []).
Proof.
  intros Hp; unfold Runner.shows.
  rewrite (babel_script_of_template _ Hp), statements_of_script; reflexivity.
Qed.




(** The other ways of the script.  An error thrown by the statements is
    shown by the [catch] block; an error thrown while [App] renders is
    not, and React leaves the mount point empty. *)
Lemma thrown_error_is_shown (babel : jsstring -> bool)
    (engine : jsstring -> Runner.completion) (source : jsstring)
    (stack : option jsstring) (text held : jsstring) :
  Runner.plain source = true ->
  babel (Runner.script_head ++ source ++ Runner.script_tail) = true ->
  engine source = Runner.throws (Runner.value stack text) held ->
  Runner.shows babel engine (template_head ++ source ++ template_tail)
  = Some (Runner.error_markup (Runner.stack_or_text stack text)).
Proof.
  intros Hp Hb He; rewrite (shows_template _ _ _ Hp), Hb, He; reflexivity.
Qed.

Lemma failed_render_is_blank (babel : jsstring -> bool)
    (engine : jsstring -> Runner.completion) (source held : jsstring)
    (main : option Runner.call) :
  Runner.plain source = true ->
  babel (Runner.script_head ++ source ++ Runner.script_tail) = true ->
  engine source = Runner.completes held (Some Runner.render_fails) main ->
  Runner.shows babel engine (template_head ++ source ++ template_tail)
  = Some [].
Proof.
  intros Hp Hb He; rewrite (shows_template _ _ _ Hp), Hb, He; reflexivity.
Qed.

(** A source that closes the script element itself is cut there: the
    script of the document is no longer the script of the template. *)
Example script_cut_short :
  Runner.plain (lit "const s = '</script>';") = false
  /\ Runner.babel_script
       (content (lit "const s = '</script>';") (lit "javascript"))
     = Some (Runner.script_head ++ lit "const s = '").
Proof. split; vm_compute; reflexivity. Qed.

(* ================================================================== *)
(** * The life of a preview component *)
(* ================================================================== *)

Lemma commit_when_in_sync (p : props) (st : state) (b : browser) :
  PreviewEvents.in_sync (p, st, b) -> commit st = st.
Proof.
  unfold PreviewEvents.in_sync, commit, loaded.
  destruct st as [t f c r]; simpl.
  destruct t; [|intros ->; reflexivity].
  destruct r; [reflexivity | discriminate].
Qed.

Lemma effect_when_ready (p' : props) (st : state) (b' : browser) :
  match activeTab st with
  | preview => mounted st = true
  | code_tab => iframeRef st = None
  end ->
  PreviewEvents.in_sync (p', effect p' st, b').
Proof.
  unfold PreviewEvents.in_sync, effect.
  destruct (activeTab st) eqn:T; intros H.
  - destruct (mounted_spec st H) as (fr & w & Hf & Hw).
    unfold updateIframe; rewrite Hf, Hw; simpl; rewrite T.
    unfold loaded; simpl; reflexivity.
  - rewrite T; exact H.
Qed.

Lemma effect_in_sync (p p' : props) (st : state) (b b' : browser) :
  PreviewEvents.in_sync (p, st, b) ->
  PreviewEvents.in_sync (p', effect p' st, b').
Proof.
  intros H; apply effect_when_ready.
  unfold PreviewEvents.in_sync, mounted in H |- *.
  destruct (activeTab st); [rewrite H; reflexivity | exact H].
Qed.

Lemma run_timers_keeps (now : N) (ts : list (N * callback)) (st : state) :
  activeTab (fst (run_timers now ts st)) = activeTab st
  /\ iframeRef (fst (run_timers now ts st)) = iframeRef st
  /\ isFullscreen (fst (run_timers now ts st)) = isFullscreen st.
Proof.
  revert st; induction ts as [|[d c] ts IH]; intros st; simpl;
    [repeat split|].
  destruct (d <=? now)%N.
  - destruct (IH (run_callback c st)) as (A & B & C).
    rewrite A, B, C; destruct c; repeat split.
  - specialize (IH st). destruct (run_timers now ts st); exact IH.
Qed.

Lemma in_sync_same_screen (p : props) (st st' : state) (b b' : browser) :
  activeTab st' = activeTab st -> iframeRef st' = iframeRef st ->
  PreviewEvents.in_sync (p, st, b) -> PreviewEvents.in_sync (p, st', b').
Proof.
  unfold PreviewEvents.in_sync, loaded; intros -> ->; exact (fun H => H).
Qed.

Lemma step_in_sync (e : PreviewEvents.event) (w : PreviewEvents.world) :
  PreviewEvents.in_sync w -> PreviewEvents.in_sync (PreviewEvents.step e w).
Proof.
  destruct w as [[p st] b]; intros H.
  destruct e as [| | | | |dt|p']; cbn [PreviewEvents.step].
  - unfold setActiveTab.
    apply effect_when_ready.
    unfold PreviewEvents.in_sync, commit, mounted, loaded in *; simpl.
    destruct (iframeRef st) as [fr|] eqn:F; simpl; [|reflexivity].
    destruct (activeTab st); [|congruence].
    rewrite H; reflexivity.
  - unfold setActiveTab, commit, effect; simpl; reflexivity.
  - pose proof (effect_in_sync p p st b b H) as E.
    unfold PreviewEvents.in_sync, effect in *.
    destruct (activeTab st) eqn:T; [exact E|].
    rewrite (updateIframe_unmounted p st H), T; exact H.
  - unfold copyToClipboard.
    assert (S : PreviewEvents.in_sync (p, set_copied true st, b))
      by (apply (in_sync_same_screen p st _ b b); auto).
    rewrite (commit_when_in_sync _ _ _ S).
    apply (in_sync_same_screen p st _ b _); auto.
  - assert (S : PreviewEvents.in_sync (p, PreviewEvents.toggle_fullscreen st, b))
      by (apply (in_sync_same_screen p st _ b b); auto).
    rewrite (commit_when_in_sync _ _ _ S); exact S.
  - unfold elapse.
    destruct (run_timers_keeps (clock b + dt) (timers b) st) as (A & B & _).
    destruct (run_timers (clock b + dt) (timers b) st) as [st' rest];
      simpl in A, B.
    assert (S : PreviewEvents.in_sync (p, st', b))
      by (apply (in_sync_same_screen p st _ b b); auto).
    rewrite (commit_when_in_sync _ _ _ S).
    apply (in_sync_same_screen p st _ b _); auto.
  - unfold PreviewEvents.rerender.
    rewrite (commit_when_in_sync _ _ _ H).
    destruct (jseq (code p) (code p') && jseq (language p) (language p'))
      eqn:E.
    + apply andb_true_iff in E; destruct E as [Ec El].
      apply jseq_eq in Ec; apply jseq_eq in El.
      unfold PreviewEvents.in_sync in *; rewrite <- Ec, <- El; exact H.
    + apply (effect_in_sync p p' st b b H).
Qed.

Lemma start_in_sync (p : props) (b : browser) :
  PreviewEvents.in_sync (PreviewEvents.start p b).
Proof.
  unfold PreviewEvents.start, PreviewEvents.in_sync, mount, initial_state,
    commit, effect; simpl.
  destruct (initial_activeTab (language p)); reflexivity.
Qed.

Lemma run_invariant (I : PreviewEvents.world -> Prop) :
  (forall e w, I w -> I (PreviewEvents.step e w)) ->
  forall es w, I w -> I (PreviewEvents.run es w).
Proof.
  intros Hstep; induction es as [|e es IH]; intros w Hw; [exact Hw|].
  apply IH, Hstep, Hw.
Qed.

(** X4.  Whatever the user does with a mounted preview (tabs, reload,
    copy, fullscreen, waiting, new props), the screen agrees with the
    current props: on the preview tab the iframe holds the document
    composed from them, on the code tab there is no iframe. *)
Theorem preview_stays_in_sync (p : props) (b : browser)
    (es : list PreviewEvents.event) :
  PreviewEvents.in_sync (PreviewEvents.run es (PreviewEvents.start p b)).
Proof.
  apply (run_invariant PreviewEvents.in_sync step_in_sync), start_in_sync.
Qed.


Lemma commit_keeps_copied (st : state) : copied (commit st) = copied st.
Proof.
  unfold commit; destruct (activeTab st); [|reflexivity].
  destruct (iframeRef st); reflexivity.
Qed.

Lemma effect_keeps_copied (p : props) (st : state) :
  copied (effect p st) = copied st.
Proof.
  unfold effect, updateIframe; destruct (activeTab st); [|reflexivity].
  destruct (iframeRef st) as [fr|]; [|reflexivity].
  destruct (contentWindow fr); reflexivity.
Qed.

(** Timers only ever reset the flag. *)
Lemma run_timers_stays_false (now : N) (ts : list (N * callback))
    (st : state) :
  copied st = false -> copied (fst (run_timers now ts st)) = false.
Proof.
  revert st; induction ts as [|[d c] ts IH]; intros st H; simpl; [exact H|].
  destruct (d <=? now)%N.
  - apply IH; destruct c; reflexivity.
  - specialize (IH st H). destruct (run_timers now ts st); exact IH.
Qed.

Lemma run_timers_due (now due : N) (ts : list (N * callback)) (st : state) :
  In (due, reset_copied) ts -> (due <= now)%N ->
  copied (fst (run_timers now ts st)) = false.
Proof.
  intros Hin Hd; revert st; induction ts as [|[d c] ts IH]; intros st;
    [destruct Hin|].
  simpl. destruct Hin as [E | Hin].
  - inversion E; subst d c.
    apply N.leb_le in Hd; rewrite Hd.
    apply run_timers_stays_false; reflexivity.
  - destruct (d <=? now)%N; [apply IH; exact Hin|].
    specialize (IH Hin st). destruct (run_timers now ts st); exact IH.
Qed.

(** Either a timer ran and the flag is down, or nothing changed. *)
Lemma run_timers_cases (now : N) (ts : list (N * callback)) (st : state) :
  copied (fst (run_timers now ts st)) = false
  \/ run_timers now ts st = (st, ts).
Proof.
  revert st; induction ts as [|[d c] ts IH]; intros st; simpl;
    [right; reflexivity|].
  destruct (d <=? now)%N.
  - left; apply run_timers_stays_false; destruct c; reflexivity.
  - destruct (IH st) as [H | H].
    + left; destruct (run_timers now ts st); exact H.
    + right; rewrite H; reflexivity.
Qed.

Lemma step_acknowledged (e : PreviewEvents.event) (w : PreviewEvents.world) :
  PreviewEvents.acknowledged w ->
  PreviewEvents.acknowledged (PreviewEvents.step e w).
Proof.
  destruct w as [[p st] b]; unfold PreviewEvents.acknowledged; intros H.
  destruct e as [| | | | |dt|p']; cbn [PreviewEvents.step].
  - unfold setActiveTab; rewrite effect_keeps_copied, commit_keeps_copied.
    exact H.
  - unfold setActiveTab; rewrite effect_keeps_copied, commit_keeps_copied.
    exact H.
  - intros C; apply H; rewrite <- C.
    unfold updateIframe; destruct (iframeRef st) as [fr|]; [|reflexivity].
    destruct (contentWindow fr); reflexivity.
  - unfold copyToClipboard; cbn [clock timers]; intros _.
    exists (clock b + 2000)%N; split; [|lia].
    apply in_or_app; right; left; reflexivity.
  - rewrite commit_keeps_copied; exact H.
  - unfold elapse.
    destruct (run_timers_cases (clock b + dt) (timers b) st) as [F | E].
    + destruct (run_timers (clock b + dt) (timers b) st) as [st' rest];
        simpl in F.
      rewrite commit_keeps_copied, F; discriminate.
    + rewrite E, commit_keeps_copied; cbn [clock timers].
      intros C; destruct (H C) as (due & Hin & Hd).
      exists due; split; [exact Hin | lia].
  - unfold PreviewEvents.rerender.
    destruct (jseq (code p) (code p') && jseq (language p) (language p'));
      rewrite ?effect_keeps_copied, commit_keeps_copied; exact H.
Qed.

Lemma start_acknowledged (p : props) (b : browser) :
  PreviewEvents.acknowledged (PreviewEvents.start p b).
Proof.
  unfold PreviewEvents.start, PreviewEvents.acknowledged, mount.
  rewrite effect_keeps_copied, commit_keeps_copied; discriminate.
Qed.

(** X5.  The acknowledgment of the copy button never outlives two
    seconds without a click: after any use of the component, once 2000 ms
    pass the [copied] flag is down. *)
Theorem acknowledgment_is_transient (p : props) (b : browser)
    (es : list PreviewEvents.event) :
  copied
    (snd (fst (PreviewEvents.step (PreviewEvents.wait 2000)
                 (PreviewEvents.run es (PreviewEvents.start p b)))))
  = false.
Proof.
  pose proof (run_invariant PreviewEvents.acknowledged step_acknowledged es
                _ (start_acknowledged p b)) as A.
  destruct (PreviewEvents.run es (PreviewEvents.start p b)) as [[p' st] b'].
  unfold PreviewEvents.acknowledged in A.
  cbn [PreviewEvents.step]; unfold elapse.
  destruct (copied st) eqn:C.
  - destruct (A eq_refl) as (due & Hin & Hd).
    pose proof (run_timers_due (clock b' + 2000) due (timers b') st Hin Hd)
      as F.
    destruct (run_timers (clock b' + 2000) (timers b') st) as [st' rest];
      simpl in *.
    rewrite commit_keeps_copied; exact F.
  - pose proof (run_timers_stays_false (clock b' + 2000) (timers b') st C)
      as F.
    destruct (run_timers (clock b' + 2000) (timers b') st) as [st' rest];
      simpl in *.
    rewrite commit_keeps_copied; exact F.
Qed.


(* ================================================================== *)
(** * The sandbox of the preview iframe *)
(* ================================================================== *)

(** ** The host writes, and does not read *)

Lemma without_markup_idem (st : state) :
  Sandbox.without_markup (Sandbox.without_markup st)
  = Sandbox.without_markup st.
Proof.
  destruct st as [t f c [[s [w|]]|]]; reflexivity.
Qed.

Lemma rewritten_without_markup (html : jsstring) (st : state) :
  Sandbox.without_markup (Sandbox.rewritten html st)
  = Sandbox.without_markup st.
Proof.
  destruct st as [t f c [[s [w|]]|]]; reflexivity.
Qed.

Lemma commit_view (st : state) :
  Sandbox.without_markup (commit (Sandbox.without_markup st))
  = Sandbox.without_markup (commit st).
Proof.
  destruct st as [[|] f c [[s [w|]]|]]; reflexivity.
Qed.

Lemma updateIframe_view (p : props) (st : state) :
  Sandbox.without_markup (updateIframe p (Sandbox.without_markup st))
  = Sandbox.without_markup (updateIframe p st).
Proof.
  destruct st as [t f c [[s [w|]]|]]; reflexivity.
Qed.

Lemma effect_view (p : props) (st : state) :
  Sandbox.without_markup (effect p (Sandbox.without_markup st))
  = Sandbox.without_markup (effect p st).
Proof.
  destruct st as [[|] f c [[s [w|]]|]]; reflexivity.
Qed.

Lemma effect_commit_view (p : props) (st : state) :
  Sandbox.without_markup (effect p (commit (Sandbox.without_markup st)))
  = Sandbox.without_markup (effect p (commit st)).
Proof.
  destruct st as [[|] f c [[s [w|]]|]]; reflexivity.
Qed.

Lemma run_timers_view (now : N) (ts : list (N * callback)) (st : state) :
  run_timers now ts (Sandbox.without_markup st)
  = (Sandbox.without_markup (fst (run_timers now ts st)),
     snd (run_timers now ts st)).
Proof.
  revert st; induction ts as [|[due c] ts IH]; intros st; [reflexivity|].
  cbn [run_timers]; destruct (due <=? now)%N.
  - replace (run_callback c (Sandbox.without_markup st))
      with (Sandbox.without_markup (run_callback c st))
      by (destruct c; destruct st as [t f k [[s [w|]]|]]; reflexivity).
    apply IH.
  - rewrite IH; destruct (run_timers now ts st); reflexivity.
Qed.

(** A step of the component gives the host the same, whatever markup the
    iframe held before it. *)
Lemma step_view (e : PreviewEvents.event) (w : PreviewEvents.world) :
  Sandbox.host_view (PreviewEvents.step e (Sandbox.host_view w))
  = Sandbox.host_view (PreviewEvents.step e w).
Proof.
  destruct w as [[p st] b].
  destruct e as [| | | | |dt|p']; cbn [PreviewEvents.step Sandbox.host_view].
  - unfold setActiveTab.
    destruct st as [t f c [[s [w|]]|]]; reflexivity.
  - unfold setActiveTab.
    destruct st as [t f c [[s [w|]]|]]; reflexivity.
  - rewrite updateIframe_view; reflexivity.
  - unfold copyToClipboard; cbn [Sandbox.host_view].
    destruct st as [[|] f c [[s [w|]]|]]; reflexivity.
  - destruct st as [[|] f c [[s [w|]]|]]; reflexivity.
  - unfold elapse; rewrite run_timers_view.
    destruct (run_timers (clock b + dt) (timers b) st) as [st' rest].
    cbn [fst snd Sandbox.host_view]; rewrite commit_view; reflexivity.
  - unfold PreviewEvents.rerender.
    destruct (jseq (code p) (code p') && jseq (language p) (language p')).
    + rewrite commit_view; reflexivity.
    + rewrite effect_commit_view; reflexivity.
Qed.

(** ** The attribute of the frame *)

Lemma commit_own_frame (st : state) :
  Sandbox.own_frame st -> Sandbox.own_frame (commit st).
Proof.
  unfold Sandbox.own_frame; intros H fr.
  destruct st as [[|] f c [fr0|]]; cbn; intros E.
  - apply H; exact E.
  - inversion E; reflexivity.
  - discriminate E.
  - discriminate E.
Qed.

Lemma updateIframe_own_frame (p : props) (st : state) :
  Sandbox.own_frame st -> Sandbox.own_frame (updateIframe p st).
Proof.
  unfold Sandbox.own_frame; intros H fr.
  destruct st as [t f c [[s [w|]]|]]; cbn; intros E.
  - inversion E; cbn. exact (H _ eq_refl).
  - apply H; exact E.
  - discriminate E.
Qed.

Lemma effect_own_frame (p : props) (st : state) :
  Sandbox.own_frame st -> Sandbox.own_frame (effect p st).
Proof.
  intros H; unfold effect; destruct (activeTab st);
    [apply updateIframe_own_frame; exact H | exact H].
Qed.

Lemma same_iframe_own_frame (st st' : state) :
  iframeRef st' = iframeRef st ->
  Sandbox.own_frame st -> Sandbox.own_frame st'.
Proof. unfold Sandbox.own_frame; intros E H fr; rewrite E; apply H. Qed.

Lemma run_timers_iframeRef (now : N) (ts : list (N * callback))
    (st : state) :
  iframeRef (fst (run_timers now ts st)) = iframeRef st.
Proof.
  revert st; induction ts as [|[due c] ts IH]; intros st; [reflexivity|].
  cbn [run_timers]; destruct (due <=? now)%N.
  - rewrite IH; destruct c; reflexivity.
  - specialize (IH st); destruct (run_timers now ts st); exact IH.
Qed.

Lemma step_own_frame (e : PreviewEvents.event) (w : PreviewEvents.world) :
  Sandbox.own_frame (snd (fst w)) ->
  Sandbox.own_frame (snd (fst (PreviewEvents.step e w))).
Proof.
  destruct w as [[p st] b]; cbn [fst snd]; intros H.
  destruct e as [| | | | |dt|p']; cbn [PreviewEvents.step fst snd].
  - apply effect_own_frame, commit_own_frame.
    exact (same_iframe_own_frame st _ eq_refl H).
  - apply effect_own_frame, commit_own_frame.
    exact (same_iframe_own_frame st _ eq_refl H).
  - apply updateIframe_own_frame; exact H.
  - unfold copyToClipboard; cbn [fst snd].
    apply commit_own_frame; exact (same_iframe_own_frame st _ eq_refl H).
  - apply commit_own_frame; exact (same_iframe_own_frame st _ eq_refl H).
  - unfold elapse.
    pose proof (run_timers_iframeRef (clock b + dt) (timers b) st) as E.
    destruct (run_timers (clock b + dt) (timers b) st) as [st' rest];
      cbn [fst snd] in *.
    apply commit_own_frame; exact (same_iframe_own_frame st _ E H).
  - unfold PreviewEvents.rerender.
    destruct (jseq (code p) (code p') && jseq (language p) (language p')).
    + apply commit_own_frame; exact H.
    + apply effect_own_frame, commit_own_frame; exact H.
Qed.

Lemma start_own_frame (p : props) (b : browser) :
  Sandbox.own_frame (snd (fst (PreviewEvents.start p b))).
Proof.
  cbn [PreviewEvents.start fst snd]; unfold mount.
  apply effect_own_frame, commit_own_frame.
  unfold Sandbox.own_frame; intros fr E; discriminate E.
Qed.

(** ** What the attribute lets a script do *)

(** Under the attribute of the component a script of the frame runs, with
    the origin of the host page. *)
Lemma framed_by_component (script : list Sandbox.access) (h : Sandbox.page) :
  Sandbox.framed sandbox_attribute script h
  = Sandbox.run_script Sandbox.host_origin script h.
Proof. reflexivity. Qed.

(** That origin is what lets the host write its document. *)
Lemma host_reaches_document :
  Sandbox.contentDocument new_iframe
  = Some {| markup := []; writable := false |}
  /\ Sandbox.contentDocument
       {| sandbox := [lit "allow-scripts"];
          contentWindow := contentWindow new_iframe |}
     = None.
Proof. split; reflexivity. Qed.

(** A frame whose attribute leaves the origin sandboxed reaches nothing of
    the host: the page is as it was, and every access was refused. *)
Lemma sandboxed_origin_isolates (attribute : list jsstring)
    (script : list Sandbox.access) (h : Sandbox.page) :
  Sandbox.allows (lit "allow-same-origin") attribute = false ->
  fst (Sandbox.framed attribute script h) = h
  /\ Forall (fun r => r = Sandbox.security_error)
       (snd (Sandbox.framed attribute script h)).
Proof.
  intros H; unfold Sandbox.framed, Sandbox.origin_of; rewrite H.
  destruct (Sandbox.allows (lit "allow-scripts") attribute);
    [|split; [reflexivity | constructor]].
  induction script as [|a script [IH1 IH2]]; [split; [reflexivity|constructor]|].
  cbn [Sandbox.run_script Sandbox.perform].
  destruct (Sandbox.run_script Sandbox.opaque_origin script h) as [h2 rs];
    cbn [fst snd] in *.
  split; [exact IH1 | constructor; [reflexivity | exact IH2]].
Qed.

(** C2, as the specification states it, fails: the frame of the component
    shares the storage and the page of the host.  A script in it reads an
    item of the host's storage, replaces it, and rewrites the host's own
    document. *)
Lemma framed_script_reaches_host :
  Sandbox.framed (sandbox new_iframe)
    [ Sandbox.getItem (lit "session");
      Sandbox.setItem (lit "session") (lit "taken");
      Sandbox.read_parent;
      Sandbox.write_parent (lit "<h1>gone</h1>") ]
    {| Sandbox.localStorage := [(lit "session", lit "secret")];
       Sandbox.body := lit "<main>chat</main>" |}
  = ({| Sandbox.localStorage := [(lit "session", lit "taken")];
        Sandbox.body := lit "<h1>gone</h1>" |},
     [ Sandbox.result (Some (lit "secret"));
       Sandbox.result None;
       Sandbox.result (Some (lit "<main>chat</main>"));
       Sandbox.result None ]).
Proof. vm_compute; reflexivity. Qed.

(** C2 (amended).  After any use of a preview component: whatever the
    document in its iframe has become, the next step gives the host the
    same props, state and browser, so the host reads nothing out; what it
    has written in is the document composed from its props; and the
    iframe carries the attribute of the component, under which a script of
    the frame runs with the origin of the host page. *)
Theorem frame_is_written_never_read (p : props) (b : browser)
    (es : list PreviewEvents.event) (e : PreviewEvents.event)
    (st' : state) :
  Sandbox.without_markup st'
  = Sandbox.without_markup
      (snd (fst (PreviewEvents.run es (PreviewEvents.start p b)))) ->
  Sandbox.host_view
    (PreviewEvents.step e
       (fst (fst (PreviewEvents.run es (PreviewEvents.start p b))), st',
        snd (PreviewEvents.run es (PreviewEvents.start p b))))
  = Sandbox.host_view
      (PreviewEvents.step e (PreviewEvents.run es (PreviewEvents.start p b)))
  /\ PreviewEvents.in_sync (PreviewEvents.run es (PreviewEvents.start p b))
  /\ forall fr,
       iframeRef (snd (fst (PreviewEvents.run es (PreviewEvents.start p b))))
       = Some fr ->
       sandbox fr = sandbox_attribute
       /\ forall script h,
            Sandbox.framed (sandbox fr) script h
            = Sandbox.run_script Sandbox.host_origin script h.
Proof.
  pose proof (run_invariant (fun w => Sandbox.own_frame (snd (fst w)))
                step_own_frame es _ (start_own_frame p b)) as O.
  pose proof (run_invariant PreviewEvents.in_sync step_in_sync es _
                (start_in_sync p b)) as S.
  destruct (PreviewEvents.run es (PreviewEvents.start p b)) as [[p1 st] b1].
  cbn [fst snd] in *; intros H; split; [|split; [exact S|]].
  - rewrite <- (step_view e (p1, st', b1)), <- (step_view e (p1, st, b1)).
    cbn [Sandbox.host_view]; rewrite H; reflexivity.
  - intros fr E; rewrite (O fr E); split; [reflexivity|].
    intros script h; apply framed_by_component.
Qed.

Lemma frame_is_written_never_read_witness :
  Sandbox.host_view
    (PreviewEvents.step PreviewEvents.click_copy
       (fst (fst (PreviewEvents.run [PreviewEvents.click_reload]
                    (PreviewEvents.start
                       {| code := lit "<p>hi</p>"; language := lit "html";
                          title := lit "Preview" |}
                       {| clock := 0; clipboard := []; timers := [] |}))),
        Sandbox.rewritten (lit "<p>written by the frame</p>")
          (snd (fst (PreviewEvents.run [PreviewEvents.click_reload]
                       (PreviewEvents.start
                          {| code := lit "<p>hi</p>"; language := lit "html";
                             title := lit "Preview" |}
                          {| clock := 0; clipboard := []; timers := [] |})))),
        snd (PreviewEvents.run [PreviewEvents.click_reload]
               (PreviewEvents.start
                  {| code := lit "<p>hi</p>"; language := lit "html";
                     title := lit "Preview" |}
                  {| clock := 0; clipboard := []; timers := [] |}))))
  = Sandbox.host_view
      (PreviewEvents.step PreviewEvents.click_copy
         (PreviewEvents.run [PreviewEvents.click_reload]
            (PreviewEvents.start
               {| code := lit "<p>hi</p>"; language := lit "html";
                  title := lit "Preview" |}
               {| clock := 0; clipboard := []; timers := [] |}))).
Proof.
  exact (proj1 (frame_is_written_never_read
                  {| code := lit "<p>hi</p>"; language := lit "html";
                     title := lit "Preview" |}
                  {| clock := 0; clipboard := []; timers := [] |}
                  [PreviewEvents.click_reload] PreviewEvents.click_copy
                  (Sandbox.rewritten (lit "<p>written by the frame</p>")
                     (snd (fst (PreviewEvents.run [PreviewEvents.click_reload]
                                  (PreviewEvents.start
                                     {| code := lit "<p>hi</p>";
                                        language := lit "html";
                                        title := lit "Preview" |}
                                     {| clock := 0; clipboard := [];
                                        timers := [] |})))))
                  eq_refl)).
Defined.

(* ================================================================== *)
(** * The code blocks of a chat message *)
(* ================================================================== *)

Lemma match_newline_to_end (c : char16) (t : jsstring) :
  t <> [] -> CodeBlock.match_here_to_end (Chr 10%N) (c :: t) = None.
Proof.
  intros H; unfold CodeBlock.match_here_to_end; cbn [m].
  destruct (c =? 10)%N; [|reflexivity].
  destruct t; [congruence | reflexivity].
Qed.

Lemma code_of_final_newline (body : jsstring) :
  CodeBlock.code_of (body ++ [10%N]) = body.
Proof.
  unfold CodeBlock.code_of.
  induction body as [|c body IH]; [reflexivity|].
  cbn [app CodeBlock.replace_first_to_end].
  rewrite match_newline_to_end; [rewrite IH; reflexivity|].
  destruct body; discriminate.
Qed.

Lemma code_of_no_final_newline (s : jsstring) :
  last s 0%N <> 10%N -> CodeBlock.code_of s = s.
Proof.
  unfold CodeBlock.code_of.
  induction s as [|c s IH]; intros H; [reflexivity|].
  cbn [CodeBlock.replace_first_to_end].
  destruct s as [|d s].
  - unfold CodeBlock.match_here_to_end; cbn [m]; simpl in H.
    destruct (N.eqb_spec c 10); [congruence | reflexivity].
  - rewrite match_newline_to_end; [|discriminate].
    rewrite IH; [reflexivity | exact H].
Qed.

(** X6.  The code handed to the preview or the highlighter is the text of
    the block without its final newline: exactly one is dropped, and a
    text that does not end in a newline is handed over as it is. *)
Theorem code_drops_one_final_newline (s : jsstring) :
  CodeBlock.code_of (s ++ [10%N]) = s
  /\ (last s 0%N <> 10%N -> CodeBlock.code_of s = s).
Proof.
  split; [apply code_of_final_newline | apply code_of_no_final_newline].
Qed.

Lemma code_drops_one_final_newline_witness :
  CodeBlock.code_of (lit "<p>hi</p>" ++ lit nl ++ [10%N])
  = lit "<p>hi</p>" ++ lit nl
  /\ CodeBlock.code_of (lit "<p>hi</p>") = lit "<p>hi</p>".
Proof.
  split.
  - exact (proj1 (code_drops_one_final_newline (lit "<p>hi</p>" ++ lit nl))).
  - apply (proj2 (code_drops_one_final_newline (lit "<p>hi</p>"))).
    discriminate.
Defined.

Lemma exec_skip (d : char16) (p : jsstring) (r : regex) (pre s : jsstring) :
  forallb (fun x => negb (x =? d)%N) (tl p) = true ->
  occurs p pre = false ->
  CodeBlock.exec (chars p r) (pre ++ d :: s)
  = CodeBlock.exec (chars p r) (d :: s).
Proof.
  intros Hp; induction pre as [|c pre IH]; intros H; [reflexivity|].
  change ((c :: pre) ++ d :: s) with (c :: pre ++ d :: s).
  cbn [CodeBlock.exec].
  change (c :: pre ++ d :: s) with ((c :: pre) ++ d :: s).
  rewrite (match_here_chars_none p r _
             (strip_prefix_no_span d p (c :: pre) s Hp
                ltac:(discriminate) (occurs_head _ _ H))).
  cbn [app]; apply IH, (occurs_tail _ _ _ H).
Qed.

Lemma exec_absent (p : jsstring) (r : regex) (s : jsstring) :
  occurs p s = false -> CodeBlock.exec (chars p r) s = None.
Proof.
  induction s as [|c s IH]; intros H; simpl;
    rewrite (match_here_chars_none p r _ (occurs_head _ _ H)); [reflexivity|].
  apply IH, (occurs_tail _ _ _ H).
Qed.

Lemma exec_here (r : regex) (s : jsstring) (x : mstate) :
  match_here r s = Some x -> CodeBlock.exec r s = Some x.
Proof. intros H; destruct s; simpl; rewrite H; reflexivity. Qed.

Lemma language_of_class (pre name rest : jsstring) :
  occurs (lit "language-") pre = false ->
  identifier name = true -> stops is_word rest = true ->
  CodeBlock.language_of (Some (pre ++ lit "language-" ++ name ++ rest))
  = name.
Proof.
  intros Hp Hn Hr; unfold CodeBlock.language_of.
  assert (E : CodeBlock.exec CodeBlock.language_re
                (pre ++ lit "language-" ++ name ++ rest)
              = Some (rest, [(1, name)])).
  { transitivity (CodeBlock.exec CodeBlock.language_re
                    (lit "language-" ++ name ++ rest)).
    - exact (exec_skip 108%N (lit "language-") _ pre
               (lit "anguage-" ++ name ++ rest) eq_refl Hp).
    - apply exec_here. unfold match_here, CodeBlock.language_re.
      rewrite m_chars, strip_prefix_app.
      apply match_name; auto. }
  rewrite E; reflexivity.
Qed.

(** X7.  A block is routed by the first [language-<name>] of its class:
    to the live preview when the name is one of the five previewable
    languages, to the highlighter otherwise, in both cases with the name
    as it stands up to the first character that is not a word
    character. *)
Theorem block_is_routed_by_language
    (toUpperCase : jsstring -> jsstring) (pre name rest children : jsstring) :
  occurs (lit "language-") pre = false ->
  identifier name = true -> stops is_word rest = true ->
  CodeBlock.code toUpperCase false
    (Some (pre ++ lit "language-" ++ name ++ rest)) children
  = if Chat.isPreviewable name
    then CodeBlock.live_preview
           {| code := CodeBlock.code_of children;
              language := name;
              title := toUpperCase name ++ lit " Artifact" |}
    else CodeBlock.highlighted name (CodeBlock.code_of children).
Proof.
  intros Hp Hn Hr; unfold CodeBlock.code.
  rewrite (language_of_class pre name rest Hp Hn Hr).
  destruct (Chat.isPreviewable name); [reflexivity|].
  destruct (identifier_spec _ Hn) as [Hne _].
  destruct name; [congruence | reflexivity].
Qed.

Lemma block_is_routed_by_language_witness :
  CodeBlock.code (fun s => s) false (Some (lit "hljs language-c++"))
    (lit "int main(){}" ++ lit nl)
  = CodeBlock.highlighted (lit "c") (lit "int main(){}").
Proof.
  exact (block_is_routed_by_language (fun s => s) (lit "hljs ") (lit "c")
           (lit "++") (lit "int main(){}" ++ lit nl)
           eq_refl eq_refl eq_refl).
Defined.

(** X8.  Inline code, and a block whose class names no language, never
    reach the live preview or the highlighter: they are rendered as a
    plain [code] element with the children untouched. *)
Theorem no_preview_without_language
    (toUpperCase : jsstring -> jsstring) (inline : bool)
    (className : option jsstring) (children : jsstring) :
  inline = true
  \/ occurs (lit "language-")
       (match className with Some c => c | None => [] end) = false ->
  CodeBlock.code toUpperCase inline className children
  = CodeBlock.plain_code className children.
Proof.
  intros [-> | H]; unfold CodeBlock.code; [reflexivity|].
  unfold CodeBlock.language_of, CodeBlock.language_re.
  rewrite (exec_absent _ _ _ H).
  destruct inline; reflexivity.
Qed.

Lemma no_preview_without_language_witness :
  CodeBlock.code (fun s => s) true (Some (lit "language-jsx"))
    (lit "useState")
  = CodeBlock.plain_code (Some (lit "language-jsx")) (lit "useState")
  /\ CodeBlock.code (fun s => s) false None (lit "npm install")
     = CodeBlock.plain_code None (lit "npm install").
Proof.
  split.
  - apply (no_preview_without_language (fun s => s) true); left; reflexivity.
  - apply (no_preview_without_language (fun s => s) false None);
      right; reflexivity.
Defined.


(* ================================================================== *)
(** * More of the chat component *)
(* ================================================================== *)

(** [trim] leaves a text that begins and ends with a character that is
    not white space. *)
Lemma trim_core (c d : char16) (x : jsstring) :
  is_space c = false -> is_space d = false ->
  trim (c :: x ++ [d]) = c :: x ++ [d].
Proof.
  intros Hc Hd; unfold trim.
  cbn [drop_while]; rewrite Hc.
  assert (R : rev (c :: x ++ [d]) = d :: rev x ++ [c])
    by (cbn [rev]; rewrite rev_app_distr; reflexivity).
  rewrite R. cbn [drop_while]; rewrite Hd.
  cbn [rev]. rewrite rev_app_distr, rev_involutive. reflexivity.
Qed.

Lemma debugPrompt_shape (error : jsstring) :
  exists x, ChatEvents.debugPrompt error = 73%N :: x ++ [46%N].
Proof.
  exists (tl (lit ("I'm getting a runtime error in the code you provided:"
                   ++ nl ++ nl ++ "```" ++ nl))
          ++ error
          ++ lit (nl ++ "```" ++ nl ++ nl
                  ++ "Please fix the code and provide the corrected version")).
  unfold ChatEvents.debugPrompt.
  change (lit (nl ++ "```" ++ nl ++ nl
               ++ "Please fix the code and provide the corrected version."))
    with (lit (nl ++ "```" ++ nl ++ nl
               ++ "Please fix the code and provide the corrected version")
          ++ [46%N]).
  change (lit ("I'm getting a runtime error in the code you provided:"
               ++ nl ++ nl ++ "```" ++ nl))
    with (73%N :: tl (lit ("I'm getting a runtime error in the code you provided:"
                           ++ nl ++ nl ++ "```" ++ nl))).
  rewrite <- app_comm_cons, <- !app_assoc; reflexivity.
Qed.

(** The debug prompt is never blank, whatever the error text. *)
Lemma debugPrompt_not_blank (error : jsstring) :
  Chat.falsy (trim (ChatEvents.debugPrompt error)) = false
  /\ Chat.falsy (ChatEvents.debugPrompt error) = false.
Proof.
  destruct (debugPrompt_shape error) as [x E]; rewrite E.
  rewrite trim_core; [split; reflexivity | reflexivity | reflexivity].
Qed.

Lemma submit_messages (toLowerCase : jsstring -> jsstring)
    (server : Chat.request -> Chat.reply) (now : N)
    (keep isImage : bool) (entered : jsstring) (st : Chat.state) :
  exists a,
    Chat.messages (Chat.submit toLowerCase server now keep isImage entered st)
    = Chat.messages st ++ [Chat.userMessage now entered st; a]
    /\ Chat.sender a = Chat.assistant.
Proof.
  exists (Chat.answer now (Chat.request_of toLowerCase now isImage entered st)
            (server (Chat.request_of toLowerCase now isImage entered st))).
  split.
  - unfold Chat.submit; destruct keep; cbn; rewrite <- app_assoc; reflexivity.
  - unfold Chat.answer.
    destruct (server _); [destruct (Chat.request_of _ _ _ _ _)|]; reflexivity.
Qed.

(** X9.  The debug callback sends its prompt even when the input is
    empty, and leaves the draft in the input alone: unless a request is in
    flight, the transcript gains the prompt, built around the error text,
    and the answer. *)
Theorem handleDebug_sends_prompt_and_keeps_draft
    (toLowerCase : jsstring -> jsstring) (server : Chat.request -> Chat.reply)
    (now : N) (error : jsstring) (st : Chat.state) :
  Chat.isLoading st = false ->
  exists u a,
    Chat.messages (ChatEvents.handleDebug toLowerCase server now error st)
    = Chat.messages st ++ [u; a]
    /\ Chat.sender u = Chat.user
    /\ Chat.content u = ChatEvents.debugPrompt error
    /\ Chat.sender a = Chat.assistant
    /\ Chat.input (ChatEvents.handleDebug toLowerCase server now error st)
       = Chat.input st
    /\ Chat.isLoading (ChatEvents.handleDebug toLowerCase server now error st)
       = false.
Proof.
  intros Hl.
  destruct (debugPrompt_not_blank error) as [Ht Hf].
  unfold ChatEvents.handleDebug, Chat.handleSubmit.
  cbn [Chat.messageInput]; rewrite Hf.
  unfold Chat.rejected; rewrite Ht, Hl; cbn [andb orb negb].
  destruct (submit_messages toLowerCase server now true false
              (ChatEvents.debugPrompt error) st) as (a & Hm & Ha).
  exists (Chat.userMessage now (ChatEvents.debugPrompt error) st), a.
  repeat (split; [first [exact Hm | exact Ha | reflexivity]|]).
  reflexivity.
Qed.

Lemma handleDebug_sends_prompt_and_keeps_draft_witness :
  exists u a,
    Chat.messages
      (ChatEvents.handleDebug (fun s => s)
         (fun _ => Chat.json (lit "fixed") None None) 5 []
         (Chat.set_input (lit "my draft") ChatEvents.initial))
    = Chat.messages (Chat.set_input (lit "my draft") ChatEvents.initial)
      ++ [u; a]
    /\ Chat.sender u = Chat.user
    /\ Chat.content u = ChatEvents.debugPrompt []
    /\ Chat.sender a = Chat.assistant
    /\ Chat.input
         (ChatEvents.handleDebug (fun s => s)
            (fun _ => Chat.json (lit "fixed") None None) 5 []
            (Chat.set_input (lit "my draft") ChatEvents.initial))
       = Chat.input (Chat.set_input (lit "my draft") ChatEvents.initial)
    /\ Chat.isLoading
         (ChatEvents.handleDebug (fun s => s)
            (fun _ => Chat.json (lit "fixed") None None) 5 []
            (Chat.set_input (lit "my draft") ChatEvents.initial))
       = false.
Proof.
  apply (handleDebug_sends_prompt_and_keeps_draft (fun s => s)
           (fun _ => Chat.json (lit "fixed") None None) 5 []
           (Chat.set_input (lit "my draft") ChatEvents.initial)).
  reflexivity.
Defined.


Lemma alternating_app_pair (u a : Chat.Message) :
  Chat.sender u = Chat.user -> Chat.sender a = Chat.assistant ->
  forall n ms, length ms <= n ->
    ChatEvents.alternating ms = true ->
    ChatEvents.alternating (ms ++ [u; a]) = true.
Proof.
  intros Hu Ha; induction n as [|n IH]; intros ms Hn H.
  - destruct ms; [|simpl in Hn; lia]. simpl; rewrite Hu, Ha; reflexivity.
  - destruct ms as [|x [|y ms]]; [simpl; rewrite Hu, Ha; reflexivity
                                 | discriminate H |].
    cbn [app ChatEvents.alternating] in *.
    destruct (Chat.sender x); [|discriminate H].
    destruct (Chat.sender y); [discriminate H|].
    apply IH; [simpl in Hn; lia | exact H].
Qed.

Lemma handleSubmit_grows (toLowerCase : jsstring -> jsstring)
    (server : Chat.request -> Chat.reply) (now : N) (isImage : bool)
    (overrideInput : option jsstring) (st : Chat.state) :
  Chat.messages (Chat.handleSubmit toLowerCase server now isImage
                   overrideInput st) = Chat.messages st
  \/ exists u a,
       Chat.messages (Chat.handleSubmit toLowerCase server now isImage
                        overrideInput st) = Chat.messages st ++ [u; a]
       /\ Chat.sender u = Chat.user /\ Chat.sender a = Chat.assistant.
Proof.
  unfold Chat.handleSubmit.
  destruct (Chat.rejected _ st); [left; reflexivity | right].
  match goal with
  | |- context [Chat.submit _ _ _ ?k _ ?e _] =>
      destruct (submit_messages toLowerCase server now k isImage e st)
        as (a & Hm & Ha);
      exists (Chat.userMessage now e st), a
  end.
  repeat split; [exact Hm | exact Ha].
Qed.

Lemma step_grows (toLowerCase : jsstring -> jsstring)
    (server : Chat.request -> Chat.reply) (e : ChatEvents.event)
    (st : Chat.state) :
  Chat.messages (ChatEvents.step toLowerCase server e st) = Chat.messages st
  \/ exists u a,
       Chat.messages (ChatEvents.step toLowerCase server e st)
       = Chat.messages st ++ [u; a]
       /\ Chat.sender u = Chat.user /\ Chat.sender a = Chat.assistant.
Proof.
  destruct e; cbn [ChatEvents.step]; try (left; reflexivity);
    apply handleSubmit_grows.
Qed.

(** X10.  Whatever the user does (typing, picking images, sending, the
    image button, the debug callback), the transcript only grows, and it
    grows by pairs: each message of the user is followed by one of the
    assistant, also when the request fails. *)
Theorem transcript_grows_by_pairs
    (toLowerCase : jsstring -> jsstring) (server : Chat.request -> Chat.reply)
    (es : list ChatEvents.event) (st : Chat.state) :
  ChatEvents.alternating (Chat.messages st) = true ->
  ChatEvents.alternating
    (Chat.messages (ChatEvents.run toLowerCase server es st)) = true
  /\ exists more,
       Chat.messages (ChatEvents.run toLowerCase server es st)
       = Chat.messages st ++ more.
Proof.
  revert st; induction es as [|e es IH]; intros st H.
  - split; [exact H | exists []; rewrite app_nil_r; reflexivity].
  - change (ChatEvents.run toLowerCase server (e :: es) st)
      with (ChatEvents.run toLowerCase server es
              (ChatEvents.step toLowerCase server e st)).
    destruct (step_grows toLowerCase server e st)
      as [E | (u & a & E & Hu & Ha)].
    + destruct (IH (ChatEvents.step toLowerCase server e st)) as [A [more M]];
        [rewrite E; exact H|].
      split; [exact A | exists more; rewrite M, E; reflexivity].
    + destruct (IH (ChatEvents.step toLowerCase server e st)) as [A [more M]].
      { rewrite E. apply (alternating_app_pair u a Hu Ha _ _ (le_n _) H). }
      split; [exact A|].
      exists ([u; a] ++ more); rewrite M, E, <- app_assoc; reflexivity.
Qed.

Lemma transcript_grows_by_pairs_witness :
  ChatEvents.alternating
    (Chat.messages
       (ChatEvents.run (fun s => s) (fun _ => Chat.failure (lit "offline"))
          [ChatEvents.type_text (lit "hello"); ChatEvents.send 7;
           ChatEvents.send 9; ChatEvents.debug 11 (lit "boom")]
          ChatEvents.initial)) = true
  /\ exists more,
       Chat.messages
         (ChatEvents.run (fun s => s) (fun _ => Chat.failure (lit "offline"))
            [ChatEvents.type_text (lit "hello"); ChatEvents.send 7;
             ChatEvents.send 9; ChatEvents.debug 11 (lit "boom")]
            ChatEvents.initial)
       = Chat.messages ChatEvents.initial ++ more.
Proof.
  apply (transcript_grows_by_pairs (fun s => s)
           (fun _ => Chat.failure (lit "offline"))).
  reflexivity.
Defined.

Lemma split_without (c : char16) (s : jsstring) :
  Shapes.none_in (fun x => (x =? c)%N) s = true ->
  ChatEvents.split c s = [s].
Proof.
  induction s as [|x s IH]; intros H; [reflexivity|].
  simpl in H; apply andb_true_iff in H; destruct H as [Hx H].
  apply negb_true_iff in Hx.
  cbn [ChatEvents.split]; rewrite Hx, (IH H); reflexivity.
Qed.

Lemma split_at_first (c : char16) (a b : jsstring) :
  Shapes.none_in (fun x => (x =? c)%N) a = true ->
  ChatEvents.split c (a ++ c :: b) = a :: ChatEvents.split c b.
Proof.
  induction a as [|x a IH]; intros H.
  - cbn [app ChatEvents.split]; rewrite N.eqb_refl; reflexivity.
  - simpl in H; apply andb_true_iff in H; destruct H as [Hx H].
    apply negb_true_iff in Hx.
    cbn [app ChatEvents.split]; rewrite Hx, (IH H); reflexivity.
Qed.

(** X11.  Selecting a file attaches the base64 payload of its data URL,
    the text between the first comma and the next, under the file's own
    type, and only for a type that begins with [image/]; any other file is
    refused. *)
Theorem handleImageSelect_takes_payload
    (f : ChatEvents.file) (others : list ChatEvents.file)
    (header payload : jsstring) :
  ChatEvents.dataURL f = header ++ 44%N :: payload ->
  Shapes.none_in (fun x => (x =? 44)%N) header = true ->
  Shapes.none_in (fun x => (x =? 44)%N) payload = true ->
  ChatEvents.handleImageSelect (f :: others)
  = if starts_with (lit "image/") (ChatEvents.file_type f)
    then ChatEvents.selected
           {| Chat.url := ChatEvents.objectURL f;
              Chat.mimeType := ChatEvents.file_type f;
              Chat.data := payload |}
    else ChatEvents.not_an_image.
Proof.
  intros Hd Hh Hp; unfold ChatEvents.handleImageSelect.
  destruct (starts_with (lit "image/") (ChatEvents.file_type f));
    [|reflexivity].
  cbn [negb]. rewrite Hd, (split_at_first _ _ _ Hh), (split_without _ _ Hp).
  reflexivity.
Qed.

Lemma handleImageSelect_takes_payload_witness :
  ChatEvents.handleImageSelect
    [ {| ChatEvents.file_type := lit "image/png";
         ChatEvents.objectURL := lit "blob:1";
         ChatEvents.dataURL := lit "data:image/png;base64,iVBORw0KGgo=" |} ]
  = ChatEvents.selected
      {| Chat.url := lit "blob:1"; Chat.mimeType := lit "image/png";
         Chat.data := lit "iVBORw0KGgo=" |}.
Proof.
  exact (handleImageSelect_takes_payload
           {| ChatEvents.file_type := lit "image/png";
              ChatEvents.objectURL := lit "blob:1";
              ChatEvents.dataURL := lit "data:image/png;base64,iVBORw0KGgo=" |}
           [] (lit "data:image/png;base64") (lit "iVBORw0KGgo=")
           eq_refl eq_refl eq_refl).
Defined.


(* ================================================================== *)
(** * Reading a message aloud *)
(* ================================================================== *)

(** A replacement string without [$] is inserted as it is. *)
Lemma substitute_plain (ng : nat) (tpl matched : jsstring) (cs : captures) :
  Shapes.none_in (fun c => (c =? 36)%N) tpl = true ->
  substitute ng tpl matched cs = tpl.
Proof.
  induction tpl as [|c tpl IH]; intros H; [reflexivity|].
  simpl in H; apply andb_true_iff in H; destruct H as [Hc H].
  apply negb_true_iff in Hc.
  cbn [substitute]; rewrite Hc, (IH H); reflexivity.
Qed.

(** A global replacement by a plain string only moves characters of the
    input and of the replacement to the output. *)
Lemma replace_all_from_keeps (q : char16 -> bool) (r : regex)
    (tpl : jsstring) :
  Shapes.none_in (fun c => (c =? 36)%N) tpl = true ->
  all_in q tpl = true ->
  forall s k, all_in q s = true -> all_in q (replace_all_from r tpl k s) = true.
Proof.
  intros Hd Ht; induction s as [|c s IH]; intros k Hs.
  - destruct k; [|reflexivity]. cbn [replace_all_from].
    destruct (match_here r []) as [[rest cs]|]; [|reflexivity].
    rewrite (substitute_plain _ _ _ _ Hd); exact Ht.
  - simpl in Hs; apply andb_true_iff in Hs; destruct Hs as [Hc Hs].
    destruct k as [|k]; [|apply IH; exact Hs].
    cbn [replace_all_from].
    destruct (match_here r (c :: s)) as [[rest cs]|].
    + rewrite (substitute_plain _ _ _ _ Hd).
      destruct (length (c :: s) - length rest);
        unfold all_in in *; rewrite forallb_app, Ht; cbn [andb forallb];
        rewrite ?Hc; cbn [andb]; apply IH; exact Hs.
    + unfold all_in in *; cbn [forallb]; rewrite Hc; apply IH; exact Hs.
Qed.

(** Replacing a class by nothing filters it out. *)
Lemma replace_all_class (p : char16 -> bool) (s : jsstring) :
  replace_all (Cls p) (lit "") s = filter (fun c => negb (p c)) s.
Proof.
  induction s as [|c s IH]; [reflexivity|].
  cbn [filter]. destruct (p c) eqn:E; cbn [negb].
  - transitivity (substitute (ngroups (Cls p)) (lit "") [c] []
                  ++ replace_all (Cls p) (lit "") s); [|exact IH].
    apply (replace_all_here (Cls p) (lit "") [c] s []); [discriminate|].
    unfold match_here; cbn [app m]; rewrite E; reflexivity.
  - unfold replace_all in *; cbn [replace_all_from].
    unfold match_here; cbn [m]; rewrite E, IH; reflexivity.
Qed.

Lemma all_in_filter (q : char16 -> bool) (s : jsstring) :
  all_in q (filter q s) = true.
Proof.
  induction s as [|c s IH]; [reflexivity|].
  cbn [filter]; destruct (q c) eqn:E; [|exact IH].
  unfold all_in in *; cbn [forallb]; rewrite E; exact IH.
Qed.

(** X12.  The text sent to the speech service holds none of the markdown
    markers [*], [#], [_], [~] and the backquote, whatever the message. *)
Theorem cleanText_has_no_markers (text : jsstring) :
  Shapes.none_in Speech.is_marker (Speech.cleanText text) = true.
Proof.
  unfold Speech.cleanText, replace_all.
  apply (replace_all_from_keeps (fun c => negb (Speech.is_marker c)));
    [reflexivity | reflexivity |].
  fold (replace_all Speech.marker_re (lit "")
          (replace_all_from Speech.fence_re (lit "Code block omitted.") 0 text)).
  unfold Speech.marker_re; rewrite replace_all_class.
  apply all_in_filter.
Qed.



(** X14.  A second press on the message that is being read stops it:
    when a call of [speak] has started a voice for a message, the next call
    for the same message leaves no voice on and no message marked. *)
Theorem second_press_stops_the_voice
    (service service' : jsstring -> Speech.fetched)
    (atob : jsstring -> jsstring + jsstring)
    (text messageId : jsstring) (st : Chat.state) (v : Speech.voices) :
  Chat.speakingMessageId
    (fst (Speech.speak service atob text messageId st v)) = Some messageId ->
  let (st1, v1) := Speech.speak service atob text messageId st v in
  let (st2, v2) := Speech.speak service' atob text messageId st1 v1 in
  Chat.speakingMessageId st2 = None
  /\ Chat.isGeneratingSpeech st2 = None
  /\ Speech.audioRef v2 = None
  /\ (Speech.utterances v2 = Some [] \/ Speech.utterances v2 = None).
Proof.
  destruct (Speech.speak service atob text messageId st v) as [st1 v1].
  cbn [fst]; intros H.
  unfold Speech.speak; rewrite H; cbn [Speech.is_id].
  rewrite jseq_refl; cbn [orb].
  unfold Speech.silence; destruct (Speech.utterances v1); cbn;
    repeat split; auto.
Qed.

Lemma second_press_stops_the_voice_witness :
  let (st1, v1) :=
    Speech.speak (fun _ => Speech.fetched_data None (Some (lit "UklGRg==")) (lit "audio/wav"))
      (fun s => inl s) (lit "Hello") (lit "17") ChatEvents.initial
      {| Speech.audioRef := None; Speech.utterances := Some [] |} in
  let (st2, v2) :=
    Speech.speak (fun _ => Speech.fetch_failed (lit "offline"))
      (fun s => inl s) (lit "Hello") (lit "17") st1 v1 in
  Chat.speakingMessageId st2 = None
  /\ Chat.isGeneratingSpeech st2 = None
  /\ Speech.audioRef v2 = None
  /\ (Speech.utterances v2 = Some [] \/ Speech.utterances v2 = None).
Proof.
  apply (second_press_stops_the_voice
           (fun _ => Speech.fetched_data None (Some (lit "UklGRg==")) (lit "audio/wav"))
           (fun _ => Speech.fetch_failed (lit "offline"))
           (fun s => inl s) (lit "Hello") (lit "17") ChatEvents.initial
           {| Speech.audioRef := None; Speech.utterances := Some [] |}).
  reflexivity.
Defined.


(* ================================================================== *)
(** * The routes behind the chat *)
(* ================================================================== *)

Lemma last_of_app (l : list Api.wire_message) (x : Api.wire_message) :
  Api.last_of (l ++ [x]) = Some x.
Proof.
  induction l as [|y l IH]; [reflexivity|].
  cbn [app Api.last_of]. rewrite IH.
  destruct (l ++ [x]) eqn:E; [destruct l; discriminate E | reflexivity].
Qed.

Lemma removelast_app_one {A : Type} (l : list A) (x : A) :
  removelast (l ++ [x]) = l.
Proof. rewrite removelast_app; [apply app_nil_r | discriminate]. Qed.

Section EndToEnd.

Variable toLowerCase : jsstring -> jsstring.
Variable startChat : list Api.turn -> option jsstring.
Variable sendMessage : list Api.turn -> list Api.part -> Api.outcome Api.response.
Variable generateContent :
  jsstring -> jsstring -> Api.outcome (option (jsstring * jsstring)).
Variable type_error : jsstring -> jsstring.
Variable apiKey : option jsstring.

Local Abbreviation server :=
  (Api.backend startChat sendMessage generateContent type_error apiKey).

(** The request body of a chat submission, as the route reads it. *)
Lemma wire_of_history (now : N) (entered : jsstring) (st : Chat.state) :
  Api.wire_of
    (List.map (fun msg => (Chat.sender msg, Chat.content msg,
                           Chat.attachments msg))
       (Chat.messages st ++ [Chat.userMessage now entered st]))
  = Api.wire_of
      (List.map (fun msg => (Chat.sender msg, Chat.content msg,
                             Chat.attachments msg)) (Chat.messages st))
    ++ [ {| Api.role := lit "user"; Api.content := entered;
            Api.attachments := match Chat.selectedImage st with
                               | Some a => Some [a]
                               | None => None
                               end |} ].
Proof.
  unfold Api.wire_of; rewrite !map_app; reflexivity.
Qed.

(** What a chat submission gets through the route. *)
Lemma backend_chat (now : N) (entered : jsstring) (st : Chat.state) :
  Api.missing apiKey = false ->
  let history :=
    List.map Api.turn_of
      (Api.wire_of
         (List.map (fun msg => (Chat.sender msg, Chat.content msg,
                                Chat.attachments msg)) (Chat.messages st))) in
  let prompt :=
    Api.text_part entered
    :: match Chat.selectedImage st with
       | Some a => [Api.inline_part (Chat.mimeType a) (Chat.data a)]
       | None => []
       end in
  Api.chat_POST startChat sendMessage generateContent type_error apiKey
    (Some (Api.wire_of
             (List.map (fun msg => (Chat.sender msg, Chat.content msg,
                                    Chat.attachments msg))
                (Chat.messages st ++ [Chat.userMessage now entered st]))))
  = match startChat history with
    | Some message => Api.gemini_error message
    | None =>
        match sendMessage history prompt with
        | Api.threw message => Api.gemini_error message
        | Api.returned r => Api.respond generateContent r
        end
    end.
Proof.
  intros Hk history prompt; unfold Api.chat_POST; rewrite Hk.
  rewrite wire_of_history, removelast_app_one, last_of_app.
  fold history. destruct (startChat history); [reflexivity|].
  unfold Api.parts_of; cbn [Api.content Api.attachments].
  destruct (Chat.selectedImage st); reflexivity.
Qed.

End EndToEnd.

(** What a chat submission that is not an image request gets through
    the client's [fetch] and the chat route. *)
Lemma backend_of_chat_request
    (toLowerCase : jsstring -> jsstring)
    (startChat : list Api.turn -> option jsstring)
    (sendMessage : list Api.turn -> list Api.part -> Api.outcome Api.response)
    (generateContent :
       jsstring -> jsstring -> Api.outcome (option (jsstring * jsstring)))
    (type_error : jsstring -> jsstring) (apiKey : option jsstring)
    (now : N) (entered : jsstring) (st : Chat.state) :
  Api.missing apiKey = false ->
  Chat.is_image_command toLowerCase entered = false ->
  let history :=
    List.map
      (fun msg =>
         {| Api.turn_role := match Chat.sender msg with
                             | Chat.user => lit "user"
                             | Chat.assistant => lit "model"
                             end;
            Api.parts :=
              Api.text_part (Chat.content msg)
              :: match Chat.attachments msg with
                 | Some l =>
                     List.map (fun a => Api.inline_part (Chat.mimeType a)
                                          (Chat.data a)) l
                 | None => []
                 end |})
      (Chat.messages st) in
  let prompt :=
    Api.text_part entered
    :: match Chat.selectedImage st with
       | Some a => [Api.inline_part (Chat.mimeType a) (Chat.data a)]
       | None => []
       end in
  Api.backend startChat sendMessage generateContent type_error apiKey
    (Chat.request_of toLowerCase now false entered st)
  = match startChat history with
    | Some _ => Chat.failure (lit "Gemini Error")
    | None =>
        match sendMessage history prompt with
        | Api.threw _ => Chat.failure (lit "Gemini Error")
        | Api.returned r =>
            match Api.json (Api.respond generateContent r) with
            | Api.chat_error error _ => Chat.failure error
            | Api.chat_answer c t u => Chat.json c (Some t) u
            end
        end
    end.
Proof.
  intros Hk Hc history prompt.
  unfold Chat.request_of; rewrite Hc; cbn [orb Api.backend].
  rewrite (backend_chat startChat sendMessage generateContent type_error
             apiKey now entered st Hk).
  assert (E : List.map Api.turn_of
                (Api.wire_of
                   (List.map (fun msg => (Chat.sender msg, Chat.content msg,
                                          Chat.attachments msg))
                      (Chat.messages st))) = history).
  { unfold history, Api.wire_of; rewrite !map_map.
    apply map_ext; intros msg; unfold Api.turn_of, Api.parts_of; cbn.
    destruct (Chat.sender msg); reflexivity. }
  rewrite E. fold prompt.
  destruct (startChat history); [reflexivity|].
  destruct (sendMessage history prompt); reflexivity.
Qed.

(** X15.  The model receives the whole transcript: for a submission that
    is not an image request, the history given to [startChat] has one
    entry for each earlier message, in order, the assistant's under the
    role [model], and the prompt is the submitted text with the selected
    image as inline data. *)
Theorem model_receives_whole_transcript
    (toLowerCase : jsstring -> jsstring)
    (startChat : list Api.turn -> option jsstring)
    (sendMessage : list Api.turn -> list Api.part -> Api.outcome Api.response)
    (generateContent :
       jsstring -> jsstring -> Api.outcome (option (jsstring * jsstring)))
    (type_error : jsstring -> jsstring) (apiKey : option jsstring)
    (now : N) (entered : jsstring) (st : Chat.state) :
  Api.missing apiKey = false ->
  Chat.is_image_command toLowerCase entered = false ->
  let history :=
    List.map
      (fun msg =>
         {| Api.turn_role := match Chat.sender msg with
                             | Chat.user => lit "user"
                             | Chat.assistant => lit "model"
                             end;
            Api.parts :=
              Api.text_part (Chat.content msg)
              :: match Chat.attachments msg with
                 | Some l =>
                     List.map (fun a => Api.inline_part (Chat.mimeType a)
                                          (Chat.data a)) l
                 | None => []
                 end |})
      (Chat.messages st) in
  let prompt :=
    Api.text_part entered
    :: match Chat.selectedImage st with
       | Some a => [Api.inline_part (Chat.mimeType a) (Chat.data a)]
       | None => []
       end in
  Api.backend startChat sendMessage generateContent type_error apiKey
    (Chat.request_of toLowerCase now false entered st)
  = match startChat history with
    | Some _ => Chat.failure (lit "Gemini Error")
    | None =>
        match sendMessage history prompt with
        | Api.threw _ => Chat.failure (lit "Gemini Error")
        | Api.returned r =>
            match Api.json (Api.respond generateContent r) with
            | Api.chat_error error _ => Chat.failure error
            | Api.chat_answer c t u => Chat.json c (Some t) u
            end
        end
    end.
Proof.
  exact (backend_of_chat_request toLowerCase startChat sendMessage
           generateContent type_error apiKey now entered st).
Qed.

Lemma model_receives_whole_transcript_witness :
  Api.backend (fun _ => None)
    (fun h p => Api.returned
                  {| Api.call := None;
                     Api.text := Api.returned (lit "pong") |})
    (fun _ _ => Api.threw (lit "unused")) (fun s => s) (Some (lit "key"))
    (Chat.request_of (fun s => s) 3 false (lit "ping") ChatEvents.initial)
  = Chat.json (lit "pong") (Some Chat.text) None.
Proof.
  exact (model_receives_whole_transcript (fun s => s) (fun _ => None)
           (fun h p => Api.returned
                         {| Api.call := None;
                            Api.text := Api.returned (lit "pong") |})
           (fun _ _ => Api.threw (lit "unused")) (fun s => s)
           (Some (lit "key")) 3 (lit "ping") ChatEvents.initial
           eq_refl eq_refl).
Defined.


Lemma submit_transcript (toLowerCase : jsstring -> jsstring)
    (server : Chat.request -> Chat.reply) (now : N)
    (keep isImage : bool) (entered : jsstring) (st : Chat.state) :
  Chat.messages (Chat.submit toLowerCase server now keep isImage entered st)
  = Chat.messages st
    ++ [Chat.userMessage now entered st;
        Chat.answer now (Chat.request_of toLowerCase now isImage entered st)
          (server (Chat.request_of toLowerCase now isImage entered st))].
Proof.
  unfold Chat.submit; destruct keep; cbn; rewrite <- app_assoc; reflexivity.
Qed.

Lemma answer_of_failure (now : N) (req : Chat.request) (message : jsstring) :
  Chat.content (Chat.answer now req (Chat.failure message))
  = lit "Error: " ++ message.
Proof. reflexivity. Qed.

(** X16.  When the chat route fails, the transcript shows the title of
    the error and never its details: [Error: Configuration Error] without
    an API key, [Error: Gemini Error] when the model cannot be reached,
    after the user's own message. *)
Theorem route_failure_shows_its_title
    (toLowerCase : jsstring -> jsstring)
    (startChat : list Api.turn -> option jsstring)
    (sendMessage : list Api.turn -> list Api.part -> Api.outcome Api.response)
    (generateContent :
       jsstring -> jsstring -> Api.outcome (option (jsstring * jsstring)))
    (type_error : jsstring -> jsstring) (apiKey : option jsstring)
    (now : N) (overrideInput : option jsstring) (st : Chat.state) :
  let entered := Chat.messageInput overrideInput (Chat.input st) in
  Chat.rejected entered st = false ->
  Chat.is_image_command toLowerCase entered = false ->
  Api.missing apiKey = true
  \/ (forall h p, exists message, sendMessage h p = Api.threw message) ->
  exists u a,
    Chat.messages
      (Chat.handleSubmit toLowerCase
         (Api.backend startChat sendMessage generateContent type_error apiKey)
         now false overrideInput st)
    = Chat.messages st ++ [u; a]
    /\ Chat.content u = entered
    /\ Chat.content a
       = if Api.missing apiKey then lit "Error: Configuration Error"
         else lit "Error: Gemini Error".
Proof.
  intros entered Hr Hc Hfail.
  unfold Chat.handleSubmit; fold entered; rewrite Hr.
  rewrite submit_transcript.
  eexists; eexists; split; [reflexivity|]. split; [reflexivity|].
  destruct (Api.missing apiKey) eqn:Hk.
  - unfold Chat.request_of; rewrite Hc; cbn [orb Api.backend].
    unfold Api.chat_POST; rewrite Hk; reflexivity.
  - destruct Hfail as [Hm | Hs]; [discriminate Hm|].
    rewrite (backend_of_chat_request toLowerCase startChat sendMessage
               generateContent type_error apiKey now entered st Hk Hc).
    destruct (startChat _); [reflexivity|].
    match goal with
    | |- context [sendMessage ?h ?p] => destruct (Hs h p) as [message E]
    end.
    rewrite E; reflexivity.
Qed.

Lemma route_failure_shows_its_title_witness :
  exists u a,
    Chat.messages
      (Chat.handleSubmit (fun s => s)
         (Api.backend (fun _ => None)
            (fun _ _ => Api.threw (lit "fetch failed: ECONNRESET"))
            (fun _ _ => Api.returned None) (fun s => s) (Some (lit "key")))
         5 false None (Chat.set_input (lit "hello") ChatEvents.initial))
    = Chat.messages (Chat.set_input (lit "hello") ChatEvents.initial)
      ++ [u; a]
    /\ Chat.content u = lit "hello"
    /\ Chat.content a = lit "Error: Gemini Error".
Proof.
  apply (route_failure_shows_its_title (fun s => s) (fun _ => None)
           (fun _ _ => Api.threw (lit "fetch failed: ECONNRESET"))
           (fun _ _ => Api.returned None) (fun s => s) (Some (lit "key"))
           5 None (Chat.set_input (lit "hello") ChatEvents.initial));
    [reflexivity | reflexivity |].
  right; intros h p; eexists; reflexivity.
Defined.

(** X17.  The image button pressed with an image selected and an empty
    input sends an empty prompt: the image route refuses it with status
    400, the image model is not asked, and the transcript shows the
    user's message with the image attached and then
    [Error: Prompt is required]. *)
Theorem image_button_without_text
    (toLowerCase : jsstring -> jsstring)
    (startChat : list Api.turn -> option jsstring)
    (sendMessage : list Api.turn -> list Api.part -> Api.outcome Api.response)
    (generateContent :
       jsstring -> jsstring -> Api.outcome (option (jsstring * jsstring)))
    (type_error : jsstring -> jsstring) (apiKey : option jsstring)
    (now : N) (a : Chat.attachment) (st : Chat.state) :
  Chat.input st = [] -> Chat.selectedImage st = Some a ->
  Chat.isLoading st = false -> Api.missing apiKey = false ->
  Api.status (Api.image_POST generateContent apiKey (Some []) None) = 400%N
  /\ exists u b,
       Chat.messages
         (ChatEvents.step toLowerCase
            (Api.backend startChat sendMessage generateContent type_error
               apiKey)
            (ChatEvents.image_button now) st)
       = Chat.messages st ++ [u; b]
       /\ Chat.attachments u = Some [a]
       /\ Chat.content b = lit "Error: Prompt is required".
Proof.
  intros Hi Hs Hl Hk.
  split; [unfold Api.image_POST; rewrite Hk; reflexivity|].
  assert (R : Chat.rejected [] st = false)
    by (unfold Chat.rejected; rewrite Hs, Hl; reflexivity).
  cbn [ChatEvents.step]; unfold Chat.handleSubmit.
  cbn [Chat.messageInput]; rewrite Hi, R.
  rewrite submit_transcript.
  eexists; eexists; split; [reflexivity|].
  split; [unfold Chat.userMessage; cbn; rewrite Hs; reflexivity|].
  unfold Chat.request_of; cbn [orb].
  destruct (Chat.is_image_command toLowerCase []);
    cbn [skipn Api.backend]; unfold Api.image_POST; rewrite Hk; reflexivity.
Qed.

Lemma image_button_without_text_witness :
  Api.status
    (Api.image_POST (fun _ _ => Api.returned None) (Some (lit "key"))
       (Some []) None) = 400%N
  /\ exists u b,
       Chat.messages
         (ChatEvents.step (fun s => s)
            (Api.backend (fun _ => None) (fun _ _ => Api.threw [])
               (fun _ _ => Api.returned None) (fun s => s)
               (Some (lit "key")))
            (ChatEvents.image_button 9)
            (Chat.set_selectedImage
               (Some {| Chat.url := lit "blob:1";
                        Chat.mimeType := lit "image/png";
                        Chat.data := lit "AAAA" |}) ChatEvents.initial))
       = Chat.messages
           (Chat.set_selectedImage
              (Some {| Chat.url := lit "blob:1";
                       Chat.mimeType := lit "image/png";
                       Chat.data := lit "AAAA" |}) ChatEvents.initial)
         ++ [u; b]
       /\ Chat.attachments u
          = Some [ {| Chat.url := lit "blob:1";
                      Chat.mimeType := lit "image/png";
                      Chat.data := lit "AAAA" |} ]
       /\ Chat.content b = lit "Error: Prompt is required".
Proof.
  apply (image_button_without_text (fun s => s) (fun _ => None)
           (fun _ _ => Api.threw []) (fun _ _ => Api.returned None)
           (fun s => s) (Some (lit "key")) 9
           {| Chat.url := lit "blob:1"; Chat.mimeType := lit "image/png";
              Chat.data := lit "AAAA" |}); reflexivity.
Defined.

(** X18.  An image request of the chat never names a model, so the route
    takes its default: the image always comes from the pro model, as a
    data URL built from the mime type and the data of the first part; a
    response without inline data and an exception are reported as
    errors. *)
Theorem client_images_come_from_pro_model
    (startChat : list Api.turn -> option jsstring)
    (sendMessage : list Api.turn -> list Api.part -> Api.outcome Api.response)
    (generateContent :
       jsstring -> jsstring -> Api.outcome (option (jsstring * jsstring)))
    (type_error : jsstring -> jsstring) (apiKey : option jsstring)
    (p : jsstring) :
  Api.missing apiKey = false -> Chat.falsy p = false ->
  Api.backend startChat sendMessage generateContent type_error apiKey
    (Chat.generate_image p)
  = match generateContent Api.pro_model p with
    | Api.threw _ => Chat.failure (lit "Nano Banana Generation Failed")
    | Api.returned (Some (mimeType, data)) =>
        Chat.json [] None (Some (lit "data:" ++ mimeType ++ lit ";base64,"
                                 ++ data))
    | Api.returned None =>
        Chat.failure (lit "No image data returned from Nano Banana")
    end.
Proof.
  intros Hk Hp; cbn [Api.backend]; unfold Api.image_POST.
  rewrite Hk, Hp.
  destruct (generateContent Api.pro_model p) as [m | [[mt d]|]]; reflexivity.
Qed.

Lemma client_images_come_from_pro_model_witness :
  Api.backend (fun _ => None) (fun _ _ => Api.threw [])
    (fun model _ =>
       if jseq model Api.pro_model
       then Api.returned (Some (lit "image/png", lit "AAAA"))
       else Api.threw (lit "flash"))
    (fun s => s) (Some (lit "key")) (Chat.generate_image (lit "a cat"))
  = Chat.json [] None (Some (lit "data:image/png;base64,AAAA")).
Proof.
  exact (client_images_come_from_pro_model (fun _ => None)
           (fun _ _ => Api.threw [])
           (fun model _ =>
              if jseq model Api.pro_model
              then Api.returned (Some (lit "image/png", lit "AAAA"))
              else Api.threw (lit "flash"))
           (fun s => s) (Some (lit "key")) (lit "a cat") eq_refl eq_refl).
Defined.

(** X19.  The chat route answers with an image only for a call of
    [generate_image] whose image model returned inline data, and then
    with the data URL of exactly that data; a text answer carries the
    text of the response and no image. *)
Theorem image_answer_needs_inline_data
    (generateContent :
       jsstring -> jsstring -> Api.outcome (option (jsstring * jsstring)))
    (r : Api.response) (c : jsstring) (t : Chat.kind)
    (u : option jsstring) :
  Api.json (Api.respond generateContent r) = Api.chat_answer c t u ->
  match t with
  | Chat.image =>
      exists fc mimeType data,
        Api.call r = Some fc
        /\ Api.name fc = lit "generate_image"
        /\ generateContent
             (if Speech.is_id (Api.quality fc) (lit "high-fidelity")
              then Api.pro_model else Api.flash_model) (Api.prompt fc)
           = Api.returned (Some (mimeType, data))
        /\ u = Some (Api.data_url mimeType data)
  | Chat.text => u = None /\ Api.text r = Api.returned c
  end.
Proof.
  assert (T : forall c t u,
             Api.json (Api.text_answer r) = Api.chat_answer c t u ->
             t = Chat.text /\ u = None /\ Api.text r = Api.returned c).
  { unfold Api.text_answer; intros c' t' u'.
    destruct (Api.text r); cbn; intros H; inversion H; auto. }
  unfold Api.respond.
  destruct (Api.call r) as [fc|] eqn:Hc.
  - destruct (jseq (Api.name fc) (lit "generate_image")) eqn:Hn.
    + destruct (generateContent _ (Api.prompt fc)) as [m | [[mt d]|]] eqn:Hg.
      * cbn; discriminate.
      * cbn; intros H; inversion H; subst.
        exists fc, mt, d; repeat split; auto.
        apply jseq_eq, Hn.
      * intros H; destruct (T _ _ _ H) as (-> & -> & E); auto.
    + intros H; destruct (T _ _ _ H) as (-> & -> & E); auto.
  - intros H; destruct (T _ _ _ H) as (-> & -> & E); auto.
Qed.

Lemma image_answer_needs_inline_data_witness :
  exists fc mimeType data,
    Api.call {| Api.call := Some {| Api.name := lit "generate_image";
                                    Api.prompt := lit "a cat";
                                    Api.quality := None |};
                Api.text := Api.threw (lit "no text") |} = Some fc
    /\ Api.name fc = lit "generate_image"
    /\ (fun _ _ => Api.returned (Some (lit "image/png", lit "AAAA")))
         (if Speech.is_id (Api.quality fc) (lit "high-fidelity")
          then Api.pro_model else Api.flash_model) (Api.prompt fc)
       = Api.returned (Some (mimeType, data))
    /\ Some (lit "data:image/png;base64,AAAA")
       = Some (Api.data_url mimeType data).
Proof.
  exact (image_answer_needs_inline_data
           (fun _ _ => Api.returned (Some (lit "image/png", lit "AAAA")))
           {| Api.call := Some {| Api.name := lit "generate_image";
                                  Api.prompt := lit "a cat";
                                  Api.quality := None |};
              Api.text := Api.threw (lit "no text") |}
           _ Chat.image _ eq_refl).
Defined.

(* ================================================================== *)
(** * The speech route *)
(* ================================================================== *)

(** ** Decimal numerals *)

Lemma lit_String (c : ascii) (s : string) :
  lit (String c s) = N_of_ascii c :: lit s.
Proof. reflexivity. Qed.

Lemma uint_digits (d : Decimal.uint) :
  all_in Wav.is_digit (lit (NilEmpty.string_of_uint d)) = true.
Proof.
  unfold all_in.
  induction d; cbn [NilEmpty.string_of_uint]; [reflexivity | ..];
    rewrite lit_String; cbn [forallb]; rewrite IHd; reflexivity.
Qed.

Lemma uint_value_acc (d : Decimal.uint) (acc : positive) :
  fold_left (fun a c => (10 * a + (c - 48))%N)
    (lit (NilEmpty.string_of_uint d)) (N.pos acc)
  = N.pos (Pos.of_uint_acc d acc).
Proof.
  revert acc; induction d; intros acc;
    cbn [NilEmpty.string_of_uint Pos.of_uint_acc]; [reflexivity | ..];
    rewrite lit_String; cbn [fold_left]; rewrite <- IHd; f_equal;
    match goal with
    | |- context [N_of_ascii ?c] =>
        let v := eval vm_compute in (N_of_ascii c) in
        change (N_of_ascii c) with v
    end; lia.
Qed.

Lemma uint_value (d : Decimal.uint) :
  Wav.decimal_value (lit (NilEmpty.string_of_uint d)) = N.of_uint d.
Proof.
  unfold Wav.decimal_value, N.of_uint.
  induction d; cbn [NilEmpty.string_of_uint Pos.of_uint]; [reflexivity | ..];
    rewrite lit_String; cbn [fold_left];
    match goal with
    | |- context [N_of_ascii ?c] =>
        let v := eval vm_compute in (N_of_ascii c) in
        change (N_of_ascii c) with v
    end;
    [exact IHd | exact (uint_value_acc d _) ..].
Qed.

Lemma toString_value (n : N) : Wav.decimal_value (Chat.toString n) = n.
Proof.
  unfold Chat.toString; rewrite uint_value; apply DecimalN.Unsigned.of_to.
Qed.

Lemma toString_digits (n : N) : all_in Wav.is_digit (Chat.toString n) = true.
Proof. apply uint_digits. Qed.

Lemma toString_not_empty (n : N) : Chat.toString n <> [].
Proof.
  unfold Chat.toString.
  assert (H : N.to_uint n <> Decimal.Nil).
  { destruct n; [discriminate|]. apply DecimalPos.Unsigned.to_uint_nonnil. }
  destruct (N.to_uint n); [contradiction | ..]; discriminate.
Qed.

Lemma take_while_all (f : char16 -> bool) (s : jsstring) :
  all_in f s = true -> Wav.take_while f s = s.
Proof.
  unfold all_in; induction s as [|c s IH]; [reflexivity|].
  cbn [forallb Wav.take_while].
  intros H; apply andb_true_iff in H as [Hc Hs].
  rewrite Hc, (IH Hs); reflexivity.
Qed.

(** A natural number of at most 53 binary digits is a double. *)
Lemma to_double_exact (n : N) :
  (n <= 9007199254740992)%N -> Wav.to_double n = Some n.
Proof.
  intros H; destruct (N.eq_dec n 9007199254740992) as [-> | Hne];
    [vm_compute; reflexivity|].
  unfold Wav.to_double.
  replace (N.size n <=? 53)%N with true; [reflexivity|].
  symmetry; apply N.leb_le.
  destruct (N.le_gt_cases (N.size n) 53) as [L | G]; [exact L | exfalso].
  pose proof (N.size_le n) as S.
  assert (P : (2 ^ 54 <= 2 ^ N.size n)%N)
    by (apply N.pow_le_mono_r; lia).
  rewrite N.succ_double_spec in S.
  change (2 ^ 54)%N with 18014398509481984%N in P. lia.
Qed.

(** [parseInt] reads back a number printed in decimal, as long as it is a
    double. *)
Lemma parseInt_toString (n : N) :
  (n <= 9007199254740992)%N ->
  Wav.parseInt (Some (Chat.toString n)) = Wav.of_N n.
Proof.
  intros Hb.
  pose proof (toString_digits n) as Hd.
  pose proof (toString_not_empty n) as Hn.
  pose proof (toString_value n) as Hv.
  unfold Wav.parseInt.
  destruct (Chat.toString n) as [|c s] eqn:E; [contradiction|].
  assert (Hc : Wav.is_digit c = true)
    by (cbn [all_in forallb] in Hd; apply andb_true_iff in Hd; tauto).
  assert (Hs : is_space c = false).
  { unfold Wav.is_digit, in_range in Hc.
    apply andb_true_iff in Hc as [H1 H2].
    apply N.leb_le in H1; apply N.leb_le in H2.
    unfold is_space, is_line_terminator, in_range.
    repeat match goal with
           | |- context [(c =? ?k)%N] =>
               replace (c =? k)%N with false
                 by (symmetry; apply N.eqb_neq; lia)
           end.
    replace (8192 <=? c)%N with false by (symmetry; apply N.leb_gt; lia).
    reflexivity. }
  cbn [drop_while]; rewrite Hs.
  assert (H45 : (c =? 45)%N = false).
  { unfold Wav.is_digit, in_range in Hc.
    apply andb_true_iff in Hc as [H1 H2]; apply N.leb_le in H1.
    apply N.eqb_neq; lia. }
  assert (H43 : (c =? 43)%N = false).
  { unfold Wav.is_digit, in_range in Hc.
    apply andb_true_iff in Hc as [H1 H2]; apply N.leb_le in H1.
    apply N.eqb_neq; lia. }
  rewrite H45, H43, (take_while_all _ _ Hd), Hv, (to_double_exact n Hb).
  reflexivity.
Qed.

(** Beyond 2^53 the value read is the nearest double, and beyond the
    largest double it is an infinity. *)
Example parseInt_rounds_to_double :
  Wav.parseInt (Some (lit "9007199254740993")) = Wav.of_N 9007199254740992
  /\ Wav.parseInt (Some (lit "9007199254740995"))
     = Wav.of_N 9007199254740996
  /\ Wav.parseInt (Some (lit "-1" ++ repeat 48%N 400)) = Wav.inf true.
Proof. repeat split; vm_compute; reflexivity. Qed.

(** ** [parseMimeType] *)

Lemma none_in_rev (f : char16 -> bool) (s : jsstring) :
  Shapes.none_in f s = true -> Shapes.none_in f (rev s) = true.
Proof.
  unfold Shapes.none_in; rewrite !forallb_forall.
  intros H c Hc; apply H, in_rev, Hc.
Qed.

Lemma drop_while_none (f : char16 -> bool) (s : jsstring) :
  Shapes.none_in f s = true -> drop_while f s = s.
Proof.
  destruct s as [|c s]; [reflexivity|].
  unfold Shapes.none_in; cbn [forallb drop_while]; intros H.
  apply andb_true_iff in H as [Hc _]; apply negb_true_iff in Hc.
  rewrite Hc; reflexivity.
Qed.

(** A text without white space is its own [trim]. *)
Lemma trim_none (s : jsstring) :
  Shapes.none_in is_space s = true -> trim s = s.
Proof.
  intros H; unfold trim.
  rewrite (drop_while_none _ _ H).
  rewrite (drop_while_none _ _ (none_in_rev _ _ H)).
  apply rev_involutive.
Qed.

Lemma none_in_app (f : char16 -> bool) (a b : jsstring) :
  Shapes.none_in f a = true -> Shapes.none_in f b = true ->
  Shapes.none_in f (a ++ b) = true.
Proof.
  unfold Shapes.none_in; rewrite forallb_app; intros -> ->; reflexivity.
Qed.

(** A class that holds no digit holds no character of a decimal numeral. *)
Lemma digits_none_in (f : char16 -> bool) (s : jsstring) :
  (forall c, Wav.is_digit c = true -> f c = false) ->
  all_in Wav.is_digit s = true -> Shapes.none_in f s = true.
Proof.
  intros Hf; unfold all_in, Shapes.none_in; rewrite !forallb_forall.
  intros H c Hc; rewrite (Hf c (H c Hc)); reflexivity.
Qed.

Lemma digit_bounds (c : char16) :
  Wav.is_digit c = true -> (48 <= c <= 57)%N.
Proof.
  unfold Wav.is_digit, in_range; intros H.
  apply andb_true_iff in H as [H1 H2].
  apply N.leb_le in H1; apply N.leb_le in H2; lia.
Qed.

Lemma digit_is_not (k : N) (c : char16) :
  (k < 48 \/ 57 < k)%N -> Wav.is_digit c = true -> (c =? k)%N = false.
Proof.
  intros Hk Hc; apply digit_bounds in Hc; apply N.eqb_neq; lia.
Qed.

Lemma digit_not_space (c : char16) :
  Wav.is_digit c = true -> is_space c = false.
Proof.
  intros Hc; apply digit_bounds in Hc.
  unfold is_space, is_line_terminator, in_range.
  repeat match goal with
         | |- context [(c =? ?k)%N] =>
             replace (c =? k)%N with false
               by (symmetry; apply N.eqb_neq; lia)
         end.
  replace (8192 <=? c)%N with false by (symmetry; apply N.leb_gt; lia).
  reflexivity.
Qed.

Lemma toString_none_in (f : char16 -> bool) (n : N) :
  (forall c, Wav.is_digit c = true -> f c = false) ->
  Shapes.none_in f (Chat.toString n) = true.
Proof. intros Hf; apply (digits_none_in f _ Hf), toString_digits. Qed.

(** The pieces of a text made of pieces without the separator. *)
Lemma split_pieces (c : char16) (ps : list jsstring) :
  forall a z : jsstring,
  Shapes.none_in (fun x => (x =? c)%N) a = true ->
  Forall (fun p => Shapes.none_in (fun x => (x =? c)%N) p = true) ps ->
  ChatEvents.split c (a ++ concat (List.map (cons c) ps) ++ c :: z)
  = a :: ps ++ ChatEvents.split c z.
Proof.
  induction ps as [|p ps IH]; intros a z Ha Hps.
  - cbn [List.map concat app]; apply split_at_first, Ha.
  - inversion Hps as [|? ? Hp Hps']; subst.
    cbn [List.map concat]. rewrite <- !app_assoc. cbn [app].
    rewrite (split_at_first c a _ Ha), (IH p z Hp Hps'); reflexivity.
Qed.

Lemma params_without_rate (others : list jsstring)
    (o : Wav.WavConversionOptions) :
  Forall (fun p => jseq (Wav.key_of (trim p)) (lit "rate") = false) others ->
  fold_left Wav.read_param (List.map trim others) o = o.
Proof.
  induction 1 as [|p ps Hp _ IH]; [reflexivity|].
  cbn [List.map fold_left]; unfold Wav.read_param at 2; rewrite Hp; exact IH.
Qed.

(** The options read from a PCM type. *)
Lemma parseMimeType_pcm (bits rate : N)
    (others : list jsstring) :
  Forall (fun p => Shapes.none_in (fun x => (x =? 59)%N) p = true
                   /\ jseq (Wav.key_of (trim p)) (lit "rate") = false)
    others ->
  (bits <= 9007199254740992)%N -> (rate <= 9007199254740992)%N ->
  Wav.parseMimeType
    (lit "audio/L" ++ Chat.toString bits
     ++ concat (List.map (cons 59%N) others)
     ++ lit ";rate=" ++ Chat.toString rate)
  = {| Wav.numChannels := Some (Wav.of_N 1);
       Wav.sampleRate := Some (Wav.of_N rate);
       Wav.bitsPerSample := Some (Wav.of_N bits) |}.
Proof.
  intros Ho Bb Br.
  assert (Ho1 : Forall (fun p => Shapes.none_in (fun x => (x =? 59)%N) p
                                 = true) others)
    by (eapply Forall_impl; [|exact Ho]; cbv beta; tauto).
  assert (Ho2 : Forall (fun p => jseq (Wav.key_of (trim p)) (lit "rate")
                                 = false) others)
    by (eapply Forall_impl; [|exact Ho]; cbv beta; tauto).
  pose proof (parseInt_toString bits Bb) as Pb.
  pose proof (parseInt_toString rate Br) as Pr.
  clear Bb Br.
  assert (Nb : forall k, (k < 48 \/ 57 < k)%N ->
               Shapes.none_in (fun x => (x =? k)%N) (Chat.toString bits)
               = true)
    by (intros k Hk; apply toString_none_in; intros c; apply digit_is_not, Hk).
  assert (Nr : forall k, (k < 48 \/ 57 < k)%N ->
               Shapes.none_in (fun x => (x =? k)%N) (Chat.toString rate)
               = true)
    by (intros k Hk; apply toString_none_in; intros c; apply digit_is_not, Hk).
  assert (Sb : Shapes.none_in is_space (Chat.toString bits) = true)
    by (apply toString_none_in, digit_not_space).
  assert (Sr : Shapes.none_in is_space (Chat.toString rate) = true)
    by (apply toString_none_in, digit_not_space).
  generalize dependent (Chat.toString rate).
  generalize dependent (Chat.toString bits).
  intros B Pb Nb Sb R Pr Nr Sr.
  assert (S : ChatEvents.split 59%N
                (lit "audio/L" ++ B ++ concat (List.map (cons 59%N) others)
                 ++ lit ";rate=" ++ R)
              = (lit "audio/L" ++ B) :: others ++ [lit "rate=" ++ R]).
  { transitivity
      (ChatEvents.split 59%N
         ((lit "audio/L" ++ B) ++ concat (List.map (cons 59%N) others)
          ++ 59%N :: (lit "rate=" ++ R))).
    - rewrite <- app_assoc; reflexivity.
    - rewrite split_pieces; [| |exact Ho1].
      + rewrite split_without; [reflexivity|].
        apply none_in_app; [reflexivity | apply Nr; lia].
      + apply none_in_app; [reflexivity | apply Nb; lia]. }
  assert (F : ChatEvents.split 47%N (lit "audio/L" ++ B)
              = [lit "audio"; 76%N :: B]).
  { change (lit "audio/L" ++ B) with (lit "audio" ++ 47%N :: (76%N :: B)).
    rewrite split_at_first by reflexivity.
    rewrite split_without; [reflexivity|].
    apply (none_in_app _ [76%N] B); [reflexivity | apply Nb; lia]. }
  assert (K : ChatEvents.split 61%N (lit "rate=" ++ R) = [lit "rate"; R]).
  { change (lit "rate=" ++ R) with (lit "rate" ++ 61%N :: R).
    rewrite split_at_first by reflexivity.
    rewrite split_without; [reflexivity | apply Nr; lia]. }
  unfold Wav.parseMimeType.
  rewrite S; cbn [List.map hd tl].
  rewrite (trim_none (lit "audio/L" ++ B))
    by (apply none_in_app; [reflexivity | exact Sb]).
  rewrite F; cbn [nth_error skipn].
  change (negb (Chat.falsy (76%N :: B)) && starts_with (lit "L") (76%N :: B))
    with true.
  cbv iota.
  repeat match goal with
         | |- context [Wav.parseInt ?x] =>
             replace (Wav.parseInt x) with (Wav.of_N bits)
               by (symmetry; exact Pb)
         end.
  cbn [Wav.isNaN Wav.of_N Wav.of_Z negb].
  rewrite map_app, fold_left_app, (params_without_rate _ _ Ho2).
  cbn [List.map fold_left].
  rewrite (trim_none (lit "rate=" ++ R))
    by (apply none_in_app; [reflexivity | exact Sr]).
  unfold Wav.read_param, Wav.key_of, Wav.key_value.
  rewrite K; cbn [List.map hd nth_error].
  rewrite (trim_none R Sr).
  change (jseq (trim (lit "rate")) (lit "rate")) with true.
  cbv iota.
  match goal with
  | |- context [Wav.parseInt ?x] =>
      replace (Wav.parseInt x) with (Wav.of_N rate) by (symmetry; exact Pr)
  end.
  reflexivity.
Qed.

(** X20.  [parseMimeType] reads the sample size and the rate back from a
    PCM type [audio/L<bits>;...;rate=<rate>], whatever other parameters
    stand in between, and sets one channel; this for numerals up to 2^53,
    which [parseInt] reads without rounding. *)
Theorem parseMimeType_reads_pcm_type (bits rate : N)
    (others : list jsstring) :
  Forall (fun p => Shapes.none_in (fun x => (x =? 59)%N) p = true
                   /\ jseq (Wav.key_of (trim p)) (lit "rate") = false)
    others ->
  (bits <= 9007199254740992)%N -> (rate <= 9007199254740992)%N ->
  Wav.parseMimeType
    (lit "audio/L" ++ Chat.toString bits
     ++ concat (List.map (cons 59%N) others)
     ++ lit ";rate=" ++ Chat.toString rate)
  = {| Wav.numChannels := Some (Wav.of_N 1);
       Wav.sampleRate := Some (Wav.of_N rate);
       Wav.bitsPerSample := Some (Wav.of_N bits) |}.
Proof. exact (parseMimeType_pcm bits rate others). Qed.

Lemma parseMimeType_reads_pcm_type_witness :
  Wav.parseMimeType (lit "audio/L16;codec=pcm;rate=24000")
  = {| Wav.numChannels := Some (Wav.of_N 1);
       Wav.sampleRate := Some (Wav.of_N 24000);
       Wav.bitsPerSample := Some (Wav.of_N 16) |}.
Proof.
  apply (parseMimeType_reads_pcm_type 16 24000 [lit "codec=pcm"]);
    [constructor; [split; reflexivity | constructor] | lia | lia].
Defined.

(** Past 2^53 the options hold the double that [parseInt] returns, not
    the number written in the type. *)
Example parseMimeType_rounds_rate :
  Wav.sampleRate
    (Wav.parseMimeType (lit "audio/L16;rate=9007199254740993"))
  = Some (Wav.of_N 9007199254740992).
Proof. vm_compute; reflexivity. Qed.

(** ** [createWavHeader] *)

(** Little-endian bytes lose nothing of a value that fits. *)
Lemma low_bytes_read_back (n : nat) (v : N) :
  (v < 256 ^ N.of_nat n)%N -> Wav.little_endian (Wav.low_bytes n v) = v.
Proof.
  unfold Wav.little_endian; revert v; induction n as [|n IH]; intros v Hv.
  - change (256 ^ N.of_nat 0)%N with 1%N in Hv; cbn; lia.
  - rewrite Nat2N.inj_succ, N.pow_succ_r' in Hv.
    cbn [Wav.low_bytes fold_right].
    rewrite IH by (apply N.Div0.div_lt_upper_bound; exact Hv).
    pose proof (N.div_mod v 256); lia.
Qed.

Lemma low_bytes_length (n : nat) (v : N) : length (Wav.low_bytes n v) = n.
Proof.
  revert v; induction n as [|n IH]; intros v; [reflexivity|].
  cbn [Wav.low_bytes length]; rewrite IH; reflexivity.
Qed.

(** A write of a finite value: the range check, the bounds check, the
    bytes of the integer part. *)
Lemma writeUIntLE_fin (E1 : Wav.number -> Z -> jsstring) (E2 : jsstring)
    (n : nat) (max num : Z) (den : positive) (offset : nat)
    (buf : Wav.buffer) :
  Wav.writeUIntLE E1 E2 n max (Wav.fin (QArith_base.Qmake num den)) offset buf
  = if ((0 <=? num) && (num <=? max * Zpos den))%Z
    then
      if (length buf <? offset + n)%nat then Api.threw E2
      else Api.returned
             (Wav.store offset
                (Wav.low_bytes n (Z.to_N (num / Zpos den))) buf)
    else Api.threw (E1 (Wav.fin (QArith_base.Qmake num den)) max).
Proof.
  unfold Wav.writeUIntLE, Wav.gt, Wav.of_Z, QArith_base.inject_Z,
    QArith_base.Qle_bool.
  cbn [QArith_base.Qnum QArith_base.Qden].
  destruct (Z.leb_spec 0 num) as [H0 | H0];
    destruct (Z.leb_spec num (max * Zpos den)) as [H1 | H1];
    cbn [andb].
  - replace (num * 1 <=? max * Zpos den)%Z with true
      by (symmetry; apply Z.leb_le; lia).
    replace (0 * Zpos den <=? num * 1)%Z with true
      by (symmetry; apply Z.leb_le; lia).
    reflexivity.
  - replace (num * 1 <=? max * Zpos den)%Z with false
      by (symmetry; apply Z.leb_gt; lia).
    reflexivity.
  - replace (0 * Zpos den <=? num * 1)%Z with false
      by (symmetry; apply Z.leb_gt; lia).
    rewrite orb_true_r; reflexivity.
  - replace (num * 1 <=? max * Zpos den)%Z with false
      by (symmetry; apply Z.leb_gt; lia).
    reflexivity.
Qed.

(** A write of [NaN] stores zeros. *)
Lemma writeUIntLE_NaN (E1 : Wav.number -> Z -> jsstring) (E2 : jsstring)
    (n : nat) (max : Z) (offset : nat) (buf : Wav.buffer) :
  Wav.writeUIntLE E1 E2 n max Wav.NaN offset buf
  = if (length buf <? offset + n)%nat then Api.threw E2
    else Api.returned (Wav.store offset (Wav.low_bytes n 0) buf).
Proof. reflexivity. Qed.

(** One write of [createWavHeader] on a buffer of known size: the value
    is in range and the header goes on, or the write throws, which [tac]
    deals with. *)
Ltac write_case tac :=
  rewrite writeUIntLE_fin;
  match goal with
  | |- context [(?a && ?b)%bool] => destruct (a && b)%bool eqn:?
  end;
  [ match goal with
    | |- context [(length ?x <? ?k)%nat] =>
        change (length x <? k)%nat with false
    end; cbv iota; cbn [Wav.bind]
  | cbv iota; cbn [Wav.bind]; tac ].

Ltac header_start :=
  unfold Wav.createWavHeader, Wav.writeUInt32LE, Wav.writeUInt16LE;
  cbn [Wav.to_number Wav.numChannels Wav.sampleRate Wav.bitsPerSample];
  unfold Wav.of_Z, QArith_base.inject_Z;
  cbn [Wav.add Wav.mul Wav.eighth];
  unfold QArith_base.Qplus, QArith_base.Qmult;
  cbn [QArith_base.Qnum QArith_base.Qden Pos.mul].

Ltac range_facts :=
  repeat match goal with
         | H : (_ && _)%bool = true |- _ =>
             apply andb_true_iff in H; destruct H
         | H : (_ && _)%bool = false |- _ =>
             apply andb_false_iff in H
         | H : (_ <=? _)%Z = true |- _ => apply Z.leb_le in H
         end;
  rewrite ?Z.leb_gt in *.

Section Header.

Variable E1 : Wav.number -> Z -> jsstring.
Variable E2 : jsstring.
Variables len c s b : Z.

Local Abbreviation options :=
  {| Wav.numChannels := Some (Wav.of_Z c);
     Wav.sampleRate := Some (Wav.of_Z s);
     Wav.bitsPerSample := Some (Wav.of_Z b) |}.

Local Abbreviation header :=
  (lit "RIFF" ++ Wav.low_bytes 4 (Z.to_N (36 + len))
   ++ lit "WAVEfmt " ++ Wav.low_bytes 4 16 ++ Wav.low_bytes 2 1
   ++ Wav.low_bytes 2 (Z.to_N c) ++ Wav.low_bytes 4 (Z.to_N s)
   ++ Wav.low_bytes 4 (Z.to_N (s * c * b / 8))
   ++ Wav.low_bytes 2 (Z.to_N (c * b / 8))
   ++ Wav.low_bytes 2 (Z.to_N b)
   ++ lit "data" ++ Wav.low_bytes 4 (Z.to_N len)).

(** A header that is returned was written from values in range, and is
    the thirteen fields one after the other. *)
Lemma createWavHeader_returned (h : Wav.buffer) :
  Wav.createWavHeader E1 E2 (Wav.of_Z len) options = Api.returned h ->
  Wav.fits len c s b /\ h = header.
Proof.
  header_start.
  do 9 (write_case ltac:(discriminate)).
  intros H; injection H as <-.
  split.
  - unfold Wav.fits; range_facts; lia.
  - rewrite !Z.mul_1_r, !Z.div_1_r.
    replace (36 * 1 + len)%Z with (36 + len)%Z by lia.
    reflexivity.
Qed.

Lemma createWavHeader_fits :
  Wav.fits len c s b ->
  Wav.createWavHeader E1 E2 (Wav.of_Z len) options = Api.returned header.
Proof.
  intros F.
  destruct (Wav.createWavHeader E1 E2 (Wav.of_Z len) options) as [m | h]
    eqn:E.
  - exfalso; revert E; unfold Wav.fits in F.
    header_start.
    do 9 (write_case ltac:(range_facts; lia)).
    discriminate.
  - destruct (createWavHeader_returned h E) as [_ ->]; reflexivity.
Qed.

End Header.

Lemma eighth_bounds (x max : Z) :
  (0 <= x <= 8 * max)%Z -> (0 <= x / 8 <= max)%Z.
Proof.
  intros H; split;
    [apply Z.div_pos; lia | apply Z.div_le_upper_bound; lia].
Qed.

Lemma field_read_back (n : nat) (v max : Z) :
  (0 <= v <= max)%Z -> (max < Z.of_N (256 ^ N.of_nat n))%Z ->
  Z.of_N (Wav.little_endian (Wav.low_bytes n (Z.to_N v))) = v.
Proof.
  intros Hv Hmax; rewrite low_bytes_read_back; lia.
Qed.

(** X21.  With every value in range, [createWavHeader] returns the 44
    bytes of a canonical WAV header: the chunk names [RIFF], [WAVE],
    [fmt ] and [data] at offsets 0, 8, 12 and 36, and little-endian
    fields that read back as the chunk size 36 + data length, the format
    size 16, the PCM tag 1, the channels, the sample rate, the byte rate,
    the block alignment, the sample size and the data length. *)
Theorem header_fields_read_back
    (E1 : Wav.number -> Z -> jsstring) (E2 : jsstring) (len c s b : Z) :
  Wav.fits len c s b ->
  exists h,
    Wav.createWavHeader E1 E2 (Wav.of_Z len)
      {| Wav.numChannels := Some (Wav.of_Z c);
         Wav.sampleRate := Some (Wav.of_Z s);
         Wav.bitsPerSample := Some (Wav.of_Z b) |} = Api.returned h
    /\ length h = 44
    /\ Wav.field 0 4 h = lit "RIFF"
    /\ Wav.field 8 8 h = lit "WAVEfmt "
    /\ Wav.field 36 4 h = lit "data"
    /\ (Z.of_N (Wav.little_endian (Wav.field 4 4 h)) = 36 + len
        /\ Z.of_N (Wav.little_endian (Wav.field 16 4 h)) = 16
        /\ Z.of_N (Wav.little_endian (Wav.field 20 2 h)) = 1
        /\ Z.of_N (Wav.little_endian (Wav.field 22 2 h)) = c
        /\ Z.of_N (Wav.little_endian (Wav.field 24 4 h)) = s
        /\ Z.of_N (Wav.little_endian (Wav.field 28 4 h)) = s * c * b / 8
        /\ Z.of_N (Wav.little_endian (Wav.field 32 2 h)) = c * b / 8
        /\ Z.of_N (Wav.little_endian (Wav.field 34 2 h)) = b
        /\ Z.of_N (Wav.little_endian (Wav.field 40 4 h)) = len)%Z.
Proof.
  intros F; eexists; split; [apply createWavHeader_fits, F|].
  unfold Wav.fits in F.
  split; [reflexivity|]. split; [reflexivity|].
  split; [reflexivity|]. split; [reflexivity|].
  repeat split;
    match goal with
    | |- Z.of_N (Wav.little_endian (Wav.field ?o 4 ?h)) = ?v =>
        change (Wav.field o 4 h) with (Wav.low_bytes 4 (Z.to_N v));
        apply (field_read_back 4 v 4294967295);
          [first [lia | apply eighth_bounds; lia] | reflexivity]
    | |- Z.of_N (Wav.little_endian (Wav.field ?o 2 ?h)) = ?v =>
        change (Wav.field o 2 h) with (Wav.low_bytes 2 (Z.to_N v));
        apply (field_read_back 2 v 65535);
          [first [lia | apply eighth_bounds; lia] | reflexivity]
    end.
Qed.

Lemma header_fields_read_back_witness :
  exists h,
    Wav.createWavHeader (fun _ _ => lit "out of range") (lit "out of bounds")
      (Wav.of_Z 48000)
      {| Wav.numChannels := Some (Wav.of_Z 1);
         Wav.sampleRate := Some (Wav.of_Z 24000);
         Wav.bitsPerSample := Some (Wav.of_Z 16) |} = Api.returned h
    /\ length h = 44
    /\ Wav.field 0 4 h = lit "RIFF"
    /\ Wav.field 8 8 h = lit "WAVEfmt "
    /\ Wav.field 36 4 h = lit "data"
    /\ (Z.of_N (Wav.little_endian (Wav.field 4 4 h)) = 36 + 48000
        /\ Z.of_N (Wav.little_endian (Wav.field 16 4 h)) = 16
        /\ Z.of_N (Wav.little_endian (Wav.field 20 2 h)) = 1
        /\ Z.of_N (Wav.little_endian (Wav.field 22 2 h)) = 1
        /\ Z.of_N (Wav.little_endian (Wav.field 24 4 h)) = 24000
        /\ Z.of_N (Wav.little_endian (Wav.field 28 4 h)) = 24000 * 1 * 16 / 8
        /\ Z.of_N (Wav.little_endian (Wav.field 32 2 h)) = 1 * 16 / 8
        /\ Z.of_N (Wav.little_endian (Wav.field 34 2 h)) = 16
        /\ Z.of_N (Wav.little_endian (Wav.field 40 4 h)) = 48000)%Z.
Proof.
  apply (header_fields_read_back (fun _ _ => lit "out of range")
           (lit "out of bounds") 48000 1 24000 16).
  unfold Wav.fits; lia.
Defined.

(** X22.  [createWavHeader] returns a header exactly when every value it
    writes is in the range of its field; otherwise a write throws.  So a
    payload of more than 4294967259 bytes, a negative rate, or a sample
    size over 65535 leave no header. *)
Theorem header_exactly_when_fields_fit
    (E1 : Wav.number -> Z -> jsstring) (E2 : jsstring) (len c s b : Z) :
  (exists h,
     Wav.createWavHeader E1 E2 (Wav.of_Z len)
       {| Wav.numChannels := Some (Wav.of_Z c);
          Wav.sampleRate := Some (Wav.of_Z s);
          Wav.bitsPerSample := Some (Wav.of_Z b) |} = Api.returned h)
  <-> Wav.fits len c s b.
Proof.
  split.
  - intros [h H]; exact (proj1 (createWavHeader_returned E1 E2 len c s b h H)).
  - intros F; eexists; apply createWavHeader_fits, F.
Qed.

(** X23.  A type without a [rate] parameter does not stop the
    conversion: the sample rate and the byte rate, computed from
    [undefined], are written as zeros, and the header is returned. *)
Theorem missing_rate_is_written_as_zero
    (E1 : Wav.number -> Z -> jsstring) (E2 : jsstring) (len c b : Z) :
  (0 <= len /\ 36 + len <= 4294967295)%Z ->
  (0 <= c <= 65535)%Z -> (0 <= b <= 65535)%Z ->
  (c * b <= 8 * 65535)%Z ->
  exists h,
    Wav.createWavHeader E1 E2 (Wav.of_Z len)
      {| Wav.numChannels := Some (Wav.of_Z c);
         Wav.sampleRate := None;
         Wav.bitsPerSample := Some (Wav.of_Z b) |} = Api.returned h
    /\ length h = 44
    /\ Wav.field 24 4 h = [0; 0; 0; 0]%N
    /\ Wav.field 28 4 h = [0; 0; 0; 0]%N
    /\ Z.of_N (Wav.little_endian (Wav.field 34 2 h)) = b.
Proof.
  intros Hl Hc Hb Hcb.
  assert (Hcb0 : (0 <= c * b)%Z) by nia.
  exists (lit "RIFF" ++ Wav.low_bytes 4 (Z.to_N (36 + len))
          ++ lit "WAVEfmt " ++ Wav.low_bytes 4 16 ++ Wav.low_bytes 2 1
          ++ Wav.low_bytes 2 (Z.to_N c) ++ Wav.low_bytes 4 0
          ++ Wav.low_bytes 4 0
          ++ Wav.low_bytes 2 (Z.to_N (c * b / 8))
          ++ Wav.low_bytes 2 (Z.to_N b)
          ++ lit "data" ++ Wav.low_bytes 4 (Z.to_N len)).
  split.
  - header_start.
    do 4 (write_case ltac:(exfalso; range_facts; lia)).
    do 2 (rewrite writeUIntLE_NaN;
          match goal with
          | |- context [(length ?x <? ?k)%nat] =>
              change (length x <? k)%nat with false
          end; cbv iota; cbn [Wav.bind]).
    do 3 (write_case ltac:(exfalso; range_facts; lia)).
    rewrite !Z.mul_1_r, !Z.div_1_r.
    replace (36 * 1 + len)%Z with (36 + len)%Z by lia.
    reflexivity.
  - split; [reflexivity|]. split; [reflexivity|]. split; [reflexivity|].
    change (Wav.field 34 2 _) with (Wav.low_bytes 2 (Z.to_N b)).
    apply (field_read_back 2 b 65535); [lia | reflexivity].
Qed.

Lemma missing_rate_is_written_as_zero_witness :
  exists h,
    Wav.createWavHeader (fun _ _ => lit "out of range") (lit "out of bounds")
      (Wav.of_Z 48000)
      {| Wav.numChannels := Some (Wav.of_Z 1);
         Wav.sampleRate := None;
         Wav.bitsPerSample := Some (Wav.of_Z 16) |} = Api.returned h
    /\ length h = 44
    /\ Wav.field 24 4 h = [0; 0; 0; 0]%N
    /\ Wav.field 28 4 h = [0; 0; 0; 0]%N
    /\ Z.of_N (Wav.little_endian (Wav.field 34 2 h)) = 16%Z.
Proof.
  apply (missing_rate_is_written_as_zero (fun _ _ => lit "out of range")
           (lit "out of bounds") 48000 1 16); lia.
Defined.

(** X24.  [convertToWav] on a PCM type [audio/L<bits>;...;rate=<rate>]
    returns a 44-byte header followed by the decoded payload, unchanged.
    The chunk size of the header is the size of the whole file less 8,
    its data size is the size of the payload, and its format fields are
    one channel, the rate and the sample size of the type. *)
Theorem convertToWav_wraps_payload
    (E1 : Wav.number -> Z -> jsstring) (E2 : jsstring)
    (from_base64 : jsstring -> Wav.buffer)
    (bits rate : N) (others : list jsstring) (rawData : jsstring) :
  Forall (fun p => Shapes.none_in (fun x => (x =? 59)%N) p = true
                   /\ jseq (Wav.key_of (trim p)) (lit "rate") = false)
    others ->
  Wav.fits (Z.of_nat (length (from_base64 rawData))) 1 (Z.of_N rate)
    (Z.of_N bits) ->
  exists h,
    Wav.convertToWav E1 E2 from_base64 rawData
      (lit "audio/L" ++ Chat.toString bits
       ++ concat (List.map (cons 59%N) others)
       ++ lit ";rate=" ++ Chat.toString rate)
    = Api.returned (h ++ from_base64 rawData)
    /\ length h = 44
    /\ Z.of_N (Wav.little_endian (Wav.field 4 4 h))
       = (Z.of_nat (length (h ++ from_base64 rawData)) - 8)%Z
    /\ Z.of_N (Wav.little_endian (Wav.field 40 4 h))
       = Z.of_nat (length (from_base64 rawData))
    /\ Wav.little_endian (Wav.field 22 2 h) = 1%N
    /\ Wav.little_endian (Wav.field 24 4 h) = rate
    /\ Wav.little_endian (Wav.field 28 4 h) = (rate * bits / 8)%N
    /\ Wav.little_endian (Wav.field 32 2 h) = (bits / 8)%N
    /\ Wav.little_endian (Wav.field 34 2 h) = bits.
Proof.
  intros Ho F.
  unfold Wav.convertToWav.
  rewrite (parseMimeType_pcm bits rate others Ho)
    by (unfold Wav.fits in F; lia).
  unfold Wav.of_N; change (Z.of_N 1) with 1%Z.
  rewrite (createWavHeader_fits E1 E2 _ _ _ _ F).
  cbn [Wav.bind].
  eexists; split; [reflexivity|].
  unfold Wav.fits in F.
  split; [reflexivity|].
  split.
  { change (Wav.field 4 4 _)
      with (Wav.low_bytes 4
              (Z.to_N (36 + Z.of_nat (length (from_base64 rawData))))).
    rewrite (field_read_back 4 _ 4294967295); [| lia | reflexivity].
    rewrite length_app.
    change (length (lit "RIFF" ++ _)) with 44%nat. lia. }
  split.
  { change (Wav.field 40 4 _)
      with (Wav.low_bytes 4 (Z.to_N (Z.of_nat (length (from_base64 rawData))))).
    apply (field_read_back 4 _ 4294967295); [lia | reflexivity]. }
  split; [reflexivity|].
  split.
  { change (Wav.field 24 4 _) with (Wav.low_bytes 4 (Z.to_N (Z.of_N rate))).
    rewrite N2Z.id; apply low_bytes_read_back.
    change (256 ^ N.of_nat 4)%N with 4294967296%N; lia. }
  split.
  { change (Wav.field 28 4 _)
      with (Wav.low_bytes 4 (Z.to_N (Z.of_N rate * 1 * Z.of_N bits / 8))).
    replace (Z.to_N (Z.of_N rate * 1 * Z.of_N bits / 8))
      with (rate * bits / 8)%N
      by (rewrite Z.mul_1_r, <- N2Z.inj_mul;
          change 8%Z with (Z.of_N 8); rewrite <- N2Z.inj_div, N2Z.id;
          reflexivity).
    apply low_bytes_read_back.
    change (256 ^ N.of_nat 4)%N with 4294967296%N.
    apply N.Div0.div_lt_upper_bound; lia. }
  split.
  { change (Wav.field 32 2 _)
      with (Wav.low_bytes 2 (Z.to_N (1 * Z.of_N bits / 8))).
    replace (Z.to_N (1 * Z.of_N bits / 8)) with (bits / 8)%N
      by (rewrite Z.mul_1_l; change 8%Z with (Z.of_N 8);
          rewrite <- N2Z.inj_div, N2Z.id; reflexivity).
    apply low_bytes_read_back.
    change (256 ^ N.of_nat 2)%N with 65536%N.
    apply N.Div0.div_lt_upper_bound; lia. }
  change (Wav.field 34 2 _) with (Wav.low_bytes 2 (Z.to_N (Z.of_N bits))).
  rewrite N2Z.id; apply low_bytes_read_back.
  change (256 ^ N.of_nat 2)%N with 65536%N; lia.
Qed.

Lemma convertToWav_wraps_payload_witness :
  exists h,
    Wav.convertToWav (fun _ _ => lit "out of range") (lit "out of bounds")
      (fun _ => [1; 2; 3; 4]%N) (lit "AQIDBA==")
      (lit "audio/L16;codec=pcm;rate=24000")
    = Api.returned (h ++ [1; 2; 3; 4]%N)
    /\ length h = 44
    /\ Z.of_N (Wav.little_endian (Wav.field 4 4 h))
       = (Z.of_nat (length (h ++ [1; 2; 3; 4]%N)) - 8)%Z
    /\ Z.of_N (Wav.little_endian (Wav.field 40 4 h)) = Z.of_nat 4
    /\ Wav.little_endian (Wav.field 22 2 h) = 1%N
    /\ Wav.little_endian (Wav.field 24 4 h) = 24000%N
    /\ Wav.little_endian (Wav.field 28 4 h) = (24000 * 16 / 8)%N
    /\ Wav.little_endian (Wav.field 32 2 h) = (16 / 8)%N
    /\ Wav.little_endian (Wav.field 34 2 h) = 16%N.
Proof.
  apply (convertToWav_wraps_payload (fun _ _ => lit "out of range")
           (lit "out of bounds") (fun _ => [1; 2; 3; 4]%N) 16 24000
           [lit "codec=pcm"] (lit "AQIDBA==")).
  - constructor; [split; reflexivity | constructor].
  - unfold Wav.fits; cbn [length]; lia.
Defined.

(** ** The route and the chat's [speak] *)

Section SpeechRoute.

Variable E1 : Wav.number -> Z -> jsstring.
Variable E2 : jsstring.
Variable from_base64 : jsstring -> Wav.buffer.
Variable to_base64 : Wav.buffer -> jsstring.
Variable generateContent : jsstring -> Api.outcome Wav.response.
Variable getExtension : jsstring -> option jsstring.

Local Abbreviation generate :=
  (Wav.generate E1 E2 from_base64 to_base64 generateContent getExtension).

Local Abbreviation POST :=
  (Wav.POST E1 E2 from_base64 to_base64 generateContent getExtension).

(** What the [try] block returns is audio. *)
Lemma generate_returns_audio (text : jsstring) (body : Wav.speech_json) :
  generate text = Api.returned body ->
  exists audioContent mimeType, body = Wav.speech_ok audioContent mimeType.
Proof.
  unfold Wav.generate.
  destruct (generateContent text) as [m | r]; cbn [Wav.bind];
    [discriminate|].
  destruct (Speech.truthy (Wav.blockReason r)); [discriminate|].
  destruct (Wav.audioPart r) as [d|]; [|discriminate].
  destruct (negb (Speech.truthy (getExtension (Wav.mimeType d)))
            || occurs (lit "audio/L") (Wav.mimeType d)).
  - destruct (Wav.convertToWav E1 E2 from_base64 (Wav.data d)
                (Wav.mimeType d)); cbn [Wav.bind];
      [discriminate|].
    intros H; injection H as <-; eauto.
  - intros H; injection H as <-; eauto.
Qed.

(** The errors of the route have one of four titles. *)
Lemma POST_error_titles (apiKey text : option jsstring) (e : jsstring)
    (d : option jsstring) :
  Api.json (POST apiKey text) = Wav.speech_error e d ->
  In e [lit "Configuration Error"; lit "Text is required";
        lit "GEMINI_MODALITY_UNSUPPORTED"; lit "Speech Generation Error"].
Proof.
  unfold Wav.POST.
  destruct (Api.missing apiKey);
    [intros H; injection H as <- _; simpl; auto|].
  destruct (Api.missing text);
    [intros H; injection H as <- _; simpl; auto|].
  destruct (Wav.generate _ _ _ _ _ _ _) as [m | body] eqn:G.
  - destruct (occurs (lit "modality") m || occurs (lit "400") m);
      intros H; injection H as <- _; simpl; auto.
  - destruct (generate_returns_audio _ _ G) as (a & mt & ->); discriminate.
Qed.

End SpeechRoute.

(** X25.  Whatever goes wrong in the speech route (no key, no text left
    after cleaning, a blocked prompt, no audio part, a header that cannot
    be written), the message is still read aloud when the browser has a
    voice: [speak] ends with one utterance of the text as the message
    shows it, not as it was cleaned for the route, marked as speaking,
    and with no audio element. *)
Theorem failed_speech_is_spoken_by_browser
    (E1 : Wav.number -> Z -> jsstring) (E2 : jsstring)
    (from_base64 : jsstring -> Wav.buffer)
    (to_base64 : Wav.buffer -> jsstring)
    (generateContent : jsstring -> Api.outcome Wav.response)
    (getExtension : jsstring -> option jsstring)
    (atob : jsstring -> jsstring + jsstring) (apiKey : option jsstring)
    (text messageId : jsstring) (st : Chat.state) (v : Speech.voices)
    (q : list jsstring) (e : jsstring) (d : option jsstring) :
  Speech.is_id (Chat.speakingMessageId st) messageId = false ->
  Speech.is_id (Chat.isGeneratingSpeech st) messageId = false ->
  Speech.utterances v = Some q ->
  Api.json (Wav.POST E1 E2 from_base64 to_base64 generateContent getExtension
              apiKey (Some (Speech.cleanText text)))
  = Wav.speech_error e d ->
  let after :=
    Speech.speak
      (Wav.service E1 E2 from_base64 to_base64 generateContent getExtension
         apiKey)
      atob text messageId st v in
  Chat.speakingMessageId (fst after) = Some messageId
  /\ Chat.isGeneratingSpeech (fst after) = None
  /\ Chat.messages (fst after) = Chat.messages st
  /\ Speech.audioRef (snd after) = None
  /\ Speech.utterances (snd after) = Some [text].
Proof.
  intros H1 H2 Hv He after; subst after.
  pose proof (POST_error_titles _ _ _ _ _ _ _ _ _ _ He) as Ht.
  unfold Speech.speak; rewrite H1, H2; cbn [orb].
  unfold Wav.service; rewrite He.
  unfold Speech.caught, Speech.silence; rewrite Hv.
  cbn [Speech.utterances Speech.is_id Speech.truthy].
  simpl in Ht.
  destruct Ht as [<- | [<- | [<- | [<- | []]]]]; cbn; auto.
Qed.

Lemma failed_speech_is_spoken_by_browser_witness :
  let after :=
    Speech.speak
      (Wav.service (fun _ _ => lit "out of range") (lit "out of bounds")
         (fun _ => []) (fun _ => []) (fun _ => Api.threw (lit "offline"))
         (fun _ => None) None)
      (fun s => inl s) (lit "**Hello**") (lit "7") ChatEvents.initial
      {| Speech.audioRef := None; Speech.utterances := Some [] |} in
  Chat.speakingMessageId (fst after) = Some (lit "7")
  /\ Chat.isGeneratingSpeech (fst after) = None
  /\ Chat.messages (fst after) = Chat.messages ChatEvents.initial
  /\ Speech.audioRef (snd after) = None
  /\ Speech.utterances (snd after) = Some [lit "**Hello**"].
Proof.
  exact (failed_speech_is_spoken_by_browser
           (fun _ _ => lit "out of range") (lit "out of bounds")
           (fun _ => []) (fun _ => []) (fun _ => Api.threw (lit "offline"))
           (fun _ => None) (fun s => inl s) None
           (lit "**Hello**") (lit "7") ChatEvents.initial
           {| Speech.audioRef := None; Speech.utterances := Some [] |}
           [] (lit "Configuration Error")
           (Some (lit "GEMINI_API_KEY is not defined."))
           eq_refl eq_refl eq_refl eq_refl).
Defined.

Lemma occurs_at_head (p s : jsstring) : occurs p (p ++ s) = true.
Proof.
  assert (H : starts_with p (p ++ s) = true)
    by (unfold starts_with; rewrite strip_prefix_app; reflexivity).
  destruct (p ++ s); cbn [occurs]; rewrite H; reflexivity.
Qed.

(** X26.  Raw PCM audio of the model is served as a WAV file: for a
    first audio part of a type [audio/L<bits>;...;rate=<rate>] whose
    values fit, the route answers 200 with the type [audio/wav] and the
    encoding of a 44-byte header followed by the decoded data, whether
    the type has a registered extension or not. *)
Theorem pcm_audio_is_served_as_wav
    (E1 : Wav.number -> Z -> jsstring) (E2 : jsstring)
    (from_base64 : jsstring -> Wav.buffer)
    (to_base64 : Wav.buffer -> jsstring)
    (generateContent : jsstring -> Api.outcome Wav.response)
    (getExtension : jsstring -> option jsstring)
    (apiKey : option jsstring) (text : jsstring) (r : Wav.response)
    (part : Wav.inlineData) (bits rate : N) (others : list jsstring) :
  Api.missing apiKey = false -> Chat.falsy text = false ->
  generateContent text = Api.returned r ->
  Speech.truthy (Wav.blockReason r) = false ->
  Wav.audioPart r = Some part ->
  Wav.mimeType part
  = lit "audio/L" ++ Chat.toString bits
    ++ concat (List.map (cons 59%N) others)
    ++ lit ";rate=" ++ Chat.toString rate ->
  Forall (fun p => Shapes.none_in (fun x => (x =? 59)%N) p = true
                   /\ jseq (Wav.key_of (trim p)) (lit "rate") = false)
    others ->
  Wav.fits (Z.of_nat (length (from_base64 (Wav.data part)))) 1
    (Z.of_N rate) (Z.of_N bits) ->
  exists h,
    Wav.POST E1 E2 from_base64 to_base64 generateContent getExtension
      apiKey (Some text)
    = {| Api.status := 200;
         Api.json :=
           Wav.speech_ok (to_base64 (h ++ from_base64 (Wav.data part)))
             (lit "audio/wav") |}
    /\ length h = 44
    /\ Wav.createWavHeader E1 E2
         (Wav.of_Z (Z.of_nat (length (from_base64 (Wav.data part)))))
         {| Wav.numChannels := Some (Wav.of_N 1);
            Wav.sampleRate := Some (Wav.of_N rate);
            Wav.bitsPerSample := Some (Wav.of_N bits) |}
       = Api.returned h.
Proof.
  intros Hk Ht Hg Hb Hp Hm Ho F.
  pose proof (createWavHeader_fits E1 E2 _ _ _ _ F) as Hh.
  eexists; split; [|split; [|exact Hh]]; [|reflexivity].
  unfold Wav.POST; rewrite Hk.
  unfold Api.missing; rewrite Ht.
  unfold Wav.generate; rewrite Hg; cbn [Wav.bind]; rewrite Hb, Hp.
  assert (Hl : occurs (lit "audio/L") (Wav.mimeType part) = true)
    by (rewrite Hm; apply occurs_at_head).
  rewrite Hl, orb_true_r.
  unfold Wav.convertToWav; rewrite Hm.
  rewrite (parseMimeType_pcm bits rate others Ho)
    by (unfold Wav.fits in F; lia).
  unfold Wav.of_N; change (Z.of_N 1) with 1%Z.
  rewrite Hh; reflexivity.
Qed.

Lemma pcm_audio_is_served_as_wav_witness :
  exists h,
    Wav.POST (fun _ _ => lit "out of range") (lit "out of bounds")
      (fun _ => [1; 2; 3; 4]%N) (fun _ => lit "UklGRg==")
      (fun _ =>
         Api.returned
           {| Wav.blockReason := None;
              Wav.parts :=
                [None;
                 Some {| Wav.data := lit "AQIDBA==";
                         Wav.mimeType :=
                           lit "audio/L16;codec=pcm;rate=24000" |}] |})
      (fun _ => None) (Some (lit "key")) (Some (lit "Hello"))
    = {| Api.status := 200;
         Api.json :=
           Wav.speech_ok (lit "UklGRg==") (lit "audio/wav") |}
    /\ length h = 44
    /\ Wav.createWavHeader (fun _ _ => lit "out of range")
         (lit "out of bounds") (Wav.of_Z (Z.of_nat 4))
         {| Wav.numChannels := Some (Wav.of_N 1);
            Wav.sampleRate := Some (Wav.of_N 24000);
            Wav.bitsPerSample := Some (Wav.of_N 16) |}
       = Api.returned h.
Proof.
  apply (pcm_audio_is_served_as_wav (fun _ _ => lit "out of range")
           (lit "out of bounds") (fun _ => [1; 2; 3; 4]%N)
           (fun _ => lit "UklGRg==")
           (fun _ =>
              Api.returned
                {| Wav.blockReason := None;
                   Wav.parts :=
                     [None;
                      Some {| Wav.data := lit "AQIDBA==";
                              Wav.mimeType :=
                                lit "audio/L16;codec=pcm;rate=24000" |}] |})
           (fun _ => None) (Some (lit "key")) (lit "Hello")
           {| Wav.blockReason := None;
              Wav.parts :=
                [None;
                 Some {| Wav.data := lit "AQIDBA==";
                         Wav.mimeType :=
                           lit "audio/L16;codec=pcm;rate=24000" |}] |}
           {| Wav.data := lit "AQIDBA==";
              Wav.mimeType := lit "audio/L16;codec=pcm;rate=24000" |}
           16 24000 [lit "codec=pcm"]);
    try reflexivity.
  - constructor; [split; reflexivity | constructor].
  - unfold Wav.fits; cbn [length Wav.data]; lia.
Defined.
